(** * simpleconfig: a shallow embedding of [SimplerConfig], its nested-cfg
    parser and writer, and the immutability overlay.

    The Python objects form a graph with back references (every node knows
    its owner and its root), so the embedding keeps all nodes of a program
    run in one store, a list addressed by node identifiers, and every
    operation is a state transformer over this store.  A raised exception
    leaves the store as it is at the point of the [raise]: the store is
    returned next to the result in both cases.

    Text is modelled by [string] over 7-bit characters. *)

From Stdlib Require Import List String Ascii ZArith Lia Bool Arith.
From Stdlib Require Import DecimalString DecimalPos DecimalZ.
Import ListNotations.
Open Scope string_scope.
Open Scope list_scope.

Set Implicit Arguments.
Set Warnings "-register-all".

(* ------------------------------------------------------------------ *)
(** ** Characters and strings *)

Module Chars.

Definition code (c : ascii) : nat := nat_of_ascii c.

Definition in_range (lo hi : nat) (c : ascii) : bool :=
  Nat.leb lo (code c) && Nat.leb (code c) hi.

Definition is_digit (c : ascii) : bool := in_range 48 57 c.
Definition is_upper (c : ascii) : bool := in_range 65 90 c.
Definition is_lower (c : ascii) : bool := in_range 97 122 c.
Definition is_alpha (c : ascii) : bool := is_upper c || is_lower c.

(** [[a-zA-Z_]] and [[a-zA-Z0-9_]] of REGEXP_NAME. *)
Definition is_name_start (c : ascii) : bool := is_alpha c || Ascii.eqb c "_".
Definition is_name_char (c : ascii) : bool := is_name_start c || is_digit c.

(** [\s] on 7-bit text: tab, newline, VT, FF, CR, the four separators
    0x1c-0x1f and the space. *)
Definition is_space (c : ascii) : bool :=
  in_range 9 13 c || in_range 28 31 c || Ascii.eqb c " ".

(** The white space [int] skips around the digits of 7-bit text: tab,
    newline, VT, FF, CR and the space. *)
Definition is_int_space (c : ascii) : bool :=
  in_range 9 13 c || Ascii.eqb c " ".

(** [[ \t\r\f\v]] of REGEXP_COMMENT. *)
Definition is_blank (c : ascii) : bool :=
  Ascii.eqb c " " || (in_range 9 13 c && negb (Nat.eqb (code c) 10)).

Definition newline : ascii := ascii_of_nat 10.

(** [str.lower] on one character. *)
Definition lower (c : ascii) : ascii :=
  if is_upper c then ascii_of_nat (code c + 32) else c.

End Chars.

Fixpoint str_map (f : ascii -> ascii) (s : string) : string :=
  match s with
  | EmptyString => EmptyString
  | String c r => String (f c) (str_map f r)
  end.

Fixpoint str_forallb (p : ascii -> bool) (s : string) : bool :=
  match s with
  | EmptyString => true
  | String c r => p c && str_forallb p r
  end.

Fixpoint str_existsb (p : ascii -> bool) (s : string) : bool :=
  match s with
  | EmptyString => false
  | String c r => p c || str_existsb p r
  end.

(** [s.lower()] *)
Definition str_lower (s : string) : string := str_map Chars.lower s.

(** [s.replace(a, b)] for one-character [a] and [b]. *)
Definition str_replace (a b : ascii) (s : string) : string :=
  str_map (fun c => if Ascii.eqb c a then b else c) s.

(** [str(z)] of a Python int. *)
Definition str_of_int (z : Z) : string := NilZero.string_of_int (Z.to_int z).

(* ------------------------------------------------------------------ *)
(** ** Values, exceptions, nodes *)

Definition node_id := nat.

(** Keys as callers pass them: a string or an integer index. *)
Inductive pykey :=
| KStr (s : string)
| KInt (z : Z).

(** The values the embedding covers.  [PConf] is a reference to a
    configuration node.  [PScalar] is any other scalar (a float, for one),
    known by the text [str] gives for it.  Classes and functions, the only
    values that trigger a modifier in [BY_TYPE], are not part of it. *)
Inductive pyval :=
| PNone
| PInt (z : Z)
| PStr (s : string)
| PList (l : list pyval)
| PTuple (l : list pyval)
| PDict (d : list (pykey * pyval))
| PConf (n : node_id)
| PScalar (text : string).

Inductive exn :=
| KeyError (msg : string)
| ValueError (msg : string)
| IndexError (msg : string)
| TypeError (msg : string)
| AttributeError (msg : string)
| AssertionError
| ImmutableConfiguration (function_name : string)
| Exception (msg : string)
(** [Exception(f"[LINE {n+1}] ({type(e).__name__}) {e}")] of [Parser.parse] *)
| LineException (line : nat) (inner : exn).

(** An entry of [__order__]. *)
Inductive order_item :=
| OKey (k : string)
| OComment (text : string).

(** One [SimplerConfig] object.  The six fields after [sections] are the
    entries of the [__meta__] dict ([back] always equals [owner]).
    [frozen] records that [set_immutable] has stored a raising placeholder
    in the instance dictionary under the name of every method marked
    [@mutator]; it does this for all of them in one loop, so one flag is
    enough. *)
Record node := mkNode {
  data : list (string * pyval);
  order : list order_item;
  sections : list string;
  owner : option node_id;
  root : node_id;
  sub_path : list string;
  modifier : option string;
  key : option string;
  frozen : bool
}.

Definition store := list node.

(* ------------------------------------------------------------------ *)
(** ** Insertion-ordered dicts and sets of strings *)

Fixpoint dict_get (d : list (string * pyval)) (k : string) : option pyval :=
  match d with
  | [] => None
  | (k', v) :: r => if String.eqb k' k then Some v else dict_get r k
  end.

Definition dict_has (d : list (string * pyval)) (k : string) : bool :=
  match dict_get d k with Some _ => true | None => false end.

(** [d[k] = v]: a bound key keeps its position, a new key goes last. *)
Fixpoint dict_set (d : list (string * pyval)) (k : string) (v : pyval)
  : list (string * pyval) :=
  match d with
  | [] => [(k, v)]
  | (k', v') :: r =>
      if String.eqb k' k then (k', v) :: r else (k', v') :: dict_set r k v
  end.

Fixpoint dict_del (d : list (string * pyval)) (k : string)
  : list (string * pyval) :=
  match d with
  | [] => []
  | (k', v') :: r => if String.eqb k' k then r else (k', v') :: dict_del r k
  end.

Definition dict_keys (d : list (string * pyval)) : list string := map fst d.

Definition set_mem (s : list string) (k : string) : bool :=
  existsb (String.eqb k) s.

Definition set_add (s : list string) (k : string) : list string :=
  if set_mem s k then s else s ++ [k].

Definition set_remove (s : list string) (k : string) : list string :=
  filter (fun k' => negb (String.eqb k k')) s.

(* ------------------------------------------------------------------ *)
(** ** The monad of store transformers *)

(** Why a computation leaves the embedding: it enters the code of a
    modifier plug-in, it exhausts the recursion budget of a function that
    recurses through the store, it follows a reference to no node, or it
    needs the [repr] of a container or of a node. *)
Inductive stuck_reason := Plugin | NoFuel | Dangling | NoRepr.

Inductive res (A : Type) :=
| Val (a : A)
| Exn (e : exn)
| Stuck (why : stuck_reason).

Arguments Val {A} a.
Arguments Exn {A} e.
Arguments Stuck {A} why.

Definition M (A : Type) := store -> store * res A.

Definition ret {A} (a : A) : M A := fun st => (st, Val a).
Definition raise {A} (e : exn) : M A := fun st => (st, Exn e).
Definition stuck {A} (w : stuck_reason) : M A := fun st => (st, Stuck w).

Definition bind {A B} (m : M A) (k : A -> M B) : M B :=
  fun st =>
    match m st with
    | (st', Val a) => k a st'
    | (st', Exn e) => (st', Exn e)
    | (st', Stuck w) => (st', Stuck w)
    end.

Declare Scope conf_scope.
Delimit Scope conf_scope with conf.
Notation "x <- m ;; k" := (bind m (fun x => k))
  (at level 61, m at next level, right associativity) : conf_scope.
Notation "m ;;; k" := (bind m (fun _ => k))
  (at level 61, right associativity) : conf_scope.
Open Scope conf_scope.

(** [try: m except: h] *)
Definition try_except {A} (m : M A) (h : exn -> M A) : M A :=
  fun st =>
    match m st with
    | (st', Exn e) => h e st'
    | r => r
    end.

Definition get_node (n : node_id) : M node :=
  fun st =>
    match nth_error st n with
    | Some nd => (st, Val nd)
    | None => (st, Stuck Dangling)
    end.

Fixpoint list_set {A} (l : list A) (i : nat) (x : A) : list A :=
  match l, i with
  | [], _ => []
  | _ :: r, O => x :: r
  | y :: r, S j => y :: list_set r j x
  end.

Definition put_node (n : node_id) (nd : node) : M unit :=
  fun st => (list_set st n nd, Val tt).

(** Allocation of a new object. *)
Definition alloc (nd : node_id -> node) : M node_id :=
  fun st => (st ++ [nd (List.length st)], Val (List.length st)).

Definition with_data (nd : node) d :=
  mkNode d (order nd) (sections nd) (owner nd) (root nd) (sub_path nd)
         (modifier nd) (key nd) (frozen nd).
Definition with_order (nd : node) o :=
  mkNode (data nd) o (sections nd) (owner nd) (root nd) (sub_path nd)
         (modifier nd) (key nd) (frozen nd).
Definition with_sections (nd : node) s :=
  mkNode (data nd) (order nd) s (owner nd) (root nd) (sub_path nd)
         (modifier nd) (key nd) (frozen nd).
Definition with_modifier (nd : node) m :=
  mkNode (data nd) (order nd) (sections nd) (owner nd) (root nd) (sub_path nd)
         m (key nd) (frozen nd).
Definition with_frozen (nd : node) f :=
  mkNode (data nd) (order nd) (sections nd) (owner nd) (root nd) (sub_path nd)
         (modifier nd) (key nd) f.

Definition lift {A} (r : res A) : M A := fun st => (st, r).

(* ------------------------------------------------------------------ *)
(** ** The configuration node: [SimplerConfig] *)

(** The modules found in [simpleconfig/modifiers]: [BY_NAME]. *)
Inductive plugin := type_modifier.

Definition get_modifier_by_name (name : option string) : option plugin :=
  match name with
  | Some s => if String.eqb s "type_modifier" then Some type_modifier else None
  | None => None
  end.

(** [get_modifier_name] and [get_modifier] *)
Definition get_modifier_name (nd : node) : option string := modifier nd.
Definition get_modifier (nd : node) : option plugin :=
  get_modifier_by_name (get_modifier_name nd).

Definition opt_conf (o : option node_id) : pyval :=
  match o with Some n => PConf n | None => PNone end.
Definition opt_str (o : option string) : pyval :=
  match o with Some s => PStr s | None => PNone end.

(** [self.__meta__.get(k)]: the dict built by [__init_private_data__]. *)
Definition meta_get (nd : node) (k : string) : option pyval :=
  if String.eqb k "owner" then Some (opt_conf (owner nd))
  else if String.eqb k "back" then Some (opt_conf (owner nd))
  else if String.eqb k "root" then Some (PConf (root nd))
  else if String.eqb k "sub_path" then Some (PTuple (map PStr (sub_path nd)))
  else if String.eqb k "modifier" then Some (opt_str (modifier nd))
  else if String.eqb k "key" then Some (opt_str (key nd))
  else None.

Definition meta_has (nd : node) (k : string) : bool :=
  match meta_get nd k with Some _ => true | None => false end.

(** [__key_transform__] *)
Definition key_transform (key : pykey) : res string :=
  let key := match key with
             | KInt z => ("list" ++ str_of_int z)%string
             | KStr s => s
             end in
  let key := str_replace "." "_"
               (str_replace " " "_" (str_replace "-" "_" (str_lower key))) in
  match key with
  | EmptyString => Exn (IndexError "string index out of range")
  | String c _ =>
      if Chars.is_digit c
      then Exn (KeyError
                  "Key must be a valid python name (cannot start with a digit)")
      else Val key
  end.

(** A method marked [@mutator], looked up by name on the instance: once the
    node is frozen the name is bound to the placeholder that raises. *)
Definition guard (n : node_id) (f_name : string) : M unit :=
  nd <- get_node n;;
  if frozen nd then raise (ImmutableConfiguration f_name) else ret tt.

(** [get_value] with the default left to the caller: [None] stands for
    "the default came back".  [__getitem__] and [setdefault] pass a fresh
    object as default and test the result for identity with it, which is
    the test for [None] here. *)
Definition get_value (n : node_id) (key : pykey) : M (option pyval) :=
  k <- lift (key_transform key);;
  nd <- get_node n;;
  match meta_get nd k with
  | Some v => ret (Some v)
  | None =>
      match get_modifier nd with
      | None => ret (dict_get (data nd) k)
      | Some _ => stuck Plugin      (* decode_field, decode_implicit_field *)
      end
  end.

(** [get(key, default_value)] *)
Definition get (n : node_id) (key : pykey) (default_value : pyval) : M pyval :=
  r <- get_value n key;;
  ret (match r with Some v => v | None => default_value end).

(** [has_section]: the key is not transformed. *)
Definition has_section (nd : node) (k : string) : bool := set_mem (sections nd) k.

(** [__contains__] *)
Definition contains (n : node_id) (key : pykey) : M bool :=
  k <- lift (key_transform key);;
  nd <- get_node n;;
  ret (dict_has (data nd) k).

(** [has_key]: no transformation; an integer is a key of neither dict. *)
Definition has_key (n : node_id) (key : pykey) : M bool :=
  nd <- get_node n;;
  match key with
  | KStr k => if meta_has nd k then ret true
              else if dict_has (data nd) k then ret true
              else ret false
  | KInt _ => ret false
  end.

(** [is_empty] and [__len__] *)
Definition is_empty (n : node_id) : M bool :=
  nd <- get_node n;; ret (Nat.eqb (List.length (data nd)) 0).
Definition len (n : node_id) : M nat :=
  nd <- get_node n;; ret (List.length (data nd)).

(** [__update_data__] *)
Definition update_data (n : node_id) (k : string) (value : pyval) : M unit :=
  guard n "__update_data__";;;
  nd <- get_node n;;
  put_node n (with_order (with_data nd (dict_set (data nd) k value))
                         (order nd ++ [OKey k])).

(** [self.__class__(owner=self, sub_path=..., key=..., modifier=...)]:
    [__init__] with no file and nothing to [update]. *)
Definition init_conf (own : node_id) (path : list string) (k : string)
           (m : option string) : M node_id :=
  ond <- get_node own;;
  alloc (fun _ => mkNode [] [] [] (Some own) (root ond) path m (Some k) false).

(** [add_section] *)
Definition add_section (n : node_id) (key : pykey) (section_type : option string)
  : M node_id :=
  guard n "add_section";;;
  k <- lift (key_transform key);;
  nd <- get_node n;;
  if meta_has nd k then
    raise (KeyError ("Cannot use meta-data field: " ++ k))
  else if has_section nd k then
    raise (KeyError (k ++ " section already exists"))
  else
    used <- contains n (KStr k);;
    if (used : bool) then raise (KeyError (k ++ " is used to store value"))
    else
      sub_conf <- init_conf n (sub_path nd ++ [k]) k section_type;;
      update_data n k (PConf sub_conf);;;
      nd' <- get_node n;;
      put_node n (with_sections nd' (set_add (sections nd') k));;;
      ret sub_conf.

(** [add_comment] *)
Definition add_comment (n : node_id) (comment : string) : M unit :=
  guard n "add_comment";;;
  nd <- get_node n;;
  put_node n (with_order nd (order nd ++ [OComment comment])).

(** [set_value].  [get_modifier_by_value] finds nothing for the values of
    [pyval].  The assignments [dict_section[k] = v] and [list_section[k] = v]
    run [__setitem__] of the class, which calls [set_value] on the new
    section. *)
Fixpoint set_value (value : pyval) (n : node_id) (key : pykey) {struct value}
  : M unit :=
  guard n "set_value";;;
  k <- lift (key_transform key);;
  nd <- get_node n;;
  match get_modifier nd with
  | Some _ => stuck Plugin          (* encode_field *)
  | None =>
      if meta_has nd k then
        raise (KeyError ("Cannot set meta-data field: " ++ k))
      else if dict_has (data nd) k then
        raise (KeyError ("Cannot update existing data field or section: " ++ k))
      else
        match value with
        | PDict d =>
            dict_section <- add_section n (KStr k) None;;
            (fix items (d : list (pykey * pyval)) : M unit :=
               match d with
               | [] => ret tt
               | (k', v') :: r => set_value v' dict_section k';;; items r
               end) d
        | PList l | PTuple l =>
            list_section <- add_section n (KStr k) None;;
            (fix elems (i : Z) (l : list pyval) : M unit :=
               match l with
               | [] => ret tt
               | v' :: r => set_value v' list_section (KInt i);;;
                            elems (i + 1)%Z r
               end) 0%Z l
        | _ => update_data n k value
        end
  end.

(** [node[key] = value] and [node.key = value]: the interpreter takes
    [__setitem__] (also bound to [__setattr__]) from the class, whatever the
    instance dictionary holds; its body calls [self.set_value]. *)
Definition setitem (n : node_id) (key : pykey) (value : pyval) : M unit :=
  set_value value n key.

(** The body of [__delitem__]. *)
Definition delitem_body (n : node_id) (key : pykey) : M unit :=
  k <- lift (key_transform key);;
  nd <- get_node n;;
  if dict_has (data nd) k then
    let nd1 := with_data nd (dict_del (data nd) k) in
    put_node n (if set_mem (sections nd1) k
                then with_sections nd1 (set_remove (sections nd1) k)
                else nd1)
  else raise (KeyError k).

(** [del node[key]]: like every implicit use of a special method, the
    statement takes [__delitem__] from the class and never looks at the
    instance dictionary, where [set_immutable] puts its placeholders. *)
Definition delitem (n : node_id) (key : pykey) : M unit := delitem_body n key.

(** [node.__delitem__(key)], the method looked up by name. *)
Definition call_delitem (n : node_id) (key : pykey) : M unit :=
  guard n "__delitem__";;; delitem_body n key.

(** [set_modifier]: the argument is a string or [None] by its type. *)
Definition set_modifier (n : node_id) (modifier_name : option string) : M unit :=
  guard n "set_modifier";;;
  nd <- get_node n;;
  put_node n (with_modifier (with_data nd []) modifier_name).

(** [clear] *)
Definition clear (n : node_id) : M unit :=
  guard n "clear";;;
  nd <- get_node n;;
  put_node n (with_data nd []);;;
  set_modifier n None.

(** [get_section] *)
Definition get_section (n : node_id) (key : pykey) : M pyval :=
  k <- lift (key_transform key);;
  nd <- get_node n;;
  if set_mem (sections nd) k then
    match dict_get (data nd) k with
    | Some v => ret v
    | None => raise (KeyError k)
    end
  else if meta_has nd k then
    raise (KeyError ("Meta-data field " ++ k ++ " is not a section"))
  else if dict_has (data nd) k then
    raise (KeyError (k ++ " is a value field, not a section"))
  else
    c <- add_section n (KStr k) None;; ret (PConf c).

(** [key in v] for a stored value [v] that need not be a node. *)
Definition py_contains (v : pyval) (key : pykey) : M bool :=
  match v with
  | PConf g => contains g key
  | PStr s =>
      match key with
      | KStr k => ret (match String.index 0 k s with Some _ => true | None => false end)
      | KInt _ => raise (TypeError "'in <string>' requires string as left operand, not int")
      end
  | _ => raise (TypeError "argument is not iterable")
  end.

(** [__getitem__] for a key that is not a tuple.  [conf.globals] and
    [conf.owner] go through [__getattr__], that is through [__getitem__]
    again; [owner] is a metadata field, which [get_value] answers first.
    [fuel] bounds the depth of these nested calls and the length of the walk
    along the owners. *)
Fixpoint getitem (fuel : nat) (n : node_id) (key : pykey) {struct fuel}
  : M pyval :=
  match fuel with
  | O => stuck NoFuel
  | S f =>
      r <- get_value n key;;
      match r with
      | Some v => ret v
      | None =>
          (fix walk (g : nat) (conf : option node_id) {struct g} : M pyval :=
             match conf with
             | None => get_section n key
             | Some c =>
                 match g with
                 | O => stuck NoFuel
                 | S g' =>
                     cnd <- get_node c;;
                     if has_section cnd "globals" then
                       gl <- getitem f c (KStr "globals");;
                       found <- py_contains gl key;;
                       if (found : bool) then
                         gl' <- getitem f c (KStr "globals");;
                         match gl' with
                         | PConf g => getitem f g key
                         | _ => raise (TypeError "value is not subscriptable")
                         end
                       else walk g' (owner cnd)
                     else walk g' (owner cnd)
                 end
             end) f (Some n)
      end
  end.

(** [node[k1, ..., kn]]: each element indexes the result of the previous. *)
Fixpoint getitem_path (fuel : nat) (cur : pyval) (keys : list pykey) : M pyval :=
  match keys with
  | [] => ret cur
  | k :: r =>
      match cur with
      | PConf c => v <- getitem fuel c k;; getitem_path fuel v r
      | _ => raise (TypeError "value is not subscriptable")
      end
  end.

(** [setdefault]: the call [self.set_value(default)] passes one argument to
    a method of two. *)
Definition setdefault (n : node_id) (key : pykey) (default : pyval) : M pyval :=
  guard n "setdefault";;;
  r <- get_value n key;;
  match r with
  | Some v => ret v
  | None =>
      guard n "set_value";;;
      @raise unit (TypeError
        "set_value() missing 1 required positional argument: 'value'");;;
      ret default
  end.

(** [set_immutable].  [fuel] bounds the depth of the recursion into the
    sections, [gfuel] is the budget of each [self[s]]. *)
Fixpoint set_immutable (fuel gfuel : nat) (n : node_id)
         (recursive from_root : bool) {struct fuel} : M unit :=
  match fuel with
  | O => stuck NoFuel
  | S f =>
      guard n "set_immutable";;;
      nd <- get_node n;;
      if from_root && negb (Nat.eqb n (root nd)) then
        set_immutable f gfuel (root nd) true false
      else
        put_node n (with_frozen nd true);;;
        if recursive then
          (fix each (ss : list string) : M unit :=
             match ss with
             | [] => ret tt
             | s :: r =>
                 v <- getitem gfuel n (KStr s);;
                 match v with
                 | PConf c => set_immutable f gfuel c true false
                 | _ => raise (AttributeError "set_immutable")
                 end;;;
                 each r
             end) (sections nd)
        else ret tt
  end.

(** The store of a program that has run [SimplerConfig()]. *)
Definition empty_root : node := mkNode [] [] [] None 0 [] None None false.
Definition init_store : store := [empty_root].

(* ------------------------------------------------------------------ *)
(** ** [int(s)] on text *)

Fixpoint lstrip (l : list ascii) : list ascii :=
  match l with
  | c :: r => if Chars.is_int_space c then lstrip r else l
  | [] => []
  end.

Definition strip (l : list ascii) : list ascii := rev (lstrip (rev (lstrip l))).

(** Digits with single underscores between them. *)
Fixpoint int_body_ok (after_digit : bool) (l : list ascii) : bool :=
  match l with
  | [] => after_digit
  | c :: r =>
      if Chars.is_digit c then int_body_ok true r
      else if Ascii.eqb c "_" then after_digit && int_body_ok false r
      else false
  end.

Definition digits_of (l : list ascii) : list ascii :=
  filter (fun c => negb (Ascii.eqb c "_")) l.

Definition int_of_body (l : list ascii) : option Z :=
  if int_body_ok false l then
    match NilEmpty.uint_of_string (string_of_list_ascii (digits_of l)) with
    | Some u => Some (Z.of_uint u)
    | None => None
    end
  else None.

(** [int(s)] in base 10: optional white space around an optional sign and
    the digits. *)
Definition py_int (s : string) : option Z :=
  match strip (list_ascii_of_string s) with
  | c :: r =>
      if Ascii.eqb c "-" then option_map Z.opp (int_of_body r)
      else if Ascii.eqb c "+" then int_of_body r
      else int_of_body (c :: r)
  | [] => None
  end.

(* ------------------------------------------------------------------ *)
(** ** Iteration *)

(** [s[n:]] *)
Fixpoint str_drop (n : nat) (s : string) : string :=
  match n, s with
  | O, _ => s
  | S m, String _ r => str_drop m r
  | S _, EmptyString => EmptyString
  end.

(** What [__iter__] hands out: the generator object of [iter_as_list], of
    which no line has run yet, or the iterator of the [__data__] dict. *)
Inductive iterator :=
| AsListGenerator (n : node_id)
| DataKeys (n : node_id).

(** Calling the generator function [iter_as_list] builds the generator and
    returns; its body runs when the generator is advanced. *)
Definition iter_as_list (n : node_id) : M iterator := ret (AsListGenerator n).

(** [__iter__] *)
Definition iter (n : node_id) : M iterator :=
  try_except (iter_as_list n) (fun _ => ret (DataKeys n)).

Fixpoint mapM {A B} (f : A -> M B) (l : list A) : M (list B) :=
  match l with
  | [] => ret []
  | a :: r => b <- f a;; bs <- mapM f r;; ret (b :: bs)
  end.

Definition int_of_key (k : string) : M Z :=
  match py_int (str_drop 4 k) with
  | Some z => ret z
  | None => raise (ValueError "invalid literal for int() with base 10")
  end.

(** The body of [iter_as_list] run to its end, with the values it yields. *)
Definition iter_as_list_body (fuel : nat) (n : node_id) : M (list pyval) :=
  nd <- get_node n;;
  let string_keys := dict_keys (data nd) in
  if Nat.eqb (List.length string_keys) 0 then ret []
  else if negb (forallb (String.prefix "list") string_keys) then
    raise AssertionError
  else
    all_keys <- mapM int_of_key string_keys;;
    match all_keys with
    | [] => raise (ValueError "max() arg is an empty sequence")
    | z :: zs =>
        let max_key := fold_right Z.max z zs in
        mapM (fun i : nat =>
                if existsb (Z.eqb (Z.of_nat i)) all_keys
                then getitem fuel n (KInt (Z.of_nat i))
                else ret PNone)
             (seq 0 (Z.to_nat (max_key + 1)))
    end.

(** [list(it)]: advance the iterator until it is exhausted. *)
Definition drain (fuel : nat) (it : iterator) : M (list pyval) :=
  match it with
  | AsListGenerator n => iter_as_list_body fuel n
  | DataKeys n => nd <- get_node n;; ret (map PStr (dict_keys (data nd)))
  end.

(** [[*node]] *)
Definition iterate (fuel : nat) (n : node_id) : M (list pyval) :=
  it <- iter n;; drain fuel it.

(* ------------------------------------------------------------------ *)
(** ** The store engine [nestedcfg]: regular expressions *)

(** The longest prefix of characters satisfying [p], and the rest. *)
Fixpoint span (p : ascii -> bool) (s : string) : string * string :=
  match s with
  | EmptyString => (EmptyString, EmptyString)
  | String c r =>
      if p c then let (a, b) := span p r in (String c a, b)
      else (EmptyString, s)
  end.

Definition is_space_char (c : ascii) : bool := Ascii.eqb c " ".
Definition not_newline (c : ascii) : bool := negb (Ascii.eqb c Chars.newline).

(** [$]: the end of the text, or the newline that ends it. *)
Definition at_end (s : string) : bool :=
  match s with
  | EmptyString => true
  | String c EmptyString => Ascii.eqb c Chars.newline
  | _ => false
  end.

(** REGEXP_COMMENT followed by [$], matched at the start of [s]: the text of
    the whole group. *)
Definition match_comment (s : string) : option string :=
  let (blanks, r) := span Chars.is_blank s in
  match r with
  | String "#" r' =>
      let (text, r'') := span not_newline r' in
      if at_end r'' then Some (blanks ++ String "#" text)%string else None
  | _ => if at_end r then Some blanks else None
  end.

(** The two forms of REGEXP_DATA_LINE after the key. *)
Inductive data_kind :=
| IsSection (encoder : option string)
| IsValue (value : string).

(** REGEXP_DATA_LINE matched at the start of [s]: the length of the group
    [indent], the group [key] and what follows.  Every repetition takes the
    longest run; no shorter one lets the rest match. *)
Definition match_data_line (s : string) : option (nat * string * data_kind) :=
  let (indent, r1) := span is_space_char s in
  match r1 with
  | EmptyString => None
  | String c _ =>
      if Chars.is_name_start c then
        let (key, r2) := span Chars.is_name_char r1 in
        let (_, r3) := span Chars.is_space r2 in
        match r3 with
        | String ":" r4 =>
            let (_, r5) := span Chars.is_space r4 in
            match r5 with
            | String c' _ =>
                if Chars.is_name_start c'
                then Some (String.length indent, key,
                           IsSection (Some (fst (span Chars.is_name_char r5))))
                else Some (String.length indent, key, IsSection None)
            | EmptyString => Some (String.length indent, key, IsSection None)
            end
        | String "=" r4 =>
            let (_, r5) := span Chars.is_space r4 in
            match r5 with
            | EmptyString => None
            | String _ _ =>
                Some (String.length indent, key, IsValue (fst (span not_newline r5)))
            end
        | _ => None
        end
      else None
  end.

(** [RE_ALL_LINES.match]: the data line is tried first. *)
Inductive line_match :=
| DataLine (indent : nat) (key : string) (kind : data_kind)
| CommentLine (comment : string).

Definition match_all_lines (s : string) : option line_match :=
  match match_data_line s with
  | Some (indent, key, kind) => Some (DataLine indent key kind)
  | None => option_map CommentLine (match_comment s)
  end.

(* ------------------------------------------------------------------ *)
(** ** The store engine [nestedcfg]: [Writer] *)

Record writer := mkWriter {
  fp : string;            (* what has been written to the stream *)
  current_indent : nat
}.

Definition indent_spaces : nat := 4.
Definition line_break : string := String Chars.newline EmptyString.

Fixpoint spaces (n : nat) : string :=
  match n with
  | O => EmptyString
  | S m => String " " (spaces m)
  end.

Definition write (w : writer) (s : string) : writer :=
  mkWriter (fp w ++ s)%string (current_indent w).

Definition write_indent (w : writer) : writer :=
  write w (spaces (current_indent w * indent_spaces)).

Definition write_line (w : writer) (s : string) : writer :=
  write (write w s) line_break.

Definition start_section (w : writer) (k : string) (encoder : option string)
  : writer :=
  let w := write_indent w in
  let w := match encoder with
           | Some e => write_line w (k ++ ": " ++ e)%string
           | None => write_line w (k ++ ":")%string
           end in
  mkWriter (fp w) (current_indent w + 1).

Definition end_section (w : writer) : writer :=
  mkWriter (fp w) (current_indent w - 1).

(** [str(v)] where the embedding has it. *)
Definition py_str (v : pyval) : option string :=
  match v with
  | PNone => Some "None"
  | PInt z => Some (str_of_int z)
  | PStr s => Some s
  | PScalar t => Some t
  | _ => None
  end.

Definition write_key_value (w : writer) (k : string) (v : pyval) : res writer :=
  match py_str v with
  | Some s => Val (write_line (write_indent w) (k ++ " = " ++ s)%string)
  | None => Stuck NoRepr
  end.

(** [s.split("\n")] *)
Fixpoint split_newline (s : string) : list string :=
  match s with
  | EmptyString => [EmptyString]
  | String c r =>
      if Ascii.eqb c Chars.newline then EmptyString :: split_newline r
      else match split_newline r with
           | h :: t => String c h :: t
           | [] => [String c EmptyString]
           end
  end.

Definition write_comment (w : writer) (comment : string) : writer :=
  fold_left
    (fun w c =>
       match match_comment c with
       | None => write_line w ("# " ++ c)%string
       | Some _ => write_line w c
       end)
    (split_newline comment) w.

(** [__dump__] *)
Fixpoint dump_node (fuel : nat) (st : store) (n : node_id) (w : writer)
  : res writer :=
  match fuel with
  | O => Stuck NoFuel
  | S f =>
      match nth_error st n with
      | None => Stuck Dangling
      | Some nd =>
          (fix items (o : list order_item) (w : writer) : res writer :=
             match o with
             | [] => Val w
             | OKey k :: r =>
                 match dict_get (data nd) k with
                 | None => items r w
                 | Some v =>
                     if has_section nd k then
                       match v with
                       | PConf c =>
                           match nth_error st c with
                           | None => Stuck Dangling
                           | Some cnd =>
                               match dump_node f st c
                                       (start_section w k (get_modifier_name cnd))
                               with
                               | Val w' => items r (end_section w')
                               | e => e
                               end
                           end
                       | _ => Exn (AttributeError "get_modifier_name")
                       end
                     else
                       match write_key_value w k v with
                       | Val w' => items r w'
                       | e => e
                       end
                 end
             | OComment c :: r => items r (write_comment w c)
             end) (order nd) w
      end
  end.

(** [dumps] *)
Definition dumps (fuel : nat) (st : store) (n : node_id) : res string :=
  match dump_node fuel st n (mkWriter "" 0) with
  | Val w => Val (fp w)
  | Exn e => Exn e
  | Stuck r => Stuck r
  end.

(* ------------------------------------------------------------------ *)
(** ** The store engine [nestedcfg]: [Parser] *)

(** [conf_stack] is kept with its top, the last element of the Python list,
    at the head. *)
Record parser := mkParser {
  new_conf : option node_id;
  conf_stack : list (nat * node_id)
}.

Definition unexpected_indentation : exn := ValueError "Unexpected indentation".

(** The [while] loop of [__update_indent]. *)
Fixpoint pop_to (indent : nat) (stack : list (nat * node_id))
  : res (list (nat * node_id)) :=
  match stack with
  | [] => Exn (IndexError "list index out of range")
  | (i, c) :: below =>
      if Nat.eqb indent i then Val stack
      else match below with
           | [] => Exn unexpected_indentation
           | _ :: _ => pop_to indent below
           end
  end.

(** [__update_indent] *)
Definition update_indent (indent : nat) (p : parser) : res parser :=
  match conf_stack p with
  | [] => Exn (IndexError "list index out of range")
  | (top, _) :: _ =>
      let after_push :=
        if Nat.ltb top indent then
          match new_conf p with
          | Some c => Val (mkParser None ((indent, c) :: conf_stack p))
          | None => Exn unexpected_indentation
          end
        else Val (mkParser None (conf_stack p)) in
      match after_push with
      | Val p1 =>
          match pop_to indent (conf_stack p1) with
          | Val stack => Val (mkParser (new_conf p1) stack)
          | Exn e => Exn e
          | Stuck r => Stuck r
          end
      | other => other
      end
  end.

(** [__get_cur_conf] *)
Definition get_cur_conf (p : parser) : res node_id :=
  match new_conf p with
  | Some c => Val c
  | None => match conf_stack p with
            | (_, c) :: _ => Val c
            | [] => Exn (IndexError "list index out of range")
            end
  end.

(** Lines of a text stream, each with the newline that ends it. *)
Fixpoint split_lines (s : string) : list string :=
  match s with
  | EmptyString => []
  | String c r =>
      if Ascii.eqb c Chars.newline then String c EmptyString :: split_lines r
      else match split_lines r with
           | h :: t => String c h :: t
           | [] => [String c EmptyString]
           end
  end.

Section Text.

(** [float(s)] and [ast.literal_eval(s)], library functions the parser
    tries after [int]: the first gives the text of the float it builds. *)
Variable py_float : string -> option string.
Variable literal_eval : string -> option pyval.

(** [_convert_from_string]: [str] accepts every text, the final [raise] is
    never reached. *)
Definition convert_from_string (value : string) : pyval :=
  match py_int value with
  | Some z => PInt z
  | None =>
      match py_float value with
      | Some f => PScalar f
      | None =>
          match literal_eval value with
          | Some v => v
          | None => PStr value
          end
      end
  end.

(** [parse_line] *)
Definition parse_line (input_line : string) (p : parser) : M parser :=
  match match_all_lines input_line with
  | None =>
      raise (Exception
               "Ill formed line: could not be matched by regular expression")
  | Some (CommentLine comment) =>
      conf <- lift (get_cur_conf p);;
      add_comment conf comment;;;
      ret p
  | Some (DataLine indent k kind) =>
      p <- lift (update_indent indent p);;
      match kind with
      | IsSection encoder =>
          conf <- lift (get_cur_conf p);;
          c <- add_section conf (KStr k) encoder;;
          ret (mkParser (Some c) (conf_stack p))
      | IsValue value =>
          conf <- lift (get_cur_conf p);;
          setitem conf (KStr k) (convert_from_string value);;;
          ret p
      end
  end.

(** [parse]: [n] counts the lines read so far. *)
Fixpoint parse (n : nat) (lines : list string) (p : parser) : M parser :=
  match lines with
  | [] => ret p
  | l :: r =>
      p' <- try_except (parse_line l p)
                       (fun e => raise (LineException (n + 1) e));;
      parse (n + 1) r p'
  end.

(** [load] on a stream that yields [lines] *)
Definition load (conf : node_id) (lines : list string) : M unit :=
  guard conf "load";;;
  parse 0 lines (mkParser None [(0, conf)]);;;
  ret tt.

(** [loads] *)
Definition loads (conf : node_id) (text : string) : M unit :=
  guard conf "loads";;;
  load conf (split_lines text).

End Text.

(* ------------------------------------------------------------------ *)
(** ** Predicates used in the statements *)

(** What [__key_transform__] does to the text of a key, character by
    character, and the texts it leaves as they are. *)
Definition normalize (s : string) : string :=
  str_replace "." "_" (str_replace " " "_" (str_replace "-" "_" (str_lower s))).

Definition normalize_char (c : ascii) : ascii :=
  let c := Chars.lower c in
  let c := if Ascii.eqb c "-" then "_"%char else c in
  let c := if Ascii.eqb c " " then "_"%char else c in
  if Ascii.eqb c "." then "_"%char else c.

(** The text [str(key)] starts from. *)
Definition key_text (key : pykey) : string :=
  match key with
  | KInt z => ("list" ++ str_of_int z)%string
  | KStr s => s
  end.

(** A character the normaliser changes: an upper-case letter, ['-'], [' ']
    or ['.']. *)
Definition is_normal_char (c : ascii) : bool :=
  negb (Chars.is_upper c || Ascii.eqb c "-" || Ascii.eqb c " " || Ascii.eqb c ".").

Definition starts_with_digit (s : string) : bool :=
  match s with
  | String c _ => Chars.is_digit c
  | EmptyString => false
  end.

(** The keys [__key_transform__] returns. *)
Definition is_normal_key (k : string) : bool :=
  negb (String.eqb k "") && negb (starts_with_digit k)
  && str_forallb is_normal_char k.

(** The node after [__update_data__(k, v)]. *)
Definition bind_key (nd : node) (k : string) (v : pyval) : node :=
  with_order (with_data nd (dict_set (data nd) k v)) (order nd ++ [OKey k]).

(** The node after [__sections__.add(k)]. *)
Definition with_section (nd : node) (k : string) : node :=
  with_sections nd (set_add (sections nd) k).

(** The object [add_section] constructs under the key [k] of node [n]. *)
Definition child_node (n : node_id) (nd : node) (k : string)
           (section_type : option string) : node :=
  mkNode [] [] [] (Some n) (root nd) (sub_path nd ++ [k]) section_type (Some k)
         false.

(** The two loops of [set_value], named. *)
Fixpoint set_items (sec : node_id) (d : list (pykey * pyval)) : M unit :=
  match d with
  | [] => ret tt
  | (k', v') :: r => set_value v' sec k';;; set_items sec r
  end.

Fixpoint set_elems (sec : node_id) (i : Z) (l : list pyval) : M unit :=
  match l with
  | [] => ret tt
  | v' :: r => set_value v' sec (KInt i);;; set_elems sec (i + 1)%Z r
  end.

(** A mapping or a sequence, which [set_value] turns into a section. *)
Definition is_container (v : pyval) : bool :=
  match v with
  | PDict _ | PList _ | PTuple _ => true
  | _ => false
  end.

(** Every node but [m] that exists in [st] is the same in [st']. *)
Definition frame (m : node_id) (st st' : store) : Prop :=
  List.length st <= List.length st' /\
  forall i, i <> m -> i < List.length st -> nth_error st' i = nth_error st i.

(** What [set_value] binds the key to: the value, or the section it makes
    for a container, which is the next node of the store. *)
Definition stored_value (value : pyval) (st : store) : pyval :=
  if is_container value then PConf (List.length st) else value.


(** [__sections__] is a subset of the keys of [__data__]. *)
Definition sections_subset (nd : node) : bool :=
  forallb (dict_has (data nd)) (sections nd).

(** The node after the body of [__delitem__] has removed the key [k]. *)
Definition without_key (nd : node) (k : string) : node :=
  let nd1 := with_data nd (dict_del (data nd) k) in
  if set_mem (sections nd1) k
  then with_sections nd1 (set_remove (sections nd1) k)
  else nd1.

(** Names of the [__meta__] dict. *)
Definition is_meta_key (k : string) : bool := meta_has empty_root k.

(** A key [__update_data__] is ever called with: normal, and no metadata
    name. *)
Definition key_ok (k : string) : bool := is_normal_key k && negb (is_meta_key k).

Definition data_keys_ok (nd : node) : bool :=
  forallb key_ok (dict_keys (data nd)).

Definition node_ok (nd : node) : Prop := data_keys_ok nd = true.

Definition store_ok (st : store) : Prop := Forall node_ok st.

(** [m] keeps [store_ok], whatever its outcome. *)
Definition keeps {A} (m : M A) : Prop :=
  forall st st' r, m st = (st', r) -> store_ok st -> store_ok st'.

Section Loops.

(** The loop of [__getitem__] along the owners, with the nested
    [__getitem__] as a parameter. *)
Variable get : node_id -> pykey -> M pyval.
Variable n : node_id.
Variable key : pykey.

Fixpoint globals_walk (g : nat) (conf : option node_id) {struct g} : M pyval :=
  match conf with
  | None => get_section n key
  | Some c =>
      match g with
      | O => stuck NoFuel
      | S g' =>
          cnd <- get_node c;;
          if has_section cnd "globals" then
            gl <- get c (KStr "globals");;
            found <- py_contains gl key;;
            if (found : bool) then
              gl' <- get c (KStr "globals");;
              match gl' with
              | PConf g => get g key
              | _ => raise (TypeError "value is not subscriptable")
              end
            else globals_walk g' (owner cnd)
          else globals_walk g' (owner cnd)
      end
  end.

(** The loop of [set_immutable] over the sections. *)
Variable freeze : node_id -> M unit.

Fixpoint freeze_sections (ss : list string) : M unit :=
  match ss with
  | [] => ret tt
  | s :: r =>
      v <- get n (KStr s);;
      match v with
      | PConf c => freeze c
      | _ => raise (AttributeError "set_immutable")
      end;;;
      freeze_sections r
  end.

End Loops.

(** [SimplerConfig()] *)
Definition new_root : M node_id :=
  alloc (fun i => mkNode [] [] [] None i [] None None false).

(** The calls a program makes on the nodes of a store. *)
Inductive op :=
| NewRoot
| SetValue (n : node_id) (key : pykey) (value : pyval)
| AddSection (n : node_id) (key : pykey) (section_type : option string)
| AddComment (n : node_id) (comment : string)
| DelItem (n : node_id) (key : pykey)
| CallDelItem (n : node_id) (key : pykey)
| GetItem (n : node_id) (key : pykey)
| Clear (n : node_id)
| SetModifier (n : node_id) (modifier_name : option string)
| SetImmutable (n : node_id) (recursive from_root : bool)
| SetDefault (n : node_id) (key : pykey) (default : pyval)
| Loads (n : node_id) (text : string).

Definition run_op (py_float : string -> option string)
           (literal_eval : string -> option pyval) (fuel : nat) (o : op)
  : M unit :=
  match o with
  | NewRoot => new_root;;; ret tt
  | SetValue n key value => set_value value n key
  | AddSection n key ty => add_section n key ty;;; ret tt
  | AddComment n comment => add_comment n comment
  | DelItem n key => delitem n key
  | CallDelItem n key => call_delitem n key
  | GetItem n key => getitem fuel n key;;; ret tt
  | Clear n => clear n
  | SetModifier n name => set_modifier n name
  | SetImmutable n recursive from_root =>
      set_immutable fuel fuel n recursive from_root
  | SetDefault n key default => setdefault n key default;;; ret tt
  | Loads n text => loads py_float literal_eval n text
  end.

(** The stores a program reaches from a fresh root, whether its calls
    return or raise. *)
Inductive reachable (py_float : string -> option string)
          (literal_eval : string -> option pyval) : store -> Prop :=
| reach_init : reachable py_float literal_eval init_store
| reach_step st o fuel st' r :
    reachable py_float literal_eval st ->
    run_op py_float literal_eval fuel o st = (st', r) ->
    reachable py_float literal_eval st'.

(** The text has a character the normaliser changes. *)
Definition has_changed_char (s : string) : bool :=
  str_existsb (fun c => negb (is_normal_char c)) s.

(** The [globals] section of a node, as the walk of [__getitem__] finds it:
    none, the node [gnd] that the key [globals] is bound to, or a shape in
    which [conf.globals] does not come back with a plain node (an active
    modifier on the way, a section key without its node). *)
Inductive globals_state :=
| NoGlobals
| HasGlobals (gnd : node)
| IllFormedGlobals.

Definition globals_of (st : store) (c : node_id) : globals_state :=
  match nth_error st c with
  | None => IllFormedGlobals
  | Some cnd =>
      if has_section cnd "globals" then
        match get_modifier cnd, dict_get (data cnd) "globals" with
        | None, Some (PConf g) =>
            match nth_error st g with
            | Some gnd =>
                match get_modifier gnd with
                | None => HasGlobals gnd
                | Some _ => IllFormedGlobals
                end
            | None => IllFormedGlobals
            end
        | _, _ => IllFormedGlobals
        end
      else NoGlobals
  end.

(** Node [m] has no [globals] section that binds [k]. *)
Definition no_global (st : store) (k : string) (m : node_id) : Prop :=
  globals_of st m = NoGlobals
  \/ exists gnd, globals_of st m = HasGlobals gnd /\ dict_get (data gnd) k = None.

(** [owner_path st n skipped c]: following [owner] from [n] one passes the
    nodes [skipped], [n] first, and arrives at [c]. *)
Inductive owner_path (st : store) : node_id -> list node_id -> node_id -> Prop :=
| path_here n : owner_path st n [] n
| path_up n nd o skipped c :
    nth_error st n = Some nd -> owner nd = Some o ->
    owner_path st o skipped c ->
    owner_path st n (n :: skipped) c.

(* ------------------------------------------------------------------ *)
(** ** Trees that survive a round trip through the text *)

(** The content of a node, stripped of identities: the comments recorded
    before the first key, then the bound keys in the order of their
    binding.  A key is bound to a value, followed by the comments recorded
    before the next key, or to a section, which no comment follows
    directly. *)
Inductive tree :=
| Tree (head : list string) (entries : list (string * item))
with item :=
| Leaf (value : pyval) (after : list string)
| Sub (t : tree).

(** The text the writer prints for a value. *)
Definition leaf_text (v : pyval) : string :=
  match py_str v with
  | Some s => s
  | None => EmptyString
  end.

(** A text the group [value] of REGEXP_VALUE gives back whole: it is not
    empty, does not start with white space and has no newline. *)
Definition is_value_text (s : string) : bool :=
  match s with
  | EmptyString => false
  | String c _ => negb (Chars.is_space c) && str_forallb not_newline s
  end.

(** A value with such a text. *)
Definition has_text (v : pyval) : bool :=
  match py_str v with
  | Some s => is_value_text s
  | None => false
  end.

(** A name of the text format that [__key_transform__] leaves alone and
    that is no metadata name. *)
Definition is_ident (k : string) : bool :=
  key_ok k && str_forallb Chars.is_name_char k.

(** A comment the writer prints as it is and the parser reads back as it
    is: one line that REGEXP_COMMENT matches. *)
Definition is_plain_comment (c : string) : bool :=
  match match_comment c with
  | Some c' => String.eqb c' c
  | None => false
  end.

Fixpoint distinct (l : list string) : bool :=
  match l with
  | [] => true
  | k :: r => negb (set_mem r k) && distinct r
  end.

Fixpoint tree_ok (t : tree) : bool :=
  match t with
  | Tree head es =>
      forallb is_plain_comment head
      && distinct (map fst es)
      && forallb (fun e : string * item =>
                    is_ident (fst e)
                    && match snd e with
                       | Leaf v after =>
                           has_text v && forallb is_plain_comment after
                       | Sub t' => tree_ok t'
                       end) es
  end.

(** Equality of two values that are no containers and no nodes. *)
Definition scalar_eqb (a b : pyval) : bool :=
  match a, b with
  | PNone, PNone => true
  | PInt x, PInt y => Z.eqb x y
  | PStr x, PStr y => String.eqb x y
  | PScalar x, PScalar y => String.eqb x y
  | _, _ => false
  end.

Section ReadBack.

Variable py_float : string -> option string.
Variable literal_eval : string -> option pyval.

(** [_convert_from_string] turns the text of the value back into the
    value, as it does for every integer and for a string that [int],
    [float] and [literal_eval] all reject. *)
Definition reads_back (v : pyval) : bool :=
  scalar_eqb (convert_from_string py_float literal_eval (leaf_text v)) v.

(** Every value of the tree is read back from its text. *)
Fixpoint values_ok (t : tree) : bool :=
  match t with
  | Tree _ es =>
      forallb (fun e : string * item =>
                 match snd e with
                 | Leaf v _ => reads_back v
                 | Sub t' => values_ok t'
                 end) es
  end.

End ReadBack.

Fixpoint tree_depth (t : tree) : nat :=
  match t with
  | Tree _ es =>
      S (fold_right Nat.max 0
           (map (fun e : string * item =>
                   match snd e with
                   | Leaf _ _ => 0
                   | Sub t' => tree_depth t'
                   end) es))
  end.

(** The lines the writer prints for a tree at indentation level [d]. *)
Definition comment_lines (cs : list string) : list string :=
  map (fun c => (c ++ line_break)%string) cs.

Definition value_line (d : nat) (k : string) (text : string) : string :=
  (spaces (d * indent_spaces) ++ k ++ " = " ++ text ++ line_break)%string.

Definition section_line (d : nat) (k : string) : string :=
  (spaces (d * indent_spaces) ++ k ++ ":" ++ line_break)%string.

Fixpoint lines_of (d : nat) (t : tree) : list string :=
  match t with
  | Tree head es =>
      comment_lines head
      ++ flat_map (fun e : string * item =>
                     match snd e with
                     | Leaf v after =>
                         value_line d (fst e) (leaf_text v) :: comment_lines after
                     | Sub t' => section_line d (fst e) :: lines_of (S d) t'
                     end) es
  end.

Definition text_of (t : tree) : string :=
  fold_right String.append EmptyString (lines_of 0 t).

(** The entries of [__order__] that [__dump__] does not skip. *)
Definition live_order (nd : node) : list order_item :=
  filter (fun o => match o with
                   | OKey k => dict_has (data nd) k
                   | OComment _ => true
                   end) (order nd).

Definition entry_order (e : string * item) : list order_item :=
  OKey (fst e) :: match snd e with
                  | Leaf _ after => map OComment after
                  | Sub _ => []
                  end.

Definition flat_order (head : list string) (es : list (string * item))
  : list order_item :=
  map OComment head ++ flat_map entry_order es.

Section RepEntries.

Variable rep_sub : tree -> node_id -> Prop.
Variable is_sec : string -> bool.

(** [__data__] holds the entries, key by key. *)
Fixpoint rep_entries (es : list (string * item)) (d : list (string * pyval))
  : Prop :=
  match es, d with
  | [], [] => True
  | (k, it) :: es', (k', v) :: d' =>
      k' = k
      /\ match it with
         | Leaf v0 _ => v = v0 /\ is_sec k = false
         | Sub t' => is_sec k = true /\ exists c', v = PConf c' /\ rep_sub t' c'
         end
      /\ rep_entries es' d'
  | _, _ => False
  end.

End RepEntries.

(** [rep P st t c]: node [c] of [st] and the nodes below it hold the tree
    [t]; all of them satisfy [P] and none has a modifier. *)
Fixpoint rep (P : node_id -> Prop) (st : store) (t : tree) (c : node_id)
         {struct t} : Prop :=
  match t with
  | Tree head es =>
      P c
      /\ exists nd,
          nth_error st c = Some nd /\ modifier nd = None
          /\ live_order nd = flat_order head es
          /\ rep_entries (rep P st) (has_section nd) es (data nd)
  end.

Definition holds_tree (st : store) (c : node_id) (t : tree) : Prop :=
  rep (fun _ => True) st t c.

(** The parser is about to take lines at indentation level [d] into node
    [c], above the stack [base]: either [c] is the pending section and the
    stack is [base], less indented, or [c] is on the stack right above
    [base], below entries that are deeper. *)
Definition inside (d : nat) (c : node_id) (base : list (nat * node_id))
           (p : parser) : Prop :=
  exists above,
    conf_stack p = above ++ (d * indent_spaces, c) :: base
    /\ Forall (fun e : nat * node_id => d * indent_spaces < fst e) above.

Definition pending (d : nat) (c : node_id) (base : list (nat * node_id))
           (p : parser) : Prop :=
  new_conf p = Some c /\ conf_stack p = base
  /\ exists top c0 rest, base = (top, c0) :: rest /\ top < d * indent_spaces.

Definition ready (d : nat) (c : node_id) (base : list (nat * node_id))
           (p : parser) : Prop :=
  pending d c base p \/ inside d c base p.

(** The head of a text fails [p], if there is one. *)
Definition stops (p : ascii -> bool) (s : string) : Prop :=
  match s with
  | EmptyString => True
  | String c _ => p c = false
  end.

(** REGEXP_DATA_LINE from the end of the key on. *)
Definition after_key (indent : nat) (key r2 : string)
  : option (nat * string * data_kind) :=
  let (_, r3) := span Chars.is_space r2 in
  match r3 with
  | String ":" r4 =>
      let (_, r5) := span Chars.is_space r4 in
      match r5 with
      | String c' _ =>
          if Chars.is_name_start c'
          then Some (indent, key,
                     IsSection (Some (fst (span Chars.is_name_char r5))))
          else Some (indent, key, IsSection None)
      | EmptyString => Some (indent, key, IsSection None)
      end
  | String "=" r4 =>
      let (_, r5) := span Chars.is_space r4 in
      match r5 with
      | EmptyString => None
      | String _ _ => Some (indent, key, IsValue (fst (span not_newline r5)))
      end
  | _ => None
  end.

Definition join (l : list string) : string :=
  fold_right String.append EmptyString l.

Section DumpItems.

(** The loop of [__dump__] over [__order__], with the recursive call as a
    parameter. *)
Variable dump : node_id -> writer -> res writer.
Variable st : store.
Variable nd : node.

Fixpoint dump_items (o : list order_item) (w : writer) : res writer :=
  match o with
  | [] => Val w
  | OKey k :: r =>
      match dict_get (data nd) k with
      | None => dump_items r w
      | Some v =>
          if has_section nd k then
            match v with
            | PConf c =>
                match nth_error st c with
                | None => Stuck Dangling
                | Some cnd =>
                    match dump c (start_section w k (get_modifier_name cnd))
                    with
                    | Val w' => dump_items r (end_section w')
                    | e => e
                    end
                end
            | _ => Exn (AttributeError "get_modifier_name")
            end
          else
            match write_key_value w k v with
            | Val w' => dump_items r w'
            | e => e
            end
      end
  | OComment c :: r => dump_items r (write_comment w c)
  end.

End DumpItems.

Definition entry_lines (d : nat) (e : string * item) : list string :=
  match snd e with
  | Leaf v after => value_line d (fst e) (leaf_text v) :: comment_lines after
  | Sub t' => section_line d (fst e) :: lines_of (S d) t'
  end.

(** Node [c] of [st], below [L] and open to writes, holds the comments
    [head] and the entries [es] so far; the sections under it are at [L]
    or above. *)
Definition filled (L : nat) (st : store) (c : node_id) (head : list string)
           (es : list (string * item)) : Prop :=
  exists nd,
    nth_error st c = Some nd /\ frozen nd = false /\ modifier nd = None
    /\ order nd = flat_order head es
    /\ rep_entries (rep (fun i => L <= i) st) (has_section nd) es (data nd)
    /\ (forall k, has_section nd k = true -> In k (map fst es)).

(** A node as [__init__] leaves it. *)
Definition is_fresh (nd : node) : Prop :=
  frozen nd = false /\ modifier nd = None /\ data nd = [] /\ order nd = []
  /\ sections nd = [].

(** The parser, ready to take lines at level [d] into the fresh node [c],
    reads the lines of [t] and leaves [t] in [c]: it touches no other node
    that was there. *)
Definition reads_tree (py_float : string -> option string)
           (literal_eval : string -> option pyval) (t : tree) : Prop :=
  forall d c base p st n nd,
    ready d c base p -> get_cur_conf p = Val c ->
    nth_error st c = Some nd -> is_fresh nd ->
    exists st' p',
      parse py_float literal_eval n (lines_of d t) p st = (st', Val p')
      /\ ready d c base p' /\ frame c st st'
      /\ rep (fun i => i = c \/ List.length st <= i) st' t c.

Definition entry_ok (e : string * item) : bool :=
  is_ident (fst e)
  && match snd e with
     | Leaf v after => has_text v && forallb is_plain_comment after
     | Sub t' => tree_ok t'
     end.

Definition entry_reads (py_float : string -> option string)
           (literal_eval : string -> option pyval) (e : string * item) : bool :=
  match snd e with
  | Leaf v _ => reads_back py_float literal_eval v
  | Sub t' => values_ok py_float literal_eval t'
  end.

(** The stores built from a fresh root through the public mutation
    contract: [set_value], [add_section], [add_comment] and [del]. *)
Inductive built : store -> Prop :=
| built_init : built init_store
| built_set st value n key st' r :
    built st -> set_value value n key st = (st', r) -> built st'
| built_section st n key section_type st' r :
    built st -> add_section n key section_type st = (st', r) -> built st'
| built_comment st n comment st' r :
    built st -> add_comment n comment st = (st', r) -> built st'
| built_delete st n key st' r :
    built st -> delitem n key st = (st', r) -> built st'.

(** Node [n] of [st] and node [n'] of [st'] are equivalent trees: the same
    keys, the same sections among them, the same values under the keys that
    are no sections, equivalent trees under those that are, and the same
    comments at the same places between the keys. *)
Fixpoint same_tree (fuel : nat) (st : store) (n : node_id)
         (st' : store) (n' : node_id) : Prop :=
  match fuel with
  | O => False
  | S f =>
      match nth_error st n, nth_error st' n' with
      | Some nd, Some nd' =>
          (forall k, dict_has (data nd) k = dict_has (data nd') k)
          /\ (forall k, dict_has (data nd) k = true ->
                        has_section nd k = has_section nd' k)
          /\ (forall k v v',
                 dict_get (data nd) k = Some v ->
                 dict_get (data nd') k = Some v' ->
                 match v, v' with
                 | PConf c, PConf c' => same_tree f st c st' c'
                 | _, _ => v = v'
                 end)
          /\ live_order nd = live_order nd'
      | _, _ => False
      end
  end.

(** The round trip as the specification words it: the text dumped from a
    tree that was built through the mutation contract, parsed into a fresh
    root, gives an equivalent tree. *)
Definition round_trip : Prop :=
  forall py_float literal_eval st fuel text st',
    built st ->
    dumps fuel st 0 = Val text ->
    loads py_float literal_eval 0 text init_store = (st', Val tt) ->
    exists f, same_tree f st 0 st' 0.

(** A line of text: no newline but the one that ends it. *)
Definition is_line (l : string) : Prop :=
  exists body, l = (body ++ line_break)%string
               /\ str_forallb not_newline body = true.

(** A store and the tree its root holds: [cfg.add_comment("# top")],
    [cfg.a = 5], [cfg.add_comment("# after a")], [s = cfg.add_section("s")],
    [s.b = -7], [s.c = "new val"]. *)
Definition sample_store : store :=
  fst ((add_comment 0 "# top";;;
        set_value (PInt 5) 0 (KStr "a");;;
        add_comment 0 "# after a";;;
        s <- add_section 0 (KStr "s") None;;
        set_value (PInt (-7)) s (KStr "b");;;
        set_value (PStr "new val") s (KStr "c"))%conf init_store).

Definition sample_tree : tree :=
  Tree ["# top"]
       [("a", Leaf (PInt 5) ["# after a"]);
        ("s", Sub (Tree [] [("b", Leaf (PInt (-7)) []);
                            ("c", Leaf (PStr "new val") [])]))].

(** What one call does to one node: [__update_data__] of an unbound key,
    [__sections__.add], [__order__.append] of a comment, [__delitem__],
    [__data__.clear()] with a new modifier, and the placeholders of
    [set_immutable]. *)
Inductive node_step : node -> node -> Prop :=
| step_bind nd k v :
    frozen nd = false -> key_ok k = true -> dict_has (data nd) k = false ->
    node_step nd (bind_key nd k v)
| step_section nd k :
    frozen nd = false -> key_ok k = true -> node_step nd (with_section nd k)
| step_comment nd c :
    frozen nd = false -> node_step nd (with_order nd (order nd ++ [OComment c]))
| step_delete nd k :
    dict_has (data nd) k = true -> node_step nd (without_key nd k)
| step_reset nd m :
    frozen nd = false -> node_step nd (with_modifier (with_data nd []) m)
| step_freeze nd :
    node_step nd (with_frozen nd true).

(** A node as the constructor leaves it in the store [st]: empty, open to
    writes, a root of its own or under an owner of [st] whose root it
    has. *)
Definition is_new (st : store) (nd : node) : Prop :=
  frozen nd = false /\ data nd = [] /\ order nd = [] /\ sections nd = []
  /\ match owner nd with
     | None => root nd = List.length st
     | Some o => exists ond, nth_error st o = Some ond /\ root nd = root ond
     end.

Inductive store_step : store -> store -> Prop :=
| step_node st n nd nd' :
    nth_error st n = Some nd -> node_step nd nd' ->
    store_step st (list_set st n nd')
| step_new st nd :
    is_new st nd -> store_step st (st ++ [nd]).

Inductive moves : store -> store -> Prop :=
| moves_refl st : moves st st
| moves_step st st1 st2 : store_step st st1 -> moves st1 st2 -> moves st st2.

(** Whatever its outcome, [m] changes the store by such steps only. *)
Definition pres {A} (m : M A) : Prop :=
  forall st st' r, m st = (st', r) -> moves st st'.

(** [st'] is reached from [st] by calls, whether they return or raise. *)
Inductive run_from (py_float : string -> option string)
          (literal_eval : string -> option pyval) : store -> store -> Prop :=
| run_none st : run_from py_float literal_eval st st
| run_call st o fuel st1 r st2 :
    run_op py_float literal_eval fuel o st = (st1, r) ->
    run_from py_float literal_eval st1 st2 ->
    run_from py_float literal_eval st st2.

(** What is left of a node [nd] in [nd']: no key, section, comment or
    modifier that [nd] did not have. *)
Definition remains_of (nd nd' : node) : Prop :=
  order nd' = order nd /\ modifier nd' = modifier nd
  /\ (forall k, has_section nd' k = true -> has_section nd k = true)
  /\ (forall k v, dict_get (data nd') k = Some v -> dict_get (data nd) k = Some v).

(** The owner of a node was made before the node and has the same root; a
    node without owner is its own root. *)
Definition owner_ok (st : store) (n : node_id) (nd : node) : Prop :=
  match owner nd with
  | None => root nd = n
  | Some o => o < n /\ exists ond, nth_error st o = Some ond /\ root nd = root ond
  end.

(** The lines [write_comment] writes for a comment: the lines of the text,
    with ["# "] before each that RE_COMMENT does not match. *)
Definition comment_text (comment : string) : list string :=
  map (fun c => match match_comment c with
                | None => ("# " ++ c)%string
                | Some _ => c
                end)
      (split_newline comment).

(* ------------------------------------------------------------------ *)
(** ** Construction from a text and copies *)

(** [update]: the arguments are taken as the items of the dict built from
    them. *)
Definition update (n : node_id) (items : list (pykey * pyval)) : M unit :=
  guard n "update";;;
  set_items n items.

(** [cls(file_path, owner)] with no file: [__init_private_data__] with no
    modifier, no sub-path and no key, and an [update] with nothing. *)
Definition construct (own : option node_id) : M node_id :=
  cfg <- match own with
         | None => new_root
         | Some o =>
             ond <- get_node o;;
             alloc (fun _ => mkNode [] [] [] (Some o) (root ond) [] None None
                                    false)
         end;;
  update cfg [];;;
  ret cfg.

Section Copies.

Variable py_float : string -> option string.
Variable literal_eval : string -> option pyval.

(** [from_string] *)
Definition from_string (text : string) (own : option node_id) : M node_id :=
  cfg <- construct own;;
  loads py_float literal_eval cfg text;;;
  ret cfg.

(** [copy]: the dump goes to a stream that the new object then loads. *)
Definition copy (fuel : nat) (n : node_id) (own : option node_id) : M node_id :=
  fun st =>
    match dump_node fuel st n (mkWriter EmptyString 0) with
    | Val w =>
        (r <- construct own;;
         load py_float literal_eval r (split_lines (fp w));;;
         ret r) st
    | Exn e => (st, Exn e)
    | Stuck x => (st, Stuck x)
    end.

End Copies.

(** The bindings [enumerate] gives the elements of a sequence, from the
    index [i] on, and their indices. *)
Fixpoint list_entries (i : Z) (l : list pyval) : list (string * pyval) :=
  match l with
  | [] => []
  | v :: r => (("list" ++ str_of_int i)%string, v) :: list_entries (i + 1) r
  end.

Fixpoint list_indices (i : Z) (l : list pyval) : list Z :=
  match l with
  | [] => []
  | _ :: r => i :: list_indices (i + 1) r
  end.

(* ------------------------------------------------------------------ *)
(** ** The nodes below a node *)

(** [m] is the node [n] or is reached from it through sections. *)
Inductive below (st : store) : node_id -> node_id -> Prop :=
| below_here n : below st n n
| below_section n nd k c m :
    nth_error st n = Some nd -> has_section nd k = true ->
    dict_get (data nd) k = Some (PConf c) ->
    below st c m -> below st n m.

Definition frozen_at (st : store) (m : node_id) : Prop :=
  exists nd, nth_error st m = Some nd /\ frozen nd = true.

(** [st'] is [st] with some more nodes frozen, and nothing else changed. *)
Definition freezes (st st' : store) : Prop :=
  List.length st' = List.length st
  /\ forall i nd, nth_error st i = Some nd ->
       nth_error st' i = Some nd \/ nth_error st' i = Some (with_frozen nd true).

(** The keys of [__data__] and of [__sections__] are keys
    [__key_transform__] returns, and no metadata names. *)
Definition sane (st : store) : Prop :=
  forall i nd, nth_error st i = Some nd ->
               node_ok nd /\ forallb key_ok (sections nd) = true.

(** [m], run in [st], leaves [st] as it is. *)
Definition still {A} (m : M A) (st : store) : Prop :=
  forall st' r, m st = (st', r) -> st' = st.

(* ------------------------------------------------------------------ *)
(** ** [update] and [as_dict] *)

(** [keys()] *)
Definition keys (n : node_id) : M (list string) :=
  nd <- get_node n;; ret (dict_keys (data nd)).

(** [as_dict]: [{**self}] takes [self.keys()] and reads [self[k]] for each
    of them. *)
Definition as_dict (fuel : nat) (n : node_id) : M (list (string * pyval)) :=
  ks <- keys n;;
  mapM (fun k => v <- getitem fuel n (KStr k);; ret (k, v)) ks.




(* ================================================================== *)
(** * Properties *)

Unset Implicit Arguments.

(* ------------------------------------------------------------------ *)
(** ** The indentation stack of the parser *)

Lemma pop_to_found indent c above rest :
  Forall (fun e : nat * node_id => fst e <> indent) above ->
  pop_to indent (above ++ (indent, c) :: rest) = Val ((indent, c) :: rest).
Proof.
  induction above as [|[i d] above IH]; intros Habove.
  - cbn. now rewrite Nat.eqb_refl.
  - inversion Habove as [|? ? Hi Hrest]; subst. cbn [app pop_to].
    destruct (Nat.eqb_spec indent i) as [->|_]; [now cbn in Hi|].
    specialize (IH Hrest).
    destruct (above ++ (indent, c) :: rest) eqn:E; [now destruct above|].
    exact IH.
Qed.

Lemma pop_to_missing indent stack :
  stack <> [] ->
  Forall (fun e : nat * node_id => fst e <> indent) stack ->
  pop_to indent stack = Exn unexpected_indentation.
Proof.
  induction stack as [|[i d] below IH]; intros Hne Hall; [congruence|].
  inversion Hall as [|? ? Hi Hrest]; subst. cbn [pop_to].
  destruct (Nat.eqb_spec indent i) as [->|_]; [now cbn in Hi|].
  destruct below; [reflexivity|]. now apply IH.
Qed.

Lemma update_indent_deeper indent p top c0 below :
  conf_stack p = (top, c0) :: below -> top < indent ->
  update_indent indent p =
    match new_conf p with
    | Some c => Val (mkParser None ((indent, c) :: conf_stack p))
    | None => Exn unexpected_indentation
    end.
Proof.
  intros Hstack Hlt. unfold update_indent. rewrite Hstack.
  apply Nat.ltb_lt in Hlt. rewrite Hlt.
  destruct (new_conf p); [|reflexivity].
  cbn. now rewrite Nat.eqb_refl.
Qed.

Lemma update_indent_not_deeper indent p top c0 below :
  conf_stack p = (top, c0) :: below -> indent <= top ->
  update_indent indent p =
    match pop_to indent (conf_stack p) with
    | Val stack => Val (mkParser None stack)
    | Exn e => Exn e
    | Stuck r => Stuck r
    end.
Proof.
  intros Hstack Hle. unfold update_indent. rewrite Hstack.
  apply Nat.ltb_ge in Hle. now rewrite Hle.
Qed.

(* ------------------------------------------------------------------ *)
(** ** Reasoning about store transformers *)

Lemma bind_inv {A B} (m : M A) (k : A -> M B) st st' r :
  bind m k st = (st', r) ->
  (exists st1 a, m st = (st1, Val a) /\ k a st1 = (st', r))
  \/ (exists e, m st = (st', Exn e) /\ r = Exn e)
  \/ (exists w, m st = (st', Stuck w) /\ r = Stuck w).
Proof.
  unfold bind. destruct (m st) as [st1 [a|e|w]]; intros H.
  - left. eauto.
  - right. left. inversion H; subst. eauto.
  - right. right. inversion H; subst. eauto.
Qed.

Lemma bind_val {A B} (m : M A) (k : A -> M B) st st1 a :
  m st = (st1, Val a) -> bind m k st = k a st1.
Proof. unfold bind. now intros ->. Qed.

Lemma bind_exn {A B} (m : M A) (k : A -> M B) st st1 e :
  m st = (st1, Exn e) -> bind m k st = (st1, Exn e).
Proof. unfold bind. now intros ->. Qed.

Lemma bind_stuck {A B} (m : M A) (k : A -> M B) st st1 w :
  m st = (st1, Stuck w) -> bind m k st = (st1, Stuck w).
Proof. unfold bind. now intros ->. Qed.

(** Splits a hypothesis [H : bind m k st = (st', r)] into its three cases;
    [H] becomes the fact about the continuation, or about [r]. *)
Tactic Notation "bind_cases" ident(H) :=
  let st1 := fresh "st" in
  let a := fresh "a" in
  let e := fresh "e" in
  let w := fresh "w" in
  let H1 := fresh "Hm" in
  apply bind_inv in H;
  destruct H as [(st1 & a & H1 & H) | [(e & H1 & H) | (w & H1 & H)]].

Lemma lift_inv {A} (x : res A) st st' r :
  lift x st = (st', r) -> st' = st /\ r = x.
Proof. unfold lift. intros H. now inversion H. Qed.

Lemma get_node_inv n st st' r :
  get_node n st = (st', r) ->
  st' = st /\
  match nth_error st n with
  | Some nd => r = Val nd
  | None => r = Stuck Dangling
  end.
Proof.
  unfold get_node. destruct (nth_error st n); intros H; now inversion H.
Qed.

Lemma guard_inv n f st st' r :
  guard n f st = (st', r) ->
  st' = st /\
  match nth_error st n with
  | Some nd => r = if frozen nd then Exn (ImmutableConfiguration f) else Val tt
  | None => r = Stuck Dangling
  end.
Proof.
  unfold guard, bind, get_node. destruct (nth_error st n) as [nd|].
  - destruct (frozen nd); intros H; now inversion H.
  - intros H; now inversion H.
Qed.

Lemma guard_ok n f st nd :
  nth_error st n = Some nd -> frozen nd = false -> guard n f st = (st, Val tt).
Proof. intros Hn Hf. unfold guard, bind, get_node. now rewrite Hn, Hf. Qed.

Lemma guard_frozen n f st nd :
  nth_error st n = Some nd -> frozen nd = true ->
  guard n f st = (st, Exn (ImmutableConfiguration f)).
Proof. intros Hn Hf. unfold guard, bind, get_node. now rewrite Hn, Hf. Qed.

Lemma get_node_ok n st nd :
  nth_error st n = Some nd -> get_node n st = (st, Val nd).
Proof. intros Hn. unfold get_node. now rewrite Hn. Qed.

Lemma nth_error_list_set {A} (l : list A) i j x :
  nth_error (list_set l i x) j =
    if Nat.eqb i j then match nth_error l i with Some _ => Some x | None => None end
    else nth_error l j.
Proof.
  revert i j. induction l as [|y l IH]; intros [|i] [|j]; cbn; try reflexivity.
  - now destruct (Nat.eqb i j).
  - apply IH.
Qed.

Lemma length_list_set {A} (l : list A) i x :
  List.length (list_set l i x) = List.length l.
Proof.
  revert i. induction l as [|y l IH]; intros [|i]; cbn; try reflexivity.
  now rewrite IH.
Qed.

Lemma update_indent_pending indent p p' :
  update_indent indent p = Val p' -> new_conf p' = None.
Proof.
  unfold update_indent. destruct (conf_stack p) as [|[top c0] below]; [discriminate|].
  destruct (Nat.ltb top indent).
  - destruct (new_conf p); [|discriminate]. cbn [conf_stack new_conf].
    destruct (pop_to indent _); intros H; inversion H; reflexivity.
  - cbn [conf_stack new_conf].
    destruct (pop_to indent _); intros H; inversion H; reflexivity.
Qed.

Lemma parse_line_pending pf le line p st st' p' :
  parse_line pf le line p st = (st', Val p') ->
  match match_all_lines line with
  | Some (CommentLine _) => p' = p
  | Some (DataLine _ _ (IsSection _)) => new_conf p' <> None
  | Some (DataLine _ _ (IsValue _)) => new_conf p' = None
  | None => False
  end.
Proof.
  unfold parse_line. destruct (match_all_lines line) as [[indent k kind|c]|].
  - intros H. bind_cases H; try discriminate.
    apply lift_inv in Hm as [-> Hu]. symmetry in Hu.
    apply update_indent_pending in Hu.
    destruct kind.
    + bind_cases H; try discriminate. bind_cases H; try discriminate.
      inversion H; subst. cbn. discriminate.
    + bind_cases H; try discriminate. bind_cases H; try discriminate.
      inversion H; subst. exact Hu.
  - intros H. bind_cases H; try discriminate. bind_cases H; try discriminate.
    now inversion H.
  - discriminate.
Qed.

Lemma parse_line_indent_error pf le line indent k kind p e st :
  match_all_lines line = Some (DataLine indent k kind) ->
  update_indent indent p = Exn e ->
  parse_line pf le line p st = (st, Exn e).
Proof.
  intros Hl Hu. unfold parse_line. rewrite Hl.
  erewrite bind_exn; [reflexivity|]. unfold lift. now rewrite Hu.
Qed.

(** C2.  A data line reaches [__update_indent] with its indent.  When the
    indent is greater than the one on top of the stack, the pending section
    is pushed with that indent if there is one, and the line fails with
    "Unexpected indentation" if there is none; otherwise the stack is popped
    down to the nearest entry with the line's indent, and the line fails
    with "Unexpected indentation" when no entry has it.  Such a failure ends
    the parse at that line with the store untouched by the line.  A section
    is pending exactly after a line that opened one: a comment line leaves
    the parser state alone, a value line leaves nothing pending. *)
Theorem parser_indentation_discipline indent p top c0 below :
  conf_stack p = (top, c0) :: below ->
  (top < indent ->
   forall c, new_conf p = Some c ->
     update_indent indent p = Val (mkParser None ((indent, c) :: conf_stack p)))
  /\ (top < indent -> new_conf p = None ->
      update_indent indent p = Exn unexpected_indentation)
  /\ (indent <= top ->
      forall above c rest,
        conf_stack p = above ++ (indent, c) :: rest ->
        Forall (fun e => fst e <> indent) above ->
        update_indent indent p = Val (mkParser None ((indent, c) :: rest)))
  /\ (indent <= top ->
      Forall (fun e => fst e <> indent) (conf_stack p) ->
      update_indent indent p = Exn unexpected_indentation)
  /\ (forall pf le line k kind e st n rest,
        match_all_lines line = Some (DataLine indent k kind) ->
        update_indent indent p = Exn e ->
        parse pf le n (line :: rest) p st = (st, Exn (LineException (n + 1) e)))
  /\ (forall pf le line st st' p',
        parse_line pf le line p st = (st', Val p') ->
        match match_all_lines line with
        | Some (CommentLine _) => p' = p
        | Some (DataLine _ _ (IsSection _)) => new_conf p' <> None
        | Some (DataLine _ _ (IsValue _)) => new_conf p' = None
        | None => False
        end).
Proof.
  intros Hstack. repeat split.
  - intros Hlt c Hc. rewrite (update_indent_deeper _ _ _ _ _ Hstack Hlt). now rewrite Hc.
  - intros Hlt Hc. rewrite (update_indent_deeper _ _ _ _ _ Hstack Hlt). now rewrite Hc.
  - intros Hle above c rest Hsplit Habove.
    rewrite (update_indent_not_deeper _ _ _ _ _ Hstack Hle), Hsplit.
    now rewrite pop_to_found.
  - intros Hle Hall.
    rewrite (update_indent_not_deeper _ _ _ _ _ Hstack Hle).
    rewrite pop_to_missing; [reflexivity| |exact Hall].
    rewrite Hstack. discriminate.
  - intros pf le line k kind e st n rest Hl Hu. cbn [parse].
    unfold try_except at 1.
    unfold bind at 1. unfold try_except.
    rewrite (parse_line_indent_error pf le _ _ _ _ _ _ st Hl Hu). reflexivity.
  - intros pf le line st st' p'. apply parse_line_pending.
Qed.

Lemma parser_indentation_discipline_witness :
  conf_stack (mkParser (Some 1) [(0, 0)]) = [(0, 0)] /\ 0 < 4 /\
  update_indent 4 (mkParser (Some 1) [(0, 0)]) =
    Val (mkParser None [(4, 1); (0, 0)]).
Proof.
  split; [reflexivity|]. split; [lia|].
  apply (proj1 (parser_indentation_discipline
                  4 (mkParser (Some 1) [(0, 0)]) 0 0 [] eq_refl));
    [lia|reflexivity].
Defined.

Create HintDb conf discriminated.
#[export] Hint Resolve guard_ok guard_frozen get_node_ok : conf.

(** Steps over the first computation of a [bind] in the goal, given that
    it returns, raises or leaves the embedding. *)
Ltac mval := erewrite bind_val by eauto with conf; cbv beta iota.
Ltac mexn := erewrite bind_exn by eauto with conf.
Ltac mstuck := erewrite bind_stuck by eauto with conf.

Lemma get_node_dangling n st :
  nth_error st n = None -> get_node n st = (st, Stuck Dangling).
Proof. intros Hn. unfold get_node. now rewrite Hn. Qed.

Lemma guard_dangling n f st :
  nth_error st n = None -> guard n f st = (st, Stuck Dangling).
Proof. intros Hn. unfold guard, bind, get_node. now rewrite Hn. Qed.

Lemma run_ret {A} (a : A) st : ret a st = (st, Val a).
Proof. reflexivity. Qed.

Lemma run_raise {A} e st : @raise A e st = (st, Exn e).
Proof. reflexivity. Qed.

Lemma run_stuck {A} w st : @stuck A w st = (st, Stuck w).
Proof. reflexivity. Qed.

Lemma run_lift {A} (r : res A) st : lift r st = (st, r).
Proof. reflexivity. Qed.

#[export] Hint Resolve get_node_dangling guard_dangling : conf.
#[export] Hint Resolve run_ret run_raise run_stuck run_lift : conf.
(* ------------------------------------------------------------------ *)
(** ** Reading *)

Lemma get_value_store n key st st' r :
  get_value n key st = (st', r) -> st' = st.
Proof.
  unfold get_value. intros H.
  bind_cases H; try (apply lift_inv in Hm as [-> _]; reflexivity).
  apply lift_inv in Hm as [-> _].
  bind_cases H; try (apply get_node_inv in Hm as [-> _]; reflexivity).
  apply get_node_inv in Hm as [-> _].
  destruct (meta_get a0 a); [now inversion H|].
  destruct (get_modifier a0); now inversion H.
Qed.

(* ------------------------------------------------------------------ *)
(** ** [setdefault] *)

Lemma setdefault_store n key default st st' r :
  setdefault n key default st = (st', r) -> st' = st.
Proof.
  unfold setdefault. intros H.
  bind_cases H; try (apply guard_inv in Hm as [-> _]; reflexivity).
  apply guard_inv in Hm as [-> _].
  bind_cases H; try (apply get_value_store in Hm as ->; reflexivity).
  apply get_value_store in Hm as ->.
  destruct a0; [now inversion H|].
  bind_cases H; try (apply guard_inv in Hm as [-> _]; reflexivity).
  apply guard_inv in Hm as [-> _].
  bind_cases H; now inversion Hm.
Qed.

(** C10.  When [get_value] does not resolve the key, [setdefault] raises and
    the store stays as it was: on a node that is not frozen the error is the
    [TypeError] of calling [set_value] with one argument.  Nothing is ever
    stored; a value comes back only when [get_value] resolves the key, and
    it is the resolved value. *)
Theorem setdefault_never_stores n key default st nd :
  nth_error st n = Some nd ->
  (get_value n key st = (st, Val None) ->
   exists e, setdefault n key default st = (st, Exn e))
  /\ (frozen nd = false ->
      get_value n key st = (st, Val None) ->
      setdefault n key default st =
        (st, Exn (TypeError
           "set_value() missing 1 required positional argument: 'value'")))
  /\ (forall e, get_value n key st = (st, Exn e) ->
      exists e', setdefault n key default st = (st, Exn e'))
  /\ (forall st' v, setdefault n key default st = (st', Val v) ->
      st' = st /\ get_value n key st = (st, Val (Some v)))
  /\ (forall v, frozen nd = false ->
      get_value n key st = (st, Val (Some v)) ->
      setdefault n key default st = (st, Val v))
  /\ (forall st' r, setdefault n key default st = (st', r) -> st' = st).
Proof.
  intros Hn.
  assert (Hunfrozen : frozen nd = false ->
            get_value n key st = (st, Val None) ->
            setdefault n key default st =
              (st, Exn (TypeError
                 "set_value() missing 1 required positional argument: 'value'"))).
  { intros Hf Hg. unfold setdefault. mval. mval. mval. now mexn. }
  assert (Hraises : forall r, get_value n key st = (st, r) ->
            (forall v, r <> Val (Some v)) -> (forall w, r <> Stuck w) ->
            exists e, setdefault n key default st = (st, Exn e)).
  { intros r Hg Hv Hw. destruct (frozen nd) eqn:Hf.
    - eexists. unfold setdefault. mexn. reflexivity.
    - destruct r as [[v|]|e|w].
      + now elim (Hv v).
      + eexists. now apply Hunfrozen.
      + eexists. unfold setdefault. mval. mexn. reflexivity.
      + now elim (Hw w). }
  split. { intros Hg. apply (Hraises _ Hg); discriminate. }
  split. { exact Hunfrozen. }
  split. { intros e Hg. apply (Hraises _ Hg); discriminate. }
  split.
  { intros st' v H. pose proof (setdefault_store _ _ _ _ _ _ H) as ->.
    split; [reflexivity|].
    unfold setdefault in H. bind_cases H; try discriminate.
    apply guard_inv in Hm as [_ _].
    bind_cases H; try discriminate.
    pose proof (get_value_store _ _ _ _ _ Hm) as ->.
    destruct a0 as [v0|].
    + inversion H; subst. exact Hm.
    + bind_cases H; discriminate. }
  split.
  { intros v Hf Hg. unfold setdefault. mval. mval. reflexivity. }
  intros st' r. apply setdefault_store.
Qed.

Lemma setdefault_never_stores_witness :
  nth_error init_store 0 = Some empty_root /\
  setdefault 0 (KStr "a") (PInt 1) init_store =
    (init_store,
     Exn (TypeError "set_value() missing 1 required positional argument: 'value'")).
Proof.
  split; [reflexivity|].
  apply (proj1 (proj2 (setdefault_never_stores
                         0 (KStr "a") (PInt 1) init_store empty_root eq_refl)));
    reflexivity.
Defined.

(* ------------------------------------------------------------------ *)
(** ** The key normaliser *)

Lemma str_map_map f g s : str_map f (str_map g s) = str_map (fun c => f (g c)) s.
Proof. induction s as [|c s IH]; cbn; [reflexivity|now rewrite IH]. Qed.

Lemma str_map_ext f g s :
  (forall c, f c = g c) -> str_map f s = str_map g s.
Proof. intros E. induction s as [|c s IH]; cbn; [reflexivity|now rewrite E, IH]. Qed.

Lemma normalize_map s : normalize s = str_map normalize_char s.
Proof.
  unfold normalize, str_replace, str_lower. rewrite !str_map_map.
  apply str_map_ext. reflexivity.
Qed.

Lemma ascii_all (P : ascii -> Prop) :
  (forall b0 b1 b2 b3 b4 b5 b6 b7, P (Ascii b0 b1 b2 b3 b4 b5 b6 b7)) ->
  forall c, P c.
Proof. intros H [b0 b1 b2 b3 b4 b5 b6 b7]. apply H. Qed.

Lemma normalize_char_normal c : is_normal_char (normalize_char c) = true.
Proof.
  revert c. apply ascii_all.
  intros [|] [|] [|] [|] [|] [|] [|] [|]; vm_compute; reflexivity.
Qed.

Lemma normalize_char_fix c : is_normal_char c = true -> normalize_char c = c.
Proof.
  assert (H : negb (is_normal_char c) || Ascii.eqb (normalize_char c) c = true).
  { revert c. apply ascii_all.
    intros [|] [|] [|] [|] [|] [|] [|] [|]; vm_compute; reflexivity. }
  intros Hn. rewrite Hn in H. cbn in H. now apply Ascii.eqb_eq.
Qed.

Lemma normalize_normal s : str_forallb is_normal_char (normalize s) = true.
Proof.
  rewrite normalize_map. induction s as [|c s IH]; cbn; [reflexivity|].
  now rewrite normalize_char_normal, IH.
Qed.

Lemma normalize_fix s : str_forallb is_normal_char s = true -> normalize s = s.
Proof.
  rewrite normalize_map. induction s as [|c s IH]; cbn; [reflexivity|].
  intros H. apply andb_true_iff in H as [Hc Hs].
  now rewrite normalize_char_fix, IH.
Qed.

Lemma key_transform_eq key :
  key_transform key =
    match normalize (key_text key) with
    | EmptyString => Exn (IndexError "string index out of range")
    | String c r =>
        if Chars.is_digit c
        then Exn (KeyError
                    "Key must be a valid python name (cannot start with a digit)")
        else Val (String c r)
    end.
Proof.
  unfold key_transform. cbv zeta.
  change (str_replace "." "_"
            (str_replace " " "_" (str_replace "-" "_"
               (str_lower match key with
                          | KInt z => ("list" ++ str_of_int z)%string
                          | KStr s => s
                          end))))
    with (normalize (key_text key)).
  destruct (normalize (key_text key)); reflexivity.
Qed.

Lemma key_transform_val key k :
  key_transform key = Val k ->
  k = normalize (key_text key) /\ is_normal_key k = true.
Proof.
  rewrite key_transform_eq. unfold is_normal_key.
  pose proof (normalize_normal (key_text key)) as Hn.
  destruct (normalize (key_text key)) as [|c r]; [discriminate|].
  destruct (Chars.is_digit c) eqn:Hd; [discriminate|].
  intros H; inversion H; subst. split; [reflexivity|].
  unfold starts_with_digit. now rewrite Hd, Hn.
Qed.

Lemma key_transform_normal_key k :
  is_normal_key k = true -> key_transform (KStr k) = Val k.
Proof.
  unfold is_normal_key, starts_with_digit. rewrite key_transform_eq. cbn [key_text].
  intros H. apply andb_true_iff in H as [H1 H2].
  apply andb_true_iff in H1 as [H0 H1].
  rewrite (normalize_fix _ H2).
  destruct k as [|c r]; [discriminate|].
  destruct (Chars.is_digit c); [discriminate|reflexivity].
Qed.

Lemma key_transform_idem key k :
  key_transform key = Val k -> key_transform (KStr k) = Val k.
Proof. intros H. apply key_transform_normal_key. now apply key_transform_val in H. Qed.

(* ------------------------------------------------------------------ *)
(** ** Closed forms of the writing operations *)

Lemma list_set_twice {A} (l : list A) i x y :
  list_set (list_set l i x) i y = list_set l i y.
Proof.
  revert i. induction l as [|z l IH]; intros [|i]; cbn; try reflexivity.
  now rewrite IH.
Qed.

Lemma nth_error_snoc_old {A} (l : list A) x n a :
  nth_error l n = Some a -> nth_error (l ++ [x]) n = Some a.
Proof.
  intros H. rewrite nth_error_app1; [exact H|].
  apply nth_error_Some. congruence.
Qed.

Lemma nth_error_set_same {A} (l : list A) n a x :
  nth_error l n = Some a -> nth_error (list_set l n x) n = Some x.
Proof. intros H. now rewrite nth_error_list_set, Nat.eqb_refl, H. Qed.

Lemma nth_error_set_other {A} (l : list A) n m x :
  n <> m -> nth_error (list_set l n x) m = nth_error l m.
Proof.
  intros H. rewrite nth_error_list_set.
  now destruct (Nat.eqb_spec n m).
Qed.

Lemma update_data_eq n k v st nd :
  nth_error st n = Some nd ->
  update_data n k v st =
    if frozen nd then (st, Exn (ImmutableConfiguration "__update_data__"))
    else (list_set st n (bind_key nd k v), Val tt).
Proof.
  intros Hn. unfold update_data. destruct (frozen nd) eqn:Hf.
  - now mexn.
  - mval. mval. reflexivity.
Qed.

Lemma contains_eq n key st nd :
  nth_error st n = Some nd ->
  contains n key st =
    match key_transform key with
    | Val k => (st, Val (dict_has (data nd) k))
    | Exn e => (st, Exn e)
    | Stuck w => (st, Stuck w)
    end.
Proof.
  intros Hn. unfold contains. destruct (key_transform key) eqn:Hk.
  - mval. mval. reflexivity.
  - now mexn.
  - now mstuck.
Qed.

Lemma init_conf_eq own path k m st ond :
  nth_error st own = Some ond ->
  init_conf own path k m st =
    (st ++ [mkNode [] [] [] (Some own) (root ond) path m (Some k) false],
     Val (List.length st)).
Proof. intros Hn. unfold init_conf. mval. reflexivity. Qed.

Lemma add_section_eq n key ty st nd :
  nth_error st n = Some nd ->
  add_section n key ty st =
    if frozen nd then (st, Exn (ImmutableConfiguration "add_section"))
    else
      match key_transform key with
      | Exn e => (st, Exn e)
      | Stuck w => (st, Stuck w)
      | Val k =>
          if meta_has nd k then
            (st, Exn (KeyError ("Cannot use meta-data field: " ++ k)))
          else if has_section nd k then
            (st, Exn (KeyError (k ++ " section already exists")))
          else if dict_has (data nd) k then
            (st, Exn (KeyError (k ++ " is used to store value")))
          else
            (list_set (st ++ [child_node n nd k ty]) n
                      (with_section (bind_key nd k (PConf (List.length st))) k),
             Val (List.length st))
      end.
Proof.
  intros Hn. unfold add_section. destruct (frozen nd) eqn:Hf; [now mexn|].
  mval. destruct (key_transform key) as [k|e|w] eqn:Hk; [|now mexn|now mstuck].
  mval. mval.
  destruct (meta_has nd k); [reflexivity|].
  destruct (has_section nd k); [reflexivity|].
  erewrite bind_val
    by (rewrite (contains_eq _ _ _ _ Hn), (key_transform_idem _ _ Hk); reflexivity).
  cbv beta iota.
  destruct (dict_has (data nd) k); [reflexivity|].
  erewrite bind_val by (apply init_conf_eq; exact Hn).
  fold (child_node n nd k ty).
  pose proof (nth_error_snoc_old _ (child_node n nd k ty) _ _ Hn) as Hn1.
  erewrite bind_val
    by (rewrite (update_data_eq _ _ _ _ _ Hn1), Hf; reflexivity).
  pose proof (nth_error_set_same _ _ _ (bind_key nd k (PConf (List.length st))) Hn1) as Hn2.
  mval.
  unfold put_node at 1. unfold bind, ret. now rewrite list_set_twice.
Qed.

Section PyvalInduction.

Variable P : pyval -> Prop.
Hypothesis HNone : P PNone.
Hypothesis HInt : forall z, P (PInt z).
Hypothesis HStr : forall s, P (PStr s).
Hypothesis HList : forall l, Forall P l -> P (PList l).
Hypothesis HTuple : forall l, Forall P l -> P (PTuple l).
Hypothesis HDict : forall d, Forall (fun kv => P (snd kv)) d -> P (PDict d).
Hypothesis HConf : forall n, P (PConf n).
Hypothesis HScalar : forall t, P (PScalar t).

Fixpoint pyval_nested_ind (v : pyval) : P v :=
  match v with
  | PNone => HNone
  | PInt z => HInt z
  | PStr s => HStr s
  | PList l =>
      HList l ((fix go (l : list pyval) : Forall P l :=
                  match l with
                  | [] => Forall_nil _
                  | x :: r => Forall_cons x (pyval_nested_ind x) (go r)
                  end) l)
  | PTuple l =>
      HTuple l ((fix go (l : list pyval) : Forall P l :=
                   match l with
                   | [] => Forall_nil _
                   | x :: r => Forall_cons x (pyval_nested_ind x) (go r)
                   end) l)
  | PDict d =>
      HDict d ((fix go (d : list (pykey * pyval))
                : Forall (fun kv => P (snd kv)) d :=
                  match d with
                  | [] => Forall_nil _
                  | x :: r => Forall_cons x (pyval_nested_ind (snd x)) (go r)
                  end) d)
  | PConf n => HConf n
  | PScalar t => HScalar t
  end.

End PyvalInduction.

Lemma set_value_eq value n key st nd :
  nth_error st n = Some nd ->
  set_value value n key st =
    if frozen nd then (st, Exn (ImmutableConfiguration "set_value"))
    else
      match key_transform key with
      | Exn e => (st, Exn e)
      | Stuck w => (st, Stuck w)
      | Val k =>
          match get_modifier nd with
          | Some _ => (st, Stuck Plugin)
          | None =>
              if meta_has nd k then
                (st, Exn (KeyError ("Cannot set meta-data field: " ++ k)))
              else if dict_has (data nd) k then
                (st, Exn (KeyError
                            ("Cannot update existing data field or section: " ++ k)))
              else
                match value with
                | PDict d =>
                    (sec <- add_section n (KStr k) None;; set_items sec d) st
                | PList l | PTuple l =>
                    (sec <- add_section n (KStr k) None;; set_elems sec 0 l) st
                | _ => update_data n k value st
                end
          end
      end.
Proof.
  intros Hn.
  assert (Hitems : forall sec d,
            (fix items (d : list (pykey * pyval)) : M unit :=
               match d with
               | [] => ret tt
               | (k', v') :: r => set_value v' sec k';;; items r
               end) d = set_items sec d).
  { intros sec. induction d as [|[k' v'] r IH]; [reflexivity|].
    cbn [set_items]. now rewrite <- IH. }
  assert (Helems : forall sec l i,
            (fix elems (i : Z) (l : list pyval) : M unit :=
               match l with
               | [] => ret tt
               | v' :: r => set_value v' sec (KInt i);;; elems (i + 1)%Z r
               end) i l = set_elems sec i l).
  { intros sec. induction l as [|v' r IH]; intros i; [reflexivity|].
    cbn [set_elems]. now rewrite <- IH. }
  destruct value; cbn [set_value];
    (destruct (frozen nd) eqn:Hf; [now mexn|]; mval;
     destruct (key_transform key) as [k|e|w] eqn:Hk; [|now mexn|now mstuck];
     mval; mval;
     destruct (get_modifier nd); [reflexivity|];
     destruct (meta_has nd k); [reflexivity|];
     destruct (dict_has (data nd) k); [reflexivity|]);
    try reflexivity.
  all: destruct (add_section n (KStr k) None st) as [st1 [sec|e|w]] eqn:Ha;
    [ rewrite !(bind_val _ _ _ _ _ Ha)
    | now rewrite !(bind_exn _ _ _ _ _ Ha)
    | now rewrite !(bind_stuck _ _ _ _ _ Ha) ].
  - now rewrite Helems.
  - now rewrite Helems.
  - now rewrite Hitems.
Qed.

(* ------------------------------------------------------------------ *)
(** ** What [set_value] touches *)

Lemma dict_has_set d k v : dict_has (dict_set d k v) k = true.
Proof.
  unfold dict_has. induction d as [|[k' v'] d IH]; cbn.
  - now rewrite String.eqb_refl.
  - destruct (String.eqb k' k) eqn:E; cbn; rewrite E; [reflexivity|exact IH].
Qed.

Lemma dict_get_set_new d k v :
  dict_has d k = false -> dict_get (dict_set d k v) k = Some v.
Proof.
  unfold dict_has. induction d as [|[k' v'] d IH]; cbn.
  - now rewrite String.eqb_refl.
  - destruct (String.eqb k' k) eqn:E; [discriminate|]. cbn. rewrite E. exact IH.
Qed.

Lemma dict_set_new d k v :
  dict_has d k = false -> dict_set d k v = d ++ [(k, v)].
Proof.
  unfold dict_has. induction d as [|[k' v'] d IH]; cbn; [reflexivity|].
  destruct (String.eqb k' k) eqn:E; [discriminate|]. intros H. now rewrite IH.
Qed.

Lemma meta_has_indep nd nd' k : meta_has nd k = meta_has nd' k.
Proof.
  unfold meta_has, meta_get.
  destruct (String.eqb k "owner"); [reflexivity|].
  destruct (String.eqb k "back"); [reflexivity|].
  destruct (String.eqb k "root"); [reflexivity|].
  destruct (String.eqb k "sub_path"); [reflexivity|].
  destruct (String.eqb k "modifier"); [reflexivity|].
  destruct (String.eqb k "key"); reflexivity.
Qed.

Lemma set_value_dangling value n key st :
  nth_error st n = None -> set_value value n key st = (st, Stuck Dangling).
Proof. intros Hn. destruct value; cbn [set_value]; now mstuck. Qed.

Lemma frame_refl m st : frame m st st.
Proof. split; [lia|reflexivity]. Qed.

Lemma frame_set m st nd : frame m st (list_set st m nd).
Proof.
  split; [rewrite length_list_set; lia|].
  intros i Hi _. now apply nth_error_set_other.
Qed.

(** A change of the fresh node [List.length st] and of later ones, after a
    change of [m] that added this node. *)
Lemma frame_child m st st1 st' :
  frame m st st1 -> List.length st < List.length st1 ->
  frame (List.length st) st1 st' -> frame m st st'.
Proof.
  intros [Hl1 H1] Hlt [Hl2 H2]. split; [lia|].
  intros i Hi Hlen. rewrite H2 by lia. now apply H1.
Qed.

Lemma frame_trans m st st1 st' :
  frame m st st1 -> frame m st1 st' -> frame m st st'.
Proof.
  intros [Hl1 H1] [Hl2 H2]. split; [lia|].
  intros i Hi Hlen. rewrite H2 by lia. now apply H1.
Qed.

Lemma add_section_frame n key ty st st' r :
  add_section n key ty st = (st', r) -> frame n st st'.
Proof.
  destruct (nth_error st n) as [nd|] eqn:Hn.
  - rewrite (add_section_eq _ _ _ _ _ Hn).
    repeat match goal with
           | |- context [if ?b then _ else _] => destruct b
           | |- context [match key_transform ?k with _ => _ end] =>
               destruct (key_transform k)
           end;
      intros H; inversion H; subst; try apply frame_refl.
    split.
    + rewrite length_list_set, length_app. lia.
    + intros i Hi Hlen. rewrite nth_error_set_other by lia.
      now rewrite nth_error_app1.
  - unfold add_section. mstuck. intros H; inversion H. apply frame_refl.
Qed.

Lemma add_section_fresh n key ty st st' c :
  add_section n key ty st = (st', Val c) ->
  c = List.length st /\ List.length st' = S (List.length st).
Proof.
  destruct (nth_error st n) as [nd|] eqn:Hn.
  - rewrite (add_section_eq _ _ _ _ _ Hn).
    repeat match goal with
           | |- context [if ?b then _ else _] => destruct b
           | |- context [match key_transform ?k with _ => _ end] =>
               destruct (key_transform k)
           end;
      intros H; inversion H; subst.
    split; [reflexivity|]. rewrite length_list_set, length_app. cbn. lia.
  - unfold add_section. mstuck. discriminate.
Qed.

Lemma set_value_frame value :
  forall m key st st' r, set_value value m key st = (st', r) -> frame m st st'.
Proof.
  induction value using pyval_nested_ind; intros m key st st' r;
    (destruct (nth_error st m) as [nd|] eqn:Hn;
     [ rewrite (set_value_eq _ _ _ _ _ Hn)
     | rewrite (set_value_dangling _ _ _ _ Hn);
       intros E; inversion E; apply frame_refl ]);
    (destruct (frozen nd); [intros E; inversion E; apply frame_refl|]);
    (destruct (key_transform key) as [k|e|w];
     [|intros E; inversion E; apply frame_refl
      |intros E; inversion E; apply frame_refl]);
    (destruct (get_modifier nd); [intros E; inversion E; apply frame_refl|]);
    (destruct (meta_has nd k); [intros E; inversion E; apply frame_refl|]);
    (destruct (dict_has (data nd) k); [intros E; inversion E; apply frame_refl|]);
    try (rewrite (update_data_eq _ _ _ _ _ Hn);
         destruct (frozen nd); intros E; inversion E;
         [apply frame_refl|apply frame_set]).
  - (* list *)
    intros E. bind_cases E;
      try (subst; eapply add_section_frame; eassumption).
    pose proof (add_section_frame _ _ _ _ _ _ Hm) as Hf.
    apply add_section_fresh in Hm as [-> Hlen].
    eapply frame_child; [exact Hf|lia|].
    clear Hf Hlen Hn. revert E. generalize 0%Z. revert st0.
    induction H as [|v l Hv Hl IH]; intros st0 z E; cbn [set_elems] in E.
    + inversion E. apply frame_refl.
    + bind_cases E; try (subst; eapply Hv; eassumption).
      eapply frame_trans; [eapply Hv; eassumption|]. eapply IH; eassumption.
  - (* tuple *)
    intros E. bind_cases E;
      try (subst; eapply add_section_frame; eassumption).
    pose proof (add_section_frame _ _ _ _ _ _ Hm) as Hf.
    apply add_section_fresh in Hm as [-> Hlen].
    eapply frame_child; [exact Hf|lia|].
    clear Hf Hlen Hn. revert E. generalize 0%Z. revert st0.
    induction H as [|v l Hv Hl IH]; intros st0 z E; cbn [set_elems] in E.
    + inversion E. apply frame_refl.
    + bind_cases E; try (subst; eapply Hv; eassumption).
      eapply frame_trans; [eapply Hv; eassumption|]. eapply IH; eassumption.
  - (* dict *)
    intros E. bind_cases E;
      try (subst; eapply add_section_frame; eassumption).
    pose proof (add_section_frame _ _ _ _ _ _ Hm) as Hf.
    apply add_section_fresh in Hm as [-> Hlen].
    eapply frame_child; [exact Hf|lia|].
    clear Hf Hlen Hn. revert st0 E.
    induction H as [|[k' v] l Hv Hl IH]; intros st0 E; cbn [set_items] in E.
    + inversion E. apply frame_refl.
    + bind_cases E; try (subst; eapply Hv; eassumption).
      eapply frame_trans; [eapply Hv; eassumption|]. eapply IH; eassumption.
Qed.

Lemma set_items_frame sec d :
  forall st st' r, set_items sec d st = (st', r) -> frame sec st st'.
Proof.
  induction d as [|[k' v] d IH]; intros st st' r E; cbn [set_items] in E.
  - inversion E. apply frame_refl.
  - bind_cases E; try (subst; eapply set_value_frame; eassumption).
    eapply frame_trans; [eapply set_value_frame; eassumption|].
    eapply IH; eassumption.
Qed.

Lemma set_elems_frame sec l :
  forall i st st' r, set_elems sec i l st = (st', r) -> frame sec st st'.
Proof.
  induction l as [|v l IH]; intros i st st' r E; cbn [set_elems] in E.
  - inversion E. apply frame_refl.
  - bind_cases E; try (subst; eapply set_value_frame; eassumption).
    eapply frame_trans; [eapply set_value_frame; eassumption|].
    eapply IH; eassumption.
Qed.

(** A successful [set_value] binds the normalised key, last in [data], to
    the value or to the section made for it. *)
Lemma set_value_success value n key k st st' :
  key_transform key = Val k ->
  set_value value n key st = (st', Val tt) ->
  exists nd nd',
    nth_error st n = Some nd /\ nth_error st' n = Some nd' /\
    frozen nd = false /\ get_modifier nd = None /\
    meta_has nd k = false /\ dict_has (data nd) k = false /\
    frozen nd' = false /\ modifier nd' = modifier nd /\
    data nd' = data nd ++ [(k, stored_value value st)].
Proof.
  intros Hk E. destruct (nth_error st n) as [nd|] eqn:Hn;
    [|rewrite (set_value_dangling _ _ _ _ Hn) in E; discriminate].
  rewrite (set_value_eq _ _ _ _ _ Hn), Hk in E.
  destruct (frozen nd) eqn:Hf; [discriminate|].
  destruct (get_modifier nd) eqn:Hmod; [discriminate|].
  destruct (meta_has nd k) eqn:Hmeta; [discriminate|].
  destruct (dict_has (data nd) k) eqn:Hd; [discriminate|].
  assert (Hscalar : is_container value = false ->
            update_data n k value st = (st', Val tt) ->
            exists nd0 nd',
              Some nd = Some nd0 /\ nth_error st' n = Some nd' /\
              frozen nd0 = false /\ get_modifier nd0 = None /\
              meta_has nd0 k = false /\ dict_has (data nd0) k = false /\
              frozen nd' = false /\ modifier nd' = modifier nd0 /\
              data nd' = data nd0 ++ [(k, stored_value value st)]).
  { intros Hc Eu. rewrite (update_data_eq _ _ _ _ _ Hn), Hf in Eu.
    inversion Eu; subst. exists nd, (bind_key nd k value).
    rewrite (nth_error_set_same _ _ _ _ Hn). unfold stored_value. rewrite Hc. cbn.
    rewrite (dict_set_new _ _ _ Hd). now repeat split. }
  assert (Hsection : forall (loop : node_id -> M unit),
            (forall sec st1 st2 r, loop sec st1 = (st2, r) -> frame sec st1 st2) ->
            is_container value = true ->
            (sec <- add_section n (KStr k) None;; loop sec) st = (st', Val tt) ->
            exists nd0 nd',
              Some nd = Some nd0 /\ nth_error st' n = Some nd' /\
              frozen nd0 = false /\ get_modifier nd0 = None /\
              meta_has nd0 k = false /\ dict_has (data nd0) k = false /\
              frozen nd' = false /\ modifier nd' = modifier nd0 /\
              data nd' = data nd0 ++ [(k, stored_value value st)]).
  { intros loop Hloop Hc Eb. bind_cases Eb; try discriminate.
    rewrite (add_section_eq _ _ _ _ _ Hn), Hf, (key_transform_idem _ _ Hk),
      Hmeta, Hd in Hm.
    destruct (has_section nd k); [discriminate|]. inversion Hm; subst. clear Hm.
    apply Hloop in Eb as [_ Hsame].
    exists nd, (with_section (bind_key nd k (PConf (List.length st))) k).
    assert (Hlt : n < List.length st) by (apply nth_error_Some; congruence).
    rewrite Hsame;
      [|lia|rewrite length_list_set, length_app; cbn; lia].
    rewrite (nth_error_set_same _ _ _ _ (nth_error_snoc_old _ _ _ _ Hn)).
    unfold stored_value. rewrite Hc. cbn.
    rewrite (dict_set_new _ _ _ Hd). now repeat split. }
  destruct value; try (apply Hscalar; [reflexivity|exact E]).
  - apply (Hsection (fun sec => set_elems sec 0 l)); [|reflexivity|exact E].
    intros sec st1 st2 r. apply set_elems_frame.
  - apply (Hsection (fun sec => set_elems sec 0 l)); [|reflexivity|exact E].
    intros sec st1 st2 r. apply set_elems_frame.
  - apply (Hsection (fun sec => set_items sec d)); [|reflexivity|exact E].
    intros sec st1 st2 r. apply set_items_frame.
Qed.

(* ------------------------------------------------------------------ *)
(** ** Keys that collide after normalisation *)

(** C7.  Two different keys with the same normal form: once the first is
    set, setting the second raises the [KeyError] for a key that is already
    bound, and the store, with the first binding, stays as it is. *)
Theorem key_collision_after_normalisation n key1 key2 k v1 v2 st st1 :
  key1 <> key2 ->
  key_transform key1 = Val k ->
  key_transform key2 = Val k ->
  set_value v1 n key1 st = (st1, Val tt) ->
  set_value v2 n key2 st1 =
    (st1, Exn (KeyError ("Cannot update existing data field or section: " ++ k)))
  /\ exists nd1, nth_error st1 n = Some nd1 /\
                 dict_get (data nd1) k = Some (stored_value v1 st).
Proof.
  intros _ Hk1 Hk2 E.
  destruct (set_value_success _ _ _ _ _ _ Hk1 E)
    as (nd & nd1 & Hn & Hn1 & Hf & Hmod & Hmeta & Hd & Hf1 & Hmod1 & Hdata1).
  assert (Hget : dict_get (data nd1) k = Some (stored_value v1 st)).
  { rewrite Hdata1, <- (dict_set_new _ _ _ Hd). now apply dict_get_set_new. }
  split; [|now exists nd1].
  rewrite (set_value_eq _ _ _ _ _ Hn1), Hf1, Hk2.
  unfold get_modifier, get_modifier_name in *. rewrite Hmod1, Hmod.
  rewrite (meta_has_indep nd1 nd), Hmeta.
  unfold dict_has. now rewrite Hget.
Qed.

Lemma key_collision_after_normalisation_witness :
  set_value (PInt 2) 0 (KStr "My-Key") (list_set init_store 0
     (bind_key empty_root "my_key" (PInt 1))) =
    (list_set init_store 0 (bind_key empty_root "my_key" (PInt 1)),
     Exn (KeyError "Cannot update existing data field or section: my_key")).
Proof.
  apply (key_collision_after_normalisation
           0 (KStr "my key") (KStr "My-Key") "my_key" (PInt 1) (PInt 2)
           init_store _);
    [discriminate|reflexivity|reflexivity|reflexivity].
Defined.

(* ------------------------------------------------------------------ *)
(** ** Failed writes *)


(* ------------------------------------------------------------------ *)
(** ** [clear] and [set_modifier] against the section set *)

Lemma set_modifier_eq n name st nd :
  nth_error st n = Some nd ->
  set_modifier n name st =
    if frozen nd then (st, Exn (ImmutableConfiguration "set_modifier"))
    else (list_set st n (with_modifier (with_data nd []) name), Val tt).
Proof.
  intros Hn. unfold set_modifier. destruct (frozen nd) eqn:Hf; [now mexn|].
  mval. mval. reflexivity.
Qed.

Lemma clear_eq n st nd :
  nth_error st n = Some nd ->
  clear n st =
    if frozen nd then (st, Exn (ImmutableConfiguration "clear"))
    else (list_set st n (with_modifier (with_data nd []) None), Val tt).
Proof.
  intros Hn. unfold clear. destruct (frozen nd) eqn:Hf; [now mexn|].
  mval. mval.
  pose proof (nth_error_set_same _ _ _ (with_data nd []) Hn) as Hn1.
  unfold put_node at 1. unfold bind at 1.
  rewrite (set_modifier_eq _ _ _ _ Hn1). cbn [frozen with_data]. rewrite Hf.
  now rewrite list_set_twice.
Qed.

(** C6.  [clear] and [set_modifier] empty [__data__] and leave
    [__sections__] as it is: on a node that has a section, the section set
    is afterwards no subset of the keys of the empty [data].  On the root
    with one section [s] this is the store after [add_section("s")] and
    [clear()], where [s] is still listed as a section, is bound to nothing,
    and both reading it and adding it again raise [KeyError]. *)
Theorem sections_survive_clear n st nd s :
  nth_error st n = Some nd -> frozen nd = false -> In s (sections nd) ->
  (exists nd', clear n st = (list_set st n nd', Val tt) /\
               data nd' = [] /\ sections nd' = sections nd /\
               sections_subset nd' = false)
  /\ (forall name,
      exists nd', set_modifier n name st = (list_set st n nd', Val tt) /\
                  data nd' = [] /\ sections nd' = sections nd /\
                  sections_subset nd' = false)
  /\ (let st' := fst ((add_section 0 (KStr "s") None;;; clear 0) init_store) in
      option_map sections (nth_error st' 0) = Some ["s"]
      /\ option_map data (nth_error st' 0) = Some []
      /\ snd (get_section 0 (KStr "s") st') = Exn (KeyError "s")
      /\ snd (add_section 0 (KStr "s") None st') =
           Exn (KeyError "s section already exists")).
Proof.
  intros Hn Hf Hs.
  assert (Hsub : forall nd', data nd' = [] -> sections nd' = sections nd ->
                             sections_subset nd' = false).
  { intros nd' Hd Hsec. unfold sections_subset. rewrite Hd, Hsec.
    destruct (sections nd); [elim Hs|reflexivity]. }
  split; [|split].
  - eexists. rewrite (clear_eq _ _ _ Hn), Hf. split; [reflexivity|].
    split; [reflexivity|]. split; [reflexivity|]. now apply Hsub.
  - intros name. eexists. rewrite (set_modifier_eq _ _ _ _ Hn), Hf.
    split; [reflexivity|]. split; [reflexivity|]. split; [reflexivity|].
    now apply Hsub.
  - vm_compute. repeat split.
Qed.

Lemma sections_survive_clear_witness :
  exists nd', clear 0 (fst (add_section 0 (KStr "s") None init_store)) =
                (list_set (fst (add_section 0 (KStr "s") None init_store)) 0 nd',
                 Val tt) /\
              data nd' = [] /\ sections nd' = ["s"] /\
              sections_subset nd' = false.
Proof.
  apply (sections_survive_clear
           0 (fst (add_section 0 (KStr "s") None init_store)) _ "s" eq_refl eq_refl).
  left. reflexivity.
Defined.

(* ------------------------------------------------------------------ *)
(** ** Iteration *)

(** C8.  [__iter__] calls the generator function [iter_as_list] inside its
    [try]: the call returns the generator without running its body, so the
    [except] branch with the iterator over the raw keys is never taken.
    When a key of a non-empty node does not start with ["list"], the
    assertion of the body fails once the iteration starts, and iterating
    the node raises [AssertionError] where the raw keys were to come. *)
Theorem iteration_never_falls_back fuel n st nd :
  nth_error st n = Some nd ->
  data nd <> [] ->
  forallb (String.prefix "list") (dict_keys (data nd)) = false ->
  iter n st = (st, Val (AsListGenerator n))
  /\ iterate fuel n st = (st, Exn AssertionError).
Proof.
  intros Hn Hne Hkeys. split; [reflexivity|].
  unfold iterate, iter, iter_as_list, try_except. cbn.
  unfold iter_as_list_body. mval.
  destruct (data nd) as [|kv d] eqn:Hd; [congruence|].
  cbn [dict_keys map List.length Nat.eqb].
  unfold dict_keys in Hkeys. cbn [map] in Hkeys. now rewrite Hkeys.
Qed.

Lemma iteration_never_falls_back_witness :
  iterate 3 0 (list_set init_store 0 (bind_key empty_root "a" (PInt 1))) =
    (list_set init_store 0 (bind_key empty_root "a" (PInt 1)), Exn AssertionError).
Proof.
  apply (iteration_never_falls_back 3 0 _ (bind_key empty_root "a" (PInt 1)));
    [reflexivity|discriminate|reflexivity].
Defined.

(* ------------------------------------------------------------------ *)
(** ** Frozen nodes *)

Lemma dict_del_length d k :
  dict_has d k = true -> S (List.length (dict_del d k)) = List.length d.
Proof.
  unfold dict_has. induction d as [|[k' v'] d IH]; cbn; [discriminate|].
  destruct (String.eqb k' k); [reflexivity|]. intros H. cbn. now rewrite IH.
Qed.

Lemma delitem_eq n key st nd :
  nth_error st n = Some nd ->
  delitem n key st =
    match key_transform key with
    | Val k =>
        if dict_has (data nd) k
        then (list_set st n (without_key nd k), Val tt)
        else (st, Exn (KeyError k))
    | Exn e => (st, Exn e)
    | Stuck w => (st, Stuck w)
    end.
Proof.
  intros Hn. unfold delitem, delitem_body.
  destruct (key_transform key) as [k|e|w] eqn:Hk; [|now mexn|now mstuck].
  mval. mval. now destruct (dict_has (data nd) k).
Qed.

(** C3.  On a frozen node every mutator that is reached by its name raises
    [ImmutableConfiguration] with that name, [node[key] = value] included
    (its body calls [self.set_value]).  The statement [del node[key]] does
    not go through a name of the instance: it runs [__delitem__] of the
    class, and a bound key of a frozen node is removed.  The last part
    runs this on a tree frozen from the root with
    [set_immutable(recursive=True, from_root=True)]. *)
Theorem frozen_node_still_deletes pf le n st nd key k :
  nth_error st n = Some nd -> frozen nd = true ->
  key_transform key = Val k -> dict_has (data nd) k = true ->
  (forall value key' ty text name lines fuel gfuel rec from_root default,
      set_value value n key' st = (st, Exn (ImmutableConfiguration "set_value"))
      /\ setitem n key' value st = (st, Exn (ImmutableConfiguration "set_value"))
      /\ add_section n key' ty st = (st, Exn (ImmutableConfiguration "add_section"))
      /\ add_comment n text st = (st, Exn (ImmutableConfiguration "add_comment"))
      /\ clear n st = (st, Exn (ImmutableConfiguration "clear"))
      /\ set_modifier n name st = (st, Exn (ImmutableConfiguration "set_modifier"))
      /\ load pf le n lines st = (st, Exn (ImmutableConfiguration "load"))
      /\ loads pf le n text st = (st, Exn (ImmutableConfiguration "loads"))
      /\ setdefault n key' default st =
           (st, Exn (ImmutableConfiguration "setdefault"))
      /\ set_immutable (S fuel) gfuel n rec from_root st =
           (st, Exn (ImmutableConfiguration "set_immutable"))
      /\ call_delitem n key' st = (st, Exn (ImmutableConfiguration "__delitem__")))
  /\ (delitem n key st = (list_set st n (without_key nd k), Val tt)
      /\ frozen (without_key nd k) = true
      /\ S (List.length (data (without_key nd k))) = List.length (data nd))
  /\ (let frozen_tree :=
        fst ((setitem 0 (KStr "a") (PInt 1);;;
              level1 <- add_section 0 (KStr "level1") None;;
              setitem level1 (KStr "b") (PInt 2);;;
              set_immutable 3 3 level1 true true) init_store) in
      option_map frozen (nth_error frozen_tree 0) = Some true
      /\ option_map frozen (nth_error frozen_tree 1) = Some true
      /\ snd (getitem 3 1 (KStr "b") frozen_tree) = Val (PInt 2)
      /\ snd (delitem 1 (KStr "b") frozen_tree) = Val tt
      /\ snd (get_value 1 (KStr "b") (fst (delitem 1 (KStr "b") frozen_tree)))
         = Val None).
Proof.
  intros Hn Hf Hk Hd. split; [|split].
  - intros. repeat split;
      try (destruct value; cbn [set_value setitem]; now mexn);
      try (unfold add_section, add_comment, clear, set_modifier, load, loads,
             setdefault, call_delitem; now mexn).
    cbn [set_immutable]. now mexn.
  - rewrite (delitem_eq _ _ _ _ Hn), Hk, Hd. split; [reflexivity|].
    split.
    + unfold without_key. now destruct (set_mem _ _).
    + unfold without_key. destruct (set_mem _ _); cbn; now apply dict_del_length.
  - vm_compute. repeat split.
Qed.

Lemma frozen_node_still_deletes_witness :
  delitem 0 (KStr "a")
    (list_set init_store 0 (with_frozen (bind_key empty_root "a" (PInt 1)) true))
  = (list_set
       (list_set init_store 0 (with_frozen (bind_key empty_root "a" (PInt 1)) true))
       0 (without_key (with_frozen (bind_key empty_root "a" (PInt 1)) true) "a"),
     Val tt).
Proof.
  exact (proj1 (proj1 (proj2
    (frozen_node_still_deletes
       (fun _ => None) (fun _ => None) 0
       (list_set init_store 0 (with_frozen (bind_key empty_root "a" (PInt 1)) true))
       (with_frozen (bind_key empty_root "a" (PInt 1)) true)
       (KStr "a") "a" eq_refl eq_refl eq_refl eq_refl)))).
Defined.

(* ------------------------------------------------------------------ *)
(** ** An invariant of the stores a program builds: the keys of every
       [__data__] are normal and are no metadata names *)

Lemma data_with_order nd o : data (with_order nd o) = data nd.
Proof. reflexivity. Qed.
Lemma data_with_sections nd s : data (with_sections nd s) = data nd.
Proof. reflexivity. Qed.
Lemma data_with_frozen nd f : data (with_frozen nd f) = data nd.
Proof. reflexivity. Qed.
Lemma data_with_modifier nd m : data (with_modifier nd m) = data nd.
Proof. reflexivity. Qed.

Lemma keys_ok_set d k v :
  forallb key_ok (dict_keys d) = true -> key_ok k = true ->
  forallb key_ok (dict_keys (dict_set d k v)) = true.
Proof.
  intros Hd Hk. induction d as [|[k' v'] d IH]; cbn in *.
  - now rewrite Hk.
  - apply andb_true_iff in Hd as [H1 H2].
    destruct (String.eqb k' k); cbn; rewrite H1; cbn; [exact H2|now apply IH].
Qed.

Lemma keys_ok_del d k :
  forallb key_ok (dict_keys d) = true ->
  forallb key_ok (dict_keys (dict_del d k)) = true.
Proof.
  intros Hd. induction d as [|[k' v'] d IH]; cbn in *; [reflexivity|].
  apply andb_true_iff in Hd as [H1 H2].
  destruct (String.eqb k' k); cbn; [exact H2|]. rewrite H1. now apply IH.
Qed.

Lemma node_ok_bind_key nd k v :
  node_ok nd -> key_ok k = true -> node_ok (bind_key nd k v).
Proof. unfold node_ok, data_keys_ok, bind_key. cbn. apply keys_ok_set. Qed.

Lemma node_ok_without_key nd k : node_ok nd -> node_ok (without_key nd k).
Proof.
  unfold node_ok, data_keys_ok, without_key. intros H.
  destruct (set_mem _ _); cbn; now apply keys_ok_del.
Qed.

Lemma key_ok_of_transform key k nd :
  key_transform key = Val k -> meta_has nd k = false -> key_ok k = true.
Proof.
  intros Hk Hm. unfold key_ok, is_meta_key.
  apply key_transform_val in Hk as [_ ->].
  now rewrite (meta_has_indep empty_root nd), Hm.
Qed.

Lemma store_ok_nth st n nd : store_ok st -> nth_error st n = Some nd -> node_ok nd.
Proof.
  intros H Hn. unfold store_ok in H. rewrite Forall_forall in H.
  apply H. eapply nth_error_In. eassumption.
Qed.

Lemma store_ok_set st n nd : store_ok st -> node_ok nd -> store_ok (list_set st n nd).
Proof.
  unfold store_ok. intros H Hnd. revert n.
  induction H as [|x l Hx Hl IH]; intros [|n]; cbn; constructor; auto.
Qed.

Lemma store_ok_snoc st nd : store_ok st -> node_ok nd -> store_ok (st ++ [nd]).
Proof.
  unfold store_ok. intros H Hnd. apply Forall_app. split; [exact H|].
  now constructor.
Qed.

Lemma keeps_ret {A} (a : A) : keeps (ret a).
Proof. intros st st' r H. now inversion H. Qed.

Lemma keeps_raise {A} e : keeps (@raise A e).
Proof. intros st st' r H. now inversion H. Qed.

Lemma keeps_stuck {A} w : keeps (@stuck A w).
Proof. intros st st' r H. now inversion H. Qed.

Lemma keeps_lift {A} (x : res A) : keeps (lift x).
Proof. intros st st' r H. now inversion H. Qed.

Lemma keeps_bind {A B} (m : M A) (k : A -> M B) :
  keeps m -> (forall a, keeps (k a)) -> keeps (bind m k).
Proof.
  intros Hm Hk st st' r H Hst. bind_cases H.
  - eapply Hk; [eassumption|]. eapply Hm; eassumption.
  - eapply Hm; eassumption.
  - eapply Hm; eassumption.
Qed.

Lemma keeps_get_node {A} n (k : node -> M A) :
  (forall nd, node_ok nd -> keeps (k nd)) -> keeps (bind (get_node n) k).
Proof.
  intros Hk st st' r H Hst. unfold bind, get_node in H.
  destruct (nth_error st n) as [nd|] eqn:Hn.
  - eapply Hk; [|eassumption|exact Hst]. eapply store_ok_nth; eassumption.
  - now inversion H; subst.
Qed.

Lemma keeps_key {A} key (body : string -> M A) :
  (forall k, key_transform key = Val k -> keeps (body k)) ->
  keeps (bind (lift (key_transform key)) body).
Proof.
  intros Hk st st' r H Hst. unfold bind, lift in H.
  destruct (key_transform key) as [k|e|w] eqn:E.
  - eapply Hk; eauto.
  - now inversion H; subst.
  - now inversion H; subst.
Qed.

Lemma keeps_guard n f : keeps (guard n f).
Proof. intros st st' r H Hst. apply guard_inv in H as [-> _]. exact Hst. Qed.

Lemma keeps_put_node n nd : node_ok nd -> keeps (put_node n nd).
Proof.
  intros Hnd st st' r H Hst. inversion H; subst. now apply store_ok_set.
Qed.

Lemma keeps_alloc f : (forall i, node_ok (f i)) -> keeps (alloc f).
Proof.
  intros Hf st st' r H Hst. inversion H; subst. now apply store_ok_snoc.
Qed.

Lemma keeps_try {A} (m : M A) h :
  keeps m -> (forall e, keeps (h e)) -> keeps (try_except m h).
Proof.
  intros Hm Hh st st' r H Hst. unfold try_except in H.
  destruct (m st) as [st1 [a|e|w]] eqn:E.
  - inversion H; subst. eapply Hm; eassumption.
  - eapply Hh; [eassumption|]. eapply Hm; eassumption.
  - inversion H; subst. eapply Hm; eassumption.
Qed.

Lemma keeps_update_data n k v : key_ok k = true -> keeps (update_data n k v).
Proof.
  intros Hk. unfold update_data. apply keeps_bind; [apply keeps_guard|].
  intros _. apply keeps_get_node. intros nd Hnd. apply keeps_put_node.
  now apply node_ok_bind_key.
Qed.

Lemma keeps_contains n key : keeps (contains n key).
Proof.
  unfold contains. apply keeps_bind; [apply keeps_lift|]. intros k.
  apply keeps_get_node. intros nd _. apply keeps_ret.
Qed.

Lemma keeps_init_conf own path k m : keeps (init_conf own path k m).
Proof.
  unfold init_conf. apply keeps_get_node. intros ond _. apply keeps_alloc.
  intros _. reflexivity.
Qed.

Lemma keeps_add_section n key ty : keeps (add_section n key ty).
Proof.
  unfold add_section. apply keeps_bind; [apply keeps_guard|]. intros _.
  apply keeps_key. intros k Hk. apply keeps_get_node. intros nd Hnd.
  destruct (meta_has nd k) eqn:Hmeta; [apply keeps_raise|].
  destruct (has_section nd k); [apply keeps_raise|].
  apply keeps_bind; [apply keeps_contains|]. intros [|]; [apply keeps_raise|].
  apply keeps_bind; [apply keeps_init_conf|]. intros sub.
  apply keeps_bind;
    [apply keeps_update_data; eapply key_ok_of_transform; eassumption|].
  intros _. apply keeps_get_node. intros nd' Hnd'.
  apply keeps_bind; [now apply keeps_put_node|]. intros _. apply keeps_ret.
Qed.

Lemma keeps_set_value value : forall m key, keeps (set_value value m key).
Proof.
  induction value using pyval_nested_ind; intros m key;
    (intros st st' r E Hst;
     destruct (nth_error st m) as [nd|] eqn:Hn;
     [ rewrite (set_value_eq _ _ _ _ _ Hn) in E
     | rewrite (set_value_dangling _ _ _ _ Hn) in E; now inversion E; subst ];
     destruct (frozen nd); [now inversion E; subst|];
     destruct (key_transform key) as [k|e|w] eqn:Hk;
     [|now inversion E; subst|now inversion E; subst];
     destruct (get_modifier nd); [now inversion E; subst|];
     destruct (meta_has nd k) eqn:Hmeta; [now inversion E; subst|];
     destruct (dict_has (data nd) k); [now inversion E; subst|]);
    try (revert E Hst; apply keeps_update_data;
         eapply key_ok_of_transform; eassumption).
  - revert E Hst. apply keeps_bind; [apply keeps_add_section|]. intros sec.
    generalize 0%Z. induction H as [|v l Hv Hl IH]; intros z; cbn [set_elems].
    + apply keeps_ret.
    + apply keeps_bind; [apply Hv|]. intros _. apply IH.
  - revert E Hst. apply keeps_bind; [apply keeps_add_section|]. intros sec.
    generalize 0%Z. induction H as [|v l Hv Hl IH]; intros z; cbn [set_elems].
    + apply keeps_ret.
    + apply keeps_bind; [apply Hv|]. intros _. apply IH.
  - revert E Hst. apply keeps_bind; [apply keeps_add_section|]. intros sec.
    induction H as [|[k' v] l Hv Hl IH]; cbn [set_items].
    + apply keeps_ret.
    + apply keeps_bind; [apply Hv|]. intros _. apply IH.
Qed.

Lemma getitem_eq f n key :
  getitem (S f) n key =
    (r <- get_value n key;;
     match r with
     | Some v => ret v
     | None => globals_walk (getitem f) n key f (Some n)
     end).
Proof. reflexivity. Qed.

Lemma set_immutable_eq f gfuel n recursive from_root :
  set_immutable (S f) gfuel n recursive from_root =
    (guard n "set_immutable";;;
     nd <- get_node n;;
     if from_root && negb (Nat.eqb n (root nd)) then
       set_immutable f gfuel (root nd) true false
     else
       put_node n (with_frozen nd true);;;
       if recursive
       then freeze_sections (getitem gfuel) n
                            (fun c => set_immutable f gfuel c true false)
                            (sections nd)
       else ret tt).
Proof. reflexivity. Qed.

Lemma keeps_get_value n key : keeps (get_value n key).
Proof.
  intros st st' r H Hst. now apply get_value_store in H as ->.
Qed.

Lemma keeps_add_comment n text : keeps (add_comment n text).
Proof.
  unfold add_comment. apply keeps_bind; [apply keeps_guard|]. intros _.
  apply keeps_get_node. intros nd Hnd. now apply keeps_put_node.
Qed.

Lemma keeps_delitem n key : keeps (delitem n key).
Proof.
  unfold delitem, delitem_body. apply keeps_key. intros k Hk.
  apply keeps_get_node. intros nd Hnd.
  destruct (dict_has (data nd) k); [|apply keeps_raise].
  apply keeps_put_node. now apply (node_ok_without_key nd k).
Qed.

Lemma keeps_call_delitem n key : keeps (call_delitem n key).
Proof.
  unfold call_delitem. apply keeps_bind; [apply keeps_guard|]. intros _.
  apply keeps_delitem.
Qed.

Lemma keeps_set_modifier n name : keeps (set_modifier n name).
Proof.
  unfold set_modifier. apply keeps_bind; [apply keeps_guard|]. intros _.
  apply keeps_get_node. intros nd Hnd. now apply keeps_put_node.
Qed.

Lemma keeps_clear n : keeps (clear n).
Proof.
  unfold clear. apply keeps_bind; [apply keeps_guard|]. intros _.
  apply keeps_get_node. intros nd Hnd.
  apply keeps_bind; [now apply keeps_put_node|]. intros _.
  apply keeps_set_modifier.
Qed.

Lemma keeps_get_section n key : keeps (get_section n key).
Proof.
  unfold get_section. apply keeps_key. intros k Hk.
  apply keeps_get_node. intros nd Hnd.
  destruct (set_mem (sections nd) k).
  { destruct (dict_get (data nd) k); [apply keeps_ret|apply keeps_raise]. }
  destruct (meta_has nd k); [apply keeps_raise|].
  destruct (dict_has (data nd) k); [apply keeps_raise|].
  apply keeps_bind; [apply keeps_add_section|]. intros c. apply keeps_ret.
Qed.

Lemma keeps_py_contains v key : keeps (py_contains v key).
Proof.
  destruct v; cbn [py_contains]; try apply keeps_raise.
  - destruct key; [apply keeps_ret|apply keeps_raise].
  - apply keeps_contains.
Qed.

Lemma keeps_globals_walk get n key :
  (forall c k, keeps (get c k)) ->
  forall g conf, keeps (globals_walk get n key g conf).
Proof.
  intros Hget. induction g as [|g IH]; intros [c|]; cbn [globals_walk];
    try apply keeps_get_section; [apply keeps_stuck|].
  apply keeps_get_node. intros cnd _.
  destruct (has_section cnd "globals"); [|apply IH].
  apply keeps_bind; [apply Hget|]. intros gl.
  apply keeps_bind; [apply keeps_py_contains|]. intros [|]; [|apply IH].
  apply keeps_bind; [apply Hget|]. intros gl'.
  destruct gl'; try apply keeps_raise. apply Hget.
Qed.

Lemma keeps_getitem fuel : forall n key, keeps (getitem fuel n key).
Proof.
  induction fuel as [|f IH]; intros n key; [apply keeps_stuck|].
  rewrite getitem_eq. apply keeps_bind; [apply keeps_get_value|].
  intros [v|]; [apply keeps_ret|]. now apply keeps_globals_walk.
Qed.

Lemma keeps_freeze_sections get n freeze ss :
  (forall c k, keeps (get c k)) -> (forall c, keeps (freeze c)) ->
  keeps (freeze_sections get n freeze ss).
Proof.
  intros Hget Hfreeze. induction ss as [|s ss IH]; cbn [freeze_sections];
    [apply keeps_ret|].
  apply keeps_bind; [apply Hget|]. intros v.
  apply keeps_bind; [|intros _; exact IH].
  destruct v; try apply keeps_raise. apply Hfreeze.
Qed.

Lemma keeps_set_immutable fuel gfuel :
  forall n recursive from_root,
    keeps (set_immutable fuel gfuel n recursive from_root).
Proof.
  induction fuel as [|f IH]; intros n recursive from_root; [apply keeps_stuck|].
  rewrite set_immutable_eq. apply keeps_bind; [apply keeps_guard|]. intros _.
  apply keeps_get_node. intros nd Hnd.
  destruct (from_root && negb (Nat.eqb n (root nd))); [apply IH|].
  apply keeps_bind; [now apply keeps_put_node|]. intros _.
  destruct recursive; [|apply keeps_ret].
  apply keeps_freeze_sections; [intros c k; apply keeps_getitem|intros c; apply IH].
Qed.

Lemma keeps_setdefault n key default : keeps (setdefault n key default).
Proof.
  intros st st' r H Hst. now apply setdefault_store in H as ->.
Qed.

Lemma keeps_parse_line pf le line p : keeps (parse_line pf le line p).
Proof.
  unfold parse_line. destruct (match_all_lines line) as [[indent k kind|c]|];
    [| |apply keeps_raise].
  - apply keeps_bind; [apply keeps_lift|]. intros p'. destruct kind.
    + apply keeps_bind; [apply keeps_lift|]. intros conf.
      apply keeps_bind; [apply keeps_add_section|]. intros c. apply keeps_ret.
    + apply keeps_bind; [apply keeps_lift|]. intros conf.
      apply keeps_bind; [apply keeps_set_value|]. intros _. apply keeps_ret.
  - apply keeps_bind; [apply keeps_lift|]. intros conf.
    apply keeps_bind; [apply keeps_add_comment|]. intros _. apply keeps_ret.
Qed.

Lemma keeps_parse pf le lines : forall n p, keeps (parse pf le n lines p).
Proof.
  induction lines as [|l lines IH]; intros n p; cbn [parse]; [apply keeps_ret|].
  apply keeps_bind; [|intros p'; apply IH].
  apply keeps_try; [apply keeps_parse_line|]. intros e. apply keeps_raise.
Qed.

Lemma keeps_load pf le n lines : keeps (load pf le n lines).
Proof.
  unfold load. apply keeps_bind; [apply keeps_guard|]. intros _.
  apply keeps_bind; [apply keeps_parse|]. intros _. apply keeps_ret.
Qed.

Lemma keeps_loads pf le n text : keeps (loads pf le n text).
Proof.
  unfold loads. apply keeps_bind; [apply keeps_guard|]. intros _.
  apply keeps_load.
Qed.

Lemma keeps_run_op pf le fuel o : keeps (run_op pf le fuel o).
Proof.
  destruct o; cbn [run_op];
    try (apply keeps_bind; [|intros ?; apply keeps_ret]).
  - apply keeps_alloc. intros i. reflexivity.
  - apply keeps_set_value.
  - apply keeps_add_section.
  - apply keeps_add_comment.
  - apply keeps_delitem.
  - apply keeps_call_delitem.
  - apply keeps_getitem.
  - apply keeps_clear.
  - apply keeps_set_modifier.
  - apply keeps_set_immutable.
  - apply keeps_setdefault.
  - apply keeps_loads.
Qed.

(** In every store a program reaches, the keys of every [__data__] are
    normal keys and no metadata names. *)
Lemma reachable_store_ok pf le st : reachable pf le st -> store_ok st.
Proof.
  induction 1 as [|st o fuel st' r Hreach IH Hstep].
  - repeat constructor.
  - eapply keeps_run_op; eassumption.
Qed.

(* ------------------------------------------------------------------ *)
(** ** [in] against [has_key] *)

Lemma has_key_eq n s st nd :
  nth_error st n = Some nd ->
  has_key n (KStr s) st = (st, Val (meta_has nd s || dict_has (data nd) s)).
Proof.
  intros Hn. unfold has_key. mval.
  destruct (meta_has nd s); [reflexivity|].
  now destruct (dict_has (data nd) s).
Qed.

Lemma dict_has_in d k : dict_has d k = true -> In k (dict_keys d).
Proof.
  unfold dict_has. induction d as [|[k' v'] d IH]; cbn; [discriminate|].
  destruct (String.eqb_spec k' k); [now left|]. intros H. right. now apply IH.
Qed.

Lemma node_ok_key nd k : node_ok nd -> dict_has (data nd) k = true -> key_ok k = true.
Proof.
  unfold node_ok, data_keys_ok. intros Hok Hk.
  rewrite forallb_forall in Hok. apply Hok. now apply dict_has_in.
Qed.

Lemma changed_char_not_normal s :
  has_changed_char s = true -> str_forallb is_normal_char s = false.
Proof.
  unfold has_changed_char. induction s as [|c s IH]; cbn; [discriminate|].
  destruct (is_normal_char c); cbn; [exact IH|reflexivity].
Qed.

Lemma meta_key_normal s : is_meta_key s = true -> is_normal_key s = true.
Proof.
  unfold is_meta_key, meta_has, meta_get.
  repeat match goal with
         | |- context [String.eqb s ?x] =>
             destruct (String.eqb_spec s x); [subst; reflexivity|]
         end.
  discriminate.
Qed.

Lemma normal_key_chars s : is_normal_key s = true -> str_forallb is_normal_char s = true.
Proof. unfold is_normal_key. intros H. now apply andb_true_iff in H as [_ H]. Qed.

(** C9.  [key in node] looks the normalised key up in [__data__];
    [has_key(key)] looks the key as given up in [__meta__] and [__data__].
    So for a key with an upper-case letter, ['-'], [' '] or ['.'] that
    [set_value] has just bound, [in] answers [True] and [has_key] answers
    [False]; and for a metadata name such as [owner] or [root], [has_key]
    answers [True] and [in] answers [False]. *)
Theorem has_key_bypasses_normalisation pf le st n nd :
  reachable pf le st -> nth_error st n = Some nd ->
  (forall key,
      contains n key st =
        match key_transform key with
        | Val k => (st, Val (dict_has (data nd) k))
        | Exn e => (st, Exn e)
        | Stuck w => (st, Stuck w)
        end)
  /\ (forall s,
      has_key n (KStr s) st = (st, Val (meta_has nd s || dict_has (data nd) s)))
  /\ (forall s value st',
      has_changed_char s = true ->
      set_value value n (KStr s) st = (st', Val tt) ->
      contains n (KStr s) st' = (st', Val true)
      /\ has_key n (KStr s) st' = (st', Val false))
  /\ (forall s,
      is_meta_key s = true ->
      has_key n (KStr s) st = (st, Val true)
      /\ contains n (KStr s) st = (st, Val false))
  /\ is_meta_key "owner" = true /\ is_meta_key "root" = true.
Proof.
  intros Hreach Hn.
  split; [intros key; now apply contains_eq|].
  split; [intros s; now apply has_key_eq|].
  split; [|split; [|split; reflexivity]].
  - intros s value st' Hs E.
    apply changed_char_not_normal in Hs.
    assert (Hok' : store_ok st').
    { eapply keeps_set_value; [exact E|]. eapply reachable_store_ok. exact Hreach. }
    destruct (key_transform (KStr s)) as [k|e|w] eqn:Hk.
    2,3: rewrite (set_value_eq _ _ _ _ _ Hn), Hk in E;
         destruct (frozen nd); discriminate.
    destruct (set_value_success _ _ _ _ _ _ Hk E)
      as (nd0 & nd' & Hn0 & Hn' & _ & _ & _ & Hd & _ & _ & Hdata).
    split.
    + rewrite (contains_eq _ _ _ _ Hn'), Hk, Hdata.
      rewrite <- (dict_set_new _ _ (stored_value value st) Hd).
      now rewrite dict_has_set.
    + rewrite (has_key_eq _ _ _ _ Hn').
      destruct (meta_has nd' s) eqn:Hmeta.
      { rewrite (meta_has_indep nd' empty_root) in Hmeta.
        apply meta_key_normal, normal_key_chars in Hmeta. congruence. }
      destruct (dict_has (data nd') s) eqn:Hds; [|reflexivity].
      apply (node_ok_key _ _ (store_ok_nth _ _ _ Hok' Hn')) in Hds.
      unfold key_ok in Hds. apply andb_true_iff in Hds as [Hds _].
      apply normal_key_chars in Hds. congruence.
  - intros s Hs. split.
    + rewrite (has_key_eq _ _ _ _ Hn).
      unfold is_meta_key in Hs. now rewrite (meta_has_indep nd empty_root), Hs.
    + rewrite (contains_eq _ _ _ _ Hn).
      rewrite (key_transform_normal_key _ (meta_key_normal _ Hs)).
      destruct (dict_has (data nd) s) eqn:Hds; [|reflexivity].
      apply (node_ok_key _ _
               (store_ok_nth _ _ _ (reachable_store_ok _ _ _ Hreach) Hn)) in Hds.
      unfold key_ok in Hds. rewrite Hs in Hds.
      apply andb_true_iff in Hds as [_ Hds]. discriminate.
Qed.

Lemma has_key_bypasses_normalisation_witness :
  let st := fst (set_value (PInt 1) 0 (KStr "My-Key") init_store) in
  contains 0 (KStr "My-Key") st = (st, Val true)
  /\ has_key 0 (KStr "My-Key") st = (st, Val false).
Proof.
  apply (proj1 (proj2 (proj2
    (has_key_bypasses_normalisation
       (fun _ => None) (fun _ => None) init_store 0 empty_root
       (reach_init _ _) eq_refl))) "My-Key" (PInt 1));
    reflexivity.
Defined.

(* ------------------------------------------------------------------ *)
(** ** The [globals] fallback of [__getitem__] *)

Lemma get_value_eq n key st nd :
  nth_error st n = Some nd ->
  get_value n key st =
    match key_transform key with
    | Val k =>
        match meta_get nd k with
        | Some v => (st, Val (Some v))
        | None =>
            match get_modifier nd with
            | None => (st, Val (dict_get (data nd) k))
            | Some _ => (st, Stuck Plugin)
            end
        end
    | Exn e => (st, Exn e)
    | Stuck w => (st, Stuck w)
    end.
Proof.
  intros Hn. unfold get_value.
  destruct (key_transform key) as [k|e|w]; [|now mexn|now mstuck].
  mval. mval. destruct (meta_get nd k); [reflexivity|].
  now destruct (get_modifier nd).
Qed.

Lemma meta_get_indep nd nd' k : meta_get nd k = None -> meta_get nd' k = None.
Proof.
  intros H. pose proof (meta_has_indep nd nd' k) as E. unfold meta_has in E.
  rewrite H in E. now destruct (meta_get nd' k).
Qed.

(** What the walk needs of a node with a [globals] section. *)
Lemma globals_of_has st c gnd :
  globals_of st c = HasGlobals gnd ->
  exists cnd g,
    nth_error st c = Some cnd /\ has_section cnd "globals" = true /\
    get_modifier cnd = None /\ dict_get (data cnd) "globals" = Some (PConf g) /\
    nth_error st g = Some gnd /\ get_modifier gnd = None.
Proof.
  unfold globals_of. destruct (nth_error st c) as [cnd|] eqn:Hc; [|discriminate].
  destruct (has_section cnd "globals") eqn:Hsec; [|discriminate].
  destruct (get_modifier cnd) eqn:Hmod; [discriminate|].
  destruct (dict_get (data cnd) "globals") as [[| | | | | |g|]|] eqn:Hd;
    try discriminate.
  destruct (nth_error st g) as [gnd'|] eqn:Hg; [|discriminate].
  destruct (get_modifier gnd') eqn:Hm; [discriminate|].
  intros H; inversion H; subst. exists cnd, g. now repeat split.
Qed.

Lemma globals_of_none st c :
  globals_of st c = NoGlobals ->
  exists cnd, nth_error st c = Some cnd /\ has_section cnd "globals" = false.
Proof.
  unfold globals_of. destruct (nth_error st c) as [cnd|]; [|discriminate].
  destruct (has_section cnd "globals") eqn:E.
  - destruct (get_modifier cnd); [discriminate|].
    destruct (dict_get (data cnd) "globals") as [[| | | | | |g|]|]; try discriminate.
    destruct (nth_error st g) as [gnd'|]; [|discriminate].
    destruct (get_modifier gnd'); discriminate.
  - intros _. now exists cnd.
Qed.

(** [conf.globals] on a node whose [globals] section is in place. *)
Lemma getitem_globals f st c cnd g :
  nth_error st c = Some cnd -> get_modifier cnd = None ->
  dict_get (data cnd) "globals" = Some (PConf g) ->
  getitem (S f) c (KStr "globals") st = (st, Val (PConf g)).
Proof.
  intros Hc Hmod Hd. rewrite getitem_eq.
  assert (Hk : key_transform (KStr "globals") = Val "globals") by reflexivity.
  assert (Hmeta : meta_get cnd "globals" = None) by reflexivity.
  erewrite bind_val
    by (rewrite (get_value_eq _ _ _ _ Hc), Hk, Hmeta, Hmod, Hd; reflexivity).
  reflexivity.
Qed.

Lemma globals_walk_finds st n key k v f c gnd skipped :
  key_transform key = Val k ->
  (forall nd, meta_get nd k = None) ->
  globals_of st c = HasGlobals gnd -> dict_get (data gnd) k = Some v ->
  forall m g,
    owner_path st m skipped c ->
    Forall (no_global st k) skipped ->
    List.length skipped < g ->
    globals_walk (getitem (S f)) n key g (Some m) st = (st, Val v).
Proof.
  intros Hk Hmeta Hc Hv m g Hpath. revert g.
  induction Hpath as [m|m nd o skipped c Hm Ho Hpath IH]; intros g Hskip Hlen.
  - destruct g as [|g]; [cbn in Hlen; lia|]. cbn [globals_walk].
    apply globals_of_has in Hc as (cnd & gid & Hn & Hsec & Hmod & Hd & Hg & Hgmod).
    mval. rewrite Hsec.
    erewrite bind_val by (eapply getitem_globals; eassumption).
    cbv beta iota.
    erewrite bind_val
      by (cbn [py_contains]; rewrite (contains_eq _ _ _ _ Hg), Hk; reflexivity).
    cbv beta iota. unfold dict_has. rewrite Hv.
    erewrite bind_val by (eapply getitem_globals; eassumption).
    cbv beta iota.
    rewrite getitem_eq.
    erewrite bind_val
      by (rewrite (get_value_eq _ _ _ _ Hg), Hk, Hmeta, Hgmod, Hv; reflexivity).
    reflexivity.
  - destruct g as [|g]; [cbn in Hlen; lia|]. cbn [globals_walk].
    inversion Hskip as [|? ? Hm_no Hskip']; subst.
    mval.
    assert (Hnext : globals_walk (getitem (S f)) n key g (owner nd) st = (st, Val v)).
    { rewrite Ho. apply IH; [exact Hc|exact Hskip'|cbn in Hlen; lia]. }
    destruct Hm_no as [Hno|(gnd' & Hhas & Hnone)].
    + apply globals_of_none in Hno as (cnd & Hn & Hsec).
      rewrite Hm in Hn. inversion Hn; subst. now rewrite Hsec.
    + apply globals_of_has in Hhas
        as (cnd & gid & Hn & Hsec & Hmod & Hd & Hg & Hgmod).
      rewrite Hm in Hn. inversion Hn; subst. rewrite Hsec.
      erewrite bind_val by (eapply getitem_globals; eassumption).
      cbv beta iota.
    cbv beta iota.
      erewrite bind_val
        by (cbn [py_contains]; rewrite (contains_eq _ _ _ _ Hg), Hk; reflexivity).
      cbv beta iota. unfold dict_has. now rewrite Hnone.
Qed.

Lemma reach_run pf le fuel o st :
  reachable pf le st -> reachable pf le (fst (run_op pf le fuel o st)).
Proof.
  intros H. destruct (run_op pf le fuel o st) as [st' r] eqn:E.
  eapply reach_step; eassumption.
Qed.

(** X22.  The fallback where every [globals] section on the way is bound
    to its node.  When [get_value] does not resolve the key on the node, [node[key]]
    is the value bound to the key in the [globals] section of the nearest
    node, from the node itself along the owners, whose [globals] section
    binds the key; the store is not changed.  A value bound on the node
    itself is returned before any [globals] section is looked at. *)
Theorem globals_fallback pf le st n nd key k :
  reachable pf le st -> nth_error st n = Some nd -> get_modifier nd = None ->
  key_transform key = Val k ->
  (forall v fuel,
      dict_get (data nd) k = Some v -> getitem (S fuel) n key st = (st, Val v))
  /\ (forall skipped c gnd v fuel,
      get_value n key st = (st, Val None) ->
      owner_path st n skipped c ->
      Forall (no_global st k) skipped ->
      globals_of st c = HasGlobals gnd -> dict_get (data gnd) k = Some v ->
      List.length skipped + 2 <= fuel ->
      getitem fuel n key st = (st, Val v)).
Proof.
  intros Hreach Hn Hmod Hk. split.
  - intros v fuel Hv. rewrite getitem_eq.
    assert (Hmeta : meta_get nd k = None).
    { assert (Hok : key_ok k = true).
      { eapply node_ok_key.
        - eapply store_ok_nth; [eapply reachable_store_ok; exact Hreach|exact Hn].
        - unfold dict_has. now rewrite Hv. }
      unfold key_ok, is_meta_key in Hok. apply andb_true_iff in Hok as [_ Hok].
      rewrite (meta_has_indep empty_root nd) in Hok. unfold meta_has in Hok.
      now destruct (meta_get nd k). }
    erewrite bind_val
      by (rewrite (get_value_eq _ _ _ _ Hn), Hk, Hmeta, Hmod, Hv; reflexivity).
    reflexivity.
  - intros skipped c gnd v fuel Hget Hpath Hskip Hc Hv Hfuel.
    destruct fuel as [|[|f]]; [lia|lia|].
    rewrite getitem_eq. rewrite (bind_val _ _ _ _ _ Hget). cbv beta iota.
    assert (Hmeta : forall nd', meta_get nd' k = None).
    { intros nd'. apply (meta_get_indep nd).
      rewrite (get_value_eq _ _ _ _ Hn), Hk in Hget.
      destruct (meta_get nd k); [discriminate|reflexivity]. }
    eapply globals_walk_finds; try eassumption. lia.
Qed.

Lemma globals_fallback_witness :
  let st := fst ((g <- add_section 0 (KStr "globals") None;;
                  set_value (PInt 1) g (KStr "a");;;
                  add_section 0 (KStr "level1") None) init_store) in
  getitem 3 2 (KStr "a") st = (st, Val (PInt 1)).
Proof.
  intros st.
  assert (Hreach : reachable (fun _ => None) (fun _ => None) st).
  { apply (reach_run _ _ 0 (AddSection 0 (KStr "level1") None)
             (fst (run_op (fun _ => None) (fun _ => None) 0
                          (SetValue 1 (KStr "a") (PInt 1))
                (fst (run_op (fun _ => None) (fun _ => None) 0
                             (AddSection 0 (KStr "globals") None) init_store))))).
    apply reach_run. apply reach_run. apply reach_init. }
  refine (proj2 (globals_fallback _ _ st 2 _ (KStr "a") "a"
                   Hreach eq_refl eq_refl eq_refl)
                [2] 0 _ (PInt 1) 3 eq_refl _ _ eq_refl eq_refl _).
  - eapply path_up; [reflexivity|reflexivity|apply path_here].
  - constructor; [left; reflexivity|constructor].
  - cbn. lia.
Defined.

(** [conf.globals] on a node that lists [globals] among its sections and
    has lost the key from its data: [get_value] gives the default, the walk
    starts at the node itself, finds the section listed and asks for
    [conf.globals] again. *)
Lemma stale_globals_loop st c cnd :
  nth_error st c = Some cnd -> has_section cnd "globals" = true ->
  get_modifier cnd = None -> dict_get (data cnd) "globals" = None ->
  forall fuel, getitem fuel c (KStr "globals") st = (st, Stuck NoFuel).
Proof.
  intros Hc Hsec Hmod Hd fuel.
  assert (Hk : key_transform (KStr "globals") = Val "globals") by reflexivity.
  assert (Hmeta : meta_get cnd "globals" = None) by reflexivity.
  induction fuel as [|f IH]; [reflexivity|].
  rewrite getitem_eq.
  erewrite bind_val
    by (rewrite (get_value_eq _ _ _ _ Hc), Hk, Hmeta, Hmod, Hd; reflexivity).
  cbv beta iota.
  destruct f as [|g]; [reflexivity|]. cbn [globals_walk].
  mval. rewrite Hsec. now rewrite (bind_stuck _ _ _ _ _ IH).
Qed.

Lemma globals_walk_stale st n key k f c cnd skipped :
  key_transform key = Val k ->
  nth_error st c = Some cnd -> has_section cnd "globals" = true ->
  get_modifier cnd = None -> dict_get (data cnd) "globals" = None ->
  forall m g,
    owner_path st m skipped c ->
    Forall (no_global st k) skipped ->
    globals_walk (getitem f) n key g (Some m) st = (st, Stuck NoFuel).
Proof.
  intros Hk Hc Hsec Hmod Hd m g Hpath. revert g.
  induction Hpath as [m|m nd o skipped c Hm Ho Hpath IH]; intros g Hskip.
  - destruct g as [|g]; [reflexivity|]. cbn [globals_walk].
    mval. rewrite Hsec.
    now rewrite (bind_stuck _ _ _ _ _ (stale_globals_loop _ _ _ Hc Hsec Hmod Hd f)).
  - destruct g as [|g]; [reflexivity|]. cbn [globals_walk].
    inversion Hskip as [|? ? Hm_no Hskip']; subst.
    mval. rewrite Ho.
    specialize (IH Hc g Hskip').
    destruct Hm_no as [Hno|(gnd & Hhas & Hnone)].
    + apply globals_of_none in Hno as (mnd & Hn & Hnosec).
      rewrite Hm in Hn. inversion Hn; subst. now rewrite Hnosec.
    + apply globals_of_has in Hhas
        as (mnd & gid & Hn & Hmsec & Hmmod & Hmd & Hg & Hgmod).
      rewrite Hm in Hn. inversion Hn; subst. rewrite Hmsec.
      destruct f as [|f].
      * reflexivity.
      * erewrite bind_val by (eapply getitem_globals; eassumption).
        cbv beta iota.
        erewrite bind_val
          by (cbn [py_contains]; rewrite (contains_eq _ _ _ _ Hg), Hk;
              reflexivity).
        cbv beta iota. unfold dict_has. now rewrite Hnone.
Qed.

(** C4.  The walk of [__getitem__] along the owners stops at the first node
    that lists [globals] among its sections and no longer binds the key, the
    state [clear] and [set_modifier] leave a node with a [globals] section
    in: from there [conf.globals] asks [__getitem__] for [globals] on the
    same node again and again, and whatever the [globals] sections further
    up bind, [node[key]] returns nothing for any depth of calls. *)
Theorem stale_globals_never_answer st n key k skipped c cnd :
  get_value n key st = (st, Val None) ->
  key_transform key = Val k ->
  owner_path st n skipped c ->
  Forall (no_global st k) skipped ->
  nth_error st c = Some cnd -> has_section cnd "globals" = true ->
  get_modifier cnd = None -> dict_get (data cnd) "globals" = None ->
  forall fuel, getitem fuel n key st = (st, Stuck NoFuel).
Proof.
  intros Hget Hk Hpath Hskip Hc Hsec Hmod Hd fuel.
  destruct fuel as [|f]; [reflexivity|].
  rewrite getitem_eq, (bind_val _ _ _ _ _ Hget). cbv beta iota.
  eapply globals_walk_stale; eassumption.
Qed.

Lemma stale_globals_never_answer_witness :
  let st := fst ((g <- add_section 0 (KStr "globals") None;;
                  set_value (PInt 1) g (KStr "a");;;
                  l <- add_section 0 (KStr "level1") None;;
                  h <- add_section l (KStr "globals") None;;
                  set_value (PInt 2) h (KStr "b");;;
                  clear l) init_store) in
  reachable (fun _ => None) (fun _ => None) st
  /\ (exists gnd, globals_of st 0 = HasGlobals gnd
                  /\ dict_get (data gnd) "a" = Some (PInt 1))
  /\ getitem 100 2 (KStr "a") st = (st, Stuck NoFuel).
Proof.
  intros st. split; [|split].
  - assert (E : st =
      fst (run_op (fun _ => None) (fun _ => None) 0 (Clear 2)
      (fst (run_op (fun _ => None) (fun _ => None) 0
                   (SetValue 3 (KStr "b") (PInt 2))
      (fst (run_op (fun _ => None) (fun _ => None) 0
                   (AddSection 2 (KStr "globals") None)
      (fst (run_op (fun _ => None) (fun _ => None) 0
                   (AddSection 0 (KStr "level1") None)
      (fst (run_op (fun _ => None) (fun _ => None) 0
                   (SetValue 1 (KStr "a") (PInt 1))
      (fst (run_op (fun _ => None) (fun _ => None) 0
                   (AddSection 0 (KStr "globals") None) init_store))))))))))))
      by (vm_compute; reflexivity).
    rewrite E. repeat apply reach_run. apply reach_init.
  - eexists. split; vm_compute; reflexivity.
  - apply (stale_globals_never_answer st 2 (KStr "a") "a" [] 2
             (mkNode [] [OKey "globals"] ["globals"] (Some 0) 0 ["level1"] None
                     (Some "level1") false));
      try (vm_compute; reflexivity); constructor.
Defined.

(* ------------------------------------------------------------------ *)
(** ** [int(str(z))] *)

Lemma int_space_is_space c :
  Chars.is_space c = false -> Chars.is_int_space c = false.
Proof.
  unfold Chars.is_space, Chars.is_int_space. intros H.
  apply orb_false_iff in H as [H Hs]. apply orb_false_iff in H as [H _].
  now rewrite H, Hs.
Qed.

Lemma lstrip_head c l : Chars.is_space c = false -> lstrip (c :: l) = c :: l.
Proof. intros H. cbn. now rewrite (int_space_is_space c H). Qed.

Lemma strip_nonspace l :
  Forall (fun c => Chars.is_space c = false) l -> strip l = l.
Proof.
  intros H. unfold strip.
  assert (Hl : forall l, Forall (fun c => Chars.is_space c = false) l -> lstrip l = l).
  { intros [|c r] Hr; [reflexivity|]. inversion Hr; subst. now apply lstrip_head. }
  rewrite (Hl l H). rewrite Hl; [apply rev_involutive|].
  apply Forall_rev. exact H.
Qed.

Lemma uint_digits d :
  Forall (fun c => Chars.is_digit c = true)
         (list_ascii_of_string (NilEmpty.string_of_uint d)).
Proof. induction d; cbn; constructor; auto. Qed.

Lemma digit_facts c :
  Chars.is_digit c = true ->
  Chars.is_space c = false /\ Ascii.eqb c "_" = false /\
  Ascii.eqb c "-" = false /\ Ascii.eqb c "+" = false /\
  Ascii.eqb c Chars.newline = false.
Proof.
  assert (H : negb (Chars.is_digit c)
              || (negb (Chars.is_space c) && negb (Ascii.eqb c "_")
                  && negb (Ascii.eqb c "-") && negb (Ascii.eqb c "+")
                  && negb (Ascii.eqb c Chars.newline)) = true).
  { revert c. apply ascii_all.
    intros [|] [|] [|] [|] [|] [|] [|] [|]; vm_compute; reflexivity. }
  intros Hd. rewrite Hd in H. cbn in H.
  repeat (apply andb_true_iff in H as [H ?]).
  repeat split; now apply negb_true_iff.
Qed.

Lemma int_body_digits l b :
  Forall (fun c => Chars.is_digit c = true) l ->
  int_body_ok b l = match l with [] => b | _ => true end.
Proof.
  intros H. revert b. induction H as [|c l Hc Hl IH]; intros b; [reflexivity|].
  cbn. rewrite Hc, IH. now destruct l.
Qed.

Lemma digits_of_digits l :
  Forall (fun c => Chars.is_digit c = true) l -> digits_of l = l.
Proof.
  intros H. unfold digits_of. induction H as [|c l Hc Hl IH]; [reflexivity|].
  cbn. destruct (digit_facts c Hc) as (_ & -> & _). cbn. now rewrite IH.
Qed.

Lemma int_of_body_uint d :
  d <> Decimal.Nil ->
  int_of_body (list_ascii_of_string (NilEmpty.string_of_uint d)) =
    Some (Z.of_uint d).
Proof.
  intros Hd. unfold int_of_body.
  rewrite (int_body_digits _ _ (uint_digits d)).
  rewrite (digits_of_digits _ (uint_digits d)).
  rewrite string_of_list_ascii_of_string, NilEmpty.usu.
  destruct d; [congruence| | | | | | | | | |]; reflexivity.
Qed.

Lemma pos_to_uint_nonnil p : Pos.to_uint p <> Decimal.Nil.
Proof.
  intros H. pose proof (DecimalPos.Unsigned.of_to p) as E.
  rewrite H in E. discriminate.
Qed.

Lemma py_int_uint d :
  d <> Decimal.Nil ->
  py_int (NilEmpty.string_of_uint d) = Some (Z.of_uint d)
  /\ py_int (String "-" (NilEmpty.string_of_uint d)) = Some (- Z.of_uint d)%Z.
Proof.
  intros Hd. pose proof (uint_digits d) as Hdig.
  assert (Hns : Forall (fun c => Chars.is_space c = false)
                       (list_ascii_of_string (NilEmpty.string_of_uint d))).
  { eapply Forall_impl; [|exact Hdig]. intros c Hc. now apply digit_facts. }
  unfold py_int. split.
  - rewrite (strip_nonspace _ Hns).
    pose proof (int_of_body_uint d Hd) as E.
    destruct (list_ascii_of_string (NilEmpty.string_of_uint d)) as [|c r] eqn:El.
    + unfold int_of_body in E. cbn in E. discriminate.
    + inversion Hdig; subst.
      destruct (digit_facts c H1) as (_ & _ & -> & -> & _). exact E.
  - cbn [list_ascii_of_string]. rewrite strip_nonspace.
    + cbn. now rewrite (int_of_body_uint d Hd).
    + constructor; [reflexivity|exact Hns].
Qed.

Lemma py_int_str_of_int z : py_int (str_of_int z) = Some z.
Proof.
  unfold str_of_int. destruct z as [|p|p]; [reflexivity| |];
    cbn [Z.to_int NilZero.string_of_int];
    pose proof (pos_to_uint_nonnil p) as Hp;
    destruct (py_int_uint _ Hp) as [Hpos Hneg];
    pose proof (DecimalZ.of_to (Z.pos p)) as E1;
    pose proof (DecimalZ.of_to (Z.neg p)) as E2;
    cbn [Z.to_int Z.of_int] in E1, E2.
  - unfold NilZero.string_of_uint.
    destruct (Pos.to_uint p) eqn:Eu; [congruence| | | | | | | | | |];
      rewrite Hpos; now rewrite E1.
  - unfold NilZero.string_of_uint.
    destruct (Pos.to_uint p) eqn:Eu; [congruence| | | | | | | | | |];
      rewrite Hneg; now rewrite E2.
Qed.

(** The text of an integer has no blank and no newline. *)
Lemma str_of_int_chars z :
  str_forallb (fun c => negb (Chars.is_space c)) (str_of_int z) = true
  /\ str_of_int z <> EmptyString.
Proof.
  assert (Hu : forall d, str_forallb (fun c => negb (Chars.is_space c))
                                     (NilEmpty.string_of_uint d) = true).
  { induction d; cbn; auto. }
  assert (Hz : forall d, str_forallb (fun c => negb (Chars.is_space c))
                                     (NilZero.string_of_uint d) = true
                         /\ NilZero.string_of_uint d <> EmptyString).
  { intros d. unfold NilZero.string_of_uint.
    destruct d; try (split; [apply Hu|discriminate]). split; [reflexivity|discriminate]. }
  unfold str_of_int. destruct (Z.to_int z) as [d|d]; cbn [NilZero.string_of_int].
  - apply Hz.
  - split; [|discriminate]. cbn. apply Hz.
Qed.

(* ------------------------------------------------------------------ *)
(** ** Text *)

Lemma str_app_assoc (a b c : string) : ((a ++ b) ++ c = a ++ (b ++ c))%string.
Proof. induction a as [|x a IH]; cbn; [reflexivity|now rewrite IH]. Qed.

Lemma str_app_nil_r (a : string) : (a ++ "" = a)%string.
Proof. induction a as [|x a IH]; cbn; [reflexivity|now rewrite IH]. Qed.

Lemma str_length_app (a b : string) :
  String.length (a ++ b) = String.length a + String.length b.
Proof. induction a as [|x a IH]; cbn; [reflexivity|now rewrite IH]. Qed.

Lemma str_app_inv_head (a b c : string) : (a ++ b = a ++ c)%string -> b = c.
Proof. induction a as [|x a IH]; cbn; intros H; [exact H|]. inversion H. auto. Qed.

Lemma str_app_self (a r : string) : (a ++ r = a)%string -> r = EmptyString.
Proof.
  intros H. rewrite <- (str_app_nil_r a) in H at 2.
  now apply str_app_inv_head in H.
Qed.

Lemma spaces_length n : String.length (spaces n) = n.
Proof. induction n as [|n IH]; cbn; [reflexivity|now rewrite IH]. Qed.

Lemma spaces_all n : str_forallb is_space_char (spaces n) = true.
Proof. induction n as [|n IH]; cbn; [reflexivity|exact IH]. Qed.

Lemma str_forallb_app p a b :
  str_forallb p (a ++ b) = str_forallb p a && str_forallb p b.
Proof.
  induction a as [|x a IH]; cbn; [reflexivity|].
  rewrite IH. now rewrite andb_assoc.
Qed.

Lemma str_forallb_impl (p q : ascii -> bool) s :
  (forall c, p c = true -> q c = true) ->
  str_forallb p s = true -> str_forallb q s = true.
Proof.
  intros Hpq. induction s as [|c s IH]; cbn; [reflexivity|].
  intros H. apply andb_true_iff in H as [Hc Hs]. now rewrite (Hpq c Hc), IH.
Qed.

Lemma span_app p a rest :
  str_forallb p a = true -> stops p rest -> span p (a ++ rest) = (a, rest).
Proof.
  intros Ha Hr. induction a as [|x a IH]; cbn in *.
  - destruct rest as [|c r]; [reflexivity|]. cbn. now rewrite Hr.
  - apply andb_true_iff in Ha as [Hx Ha]. now rewrite Hx, (IH Ha).
Qed.

Lemma span_spec p s a r :
  span p s = (a, r) ->
  s = (a ++ r)%string /\ str_forallb p a = true /\ stops p r.
Proof.
  revert a r. induction s as [|c s IH]; cbn; intros a r H.
  - inversion H; subst. now repeat split.
  - destruct (p c) eqn:Hc.
    + destruct (span p s) as [a' r'] eqn:E. inversion H; subst.
      destruct (IH _ _ eq_refl) as (-> & Ha & Hr). cbn. rewrite Hc.
      now repeat split.
    + inversion H; subst. cbn. now repeat split.
Qed.

Lemma name_char_facts c :
  Chars.is_name_char c = true ->
  is_space_char c = false /\ Chars.is_space c = false
  /\ (Chars.is_digit c = false -> Chars.is_name_start c = true).
Proof.
  assert (H : negb (Chars.is_name_char c)
              || (negb (is_space_char c) && negb (Chars.is_space c)
                  && (Chars.is_digit c || Chars.is_name_start c)) = true).
  { revert c. apply ascii_all.
    intros [|] [|] [|] [|] [|] [|] [|] [|]; vm_compute; reflexivity. }
  intros Hc. rewrite Hc in H. cbn in H.
  apply andb_true_iff in H as [H H3]. apply andb_true_iff in H as [H1 H2].
  apply negb_true_iff in H1, H2. repeat split; try assumption.
  intros Hd. now rewrite Hd in H3.
Qed.

Lemma nonspace_not_newline c :
  negb (Chars.is_space c) = true -> not_newline c = true.
Proof.
  assert (H : Chars.is_space c || not_newline c = true).
  { revert c. apply ascii_all.
    intros [|] [|] [|] [|] [|] [|] [|] [|]; vm_compute; reflexivity. }
  intros Hc. apply negb_true_iff in Hc. now rewrite Hc in H.
Qed.

(** What an identifier is made of. *)
Lemma ident_shape k :
  is_ident k = true ->
  exists c r, k = String c r /\ Chars.is_name_start c = true
              /\ str_forallb Chars.is_name_char k = true
              /\ is_normal_key k = true /\ is_meta_key k = false.
Proof.
  unfold is_ident, key_ok. intros H.
  apply andb_true_iff in H as [H Hchars]. apply andb_true_iff in H as [Hn Hm].
  apply negb_true_iff in Hm.
  pose proof Hn as Hn'. unfold is_normal_key in Hn'.
  apply andb_true_iff in Hn' as [Hn' _]. apply andb_true_iff in Hn' as [He Hd].
  destruct k as [|c r]; [discriminate|]. exists c, r.
  cbn in Hd, Hchars. apply negb_true_iff in Hd.
  apply andb_true_iff in Hchars as [Hc Hr].
  repeat split; try assumption.
  - now apply name_char_facts.
  - cbn. now rewrite Hc, Hr.
Qed.

Lemma match_data_line_eq s :
  match_data_line s =
    let (indent, r1) := span is_space_char s in
    match r1 with
    | EmptyString => None
    | String c _ =>
        if Chars.is_name_start c
        then let (key, r2) := span Chars.is_name_char r1 in
             after_key (String.length indent) key r2
        else None
    end.
Proof. reflexivity. Qed.

Lemma match_data_line_key n k rest :
  is_ident k = true -> stops Chars.is_name_char rest ->
  match_data_line (spaces n ++ k ++ rest) = after_key n k rest.
Proof.
  intros Hk Hrest.
  destruct (ident_shape k Hk) as (c & r & -> & Hc & Hchars & _ & _).
  rewrite match_data_line_eq.
  rewrite (span_app is_space_char (spaces n)).
  - change (String c r ++ rest)%string with (String c (r ++ rest))%string.
    cbv iota beta. rewrite Hc.
    change (String c (r ++ rest))%string with (String c r ++ rest)%string.
    rewrite (span_app Chars.is_name_char (String c r) rest Hchars Hrest).
    now rewrite spaces_length.
  - apply spaces_all.
  - cbn in Hchars |- *. apply andb_true_iff in Hchars as [Hc' _].
    now apply name_char_facts.
Qed.

Lemma value_text_shape s :
  is_value_text s = true ->
  exists x xs, s = String x xs /\ Chars.is_space x = false
               /\ str_forallb not_newline s = true.
Proof.
  destruct s as [|x xs]; [discriminate|]. cbn [is_value_text]. intros H.
  apply andb_true_iff in H as [Hx Hline]. apply negb_true_iff in Hx.
  exists x, xs. now repeat split.
Qed.

Lemma match_value_line d k s :
  is_ident k = true -> is_value_text s = true ->
  match_all_lines (value_line d k s) =
    Some (DataLine (d * indent_spaces) k (IsValue s)).
Proof.
  intros Hk Hs. destruct (value_text_shape s Hs) as (x & xs & -> & Hx & Hline).
  unfold match_all_lines, value_line.
  rewrite (match_data_line_key _ _ _ Hk); [|reflexivity].
  unfold after_key.
  change (span Chars.is_space (" = " ++ String x xs ++ line_break)%string)
    with (span Chars.is_space (" " ++ ("= " ++ String x xs ++ line_break))%string).
  rewrite (span_app Chars.is_space " "); [|reflexivity|reflexivity].
  change ("= " ++ String x xs ++ line_break)%string
    with (String "=" (" " ++ (String x xs ++ line_break)))%string.
  cbv iota beta.
  rewrite (span_app Chars.is_space " "); [|reflexivity|exact Hx].
  change (String x xs ++ line_break)%string
    with (String x (xs ++ line_break))%string at 1.
  cbv iota beta.
  rewrite (span_app not_newline (String x xs)); [reflexivity|exact Hline|reflexivity].
Qed.

Lemma match_section_line d k :
  is_ident k = true ->
  match_all_lines (section_line d k) =
    Some (DataLine (d * indent_spaces) k (IsSection None)).
Proof.
  intros Hk. unfold match_all_lines, section_line.
  rewrite (match_data_line_key _ _ _ Hk); reflexivity.
Qed.

Lemma blank_facts c :
  Chars.is_blank c = true ->
  Chars.is_name_start c = false /\ not_newline c = true
  /\ Ascii.eqb c "#" = false.
Proof.
  assert (H : negb (Chars.is_blank c)
              || (negb (Chars.is_name_start c) && not_newline c
                  && negb (Ascii.eqb c "#")) = true).
  { revert c. apply ascii_all.
    intros [|] [|] [|] [|] [|] [|] [|] [|]; vm_compute; reflexivity. }
  intros Hc. rewrite Hc in H. cbn in H.
  apply andb_true_iff in H as [H H3]. apply andb_true_iff in H as [H1 H2].
  apply negb_true_iff in H1, H3. now repeat split.
Qed.

Lemma space_char_eq c : is_space_char c = true -> c = " "%char.
Proof. unfold is_space_char. apply Ascii.eqb_eq. Qed.

Lemma plain_comment_shape c :
  is_plain_comment c = true ->
  exists b body,
    c = (b ++ body)%string /\ str_forallb Chars.is_blank b = true
    /\ (body = EmptyString
        \/ exists text, body = String "#" text
                        /\ str_forallb not_newline text = true).
Proof.
  unfold is_plain_comment, match_comment.
  destruct (span Chars.is_blank c) as [b r] eqn:Eb.
  apply span_spec in Eb as (-> & Hb & Hstop).
  assert (Hother : (if at_end r then Some b else None) <> None ->
                   match (if at_end r then Some b else None) with
                   | Some c' => String.eqb c' (b ++ r)
                   | None => false
                   end = true ->
                   exists b0 body,
                     (b ++ r)%string = (b0 ++ body)%string
                     /\ str_forallb Chars.is_blank b0 = true
                     /\ (body = EmptyString
                         \/ exists text, body = String "#" text
                                         /\ str_forallb not_newline text = true)).
  { intros _ H. destruct (at_end r); [|discriminate].
    apply String.eqb_eq in H. symmetry in H. apply str_app_self in H. subst r.
    exists b, EmptyString. repeat split; auto. }
  destruct r as [|x r']; [intros H; apply Hother; [discriminate|exact H]|].
  destruct (Ascii.eqb_spec x "#") as [->|Hx].
  - destruct (span not_newline r') as [text r''] eqn:Et.
    apply span_spec in Et as (-> & Ht & _).
    destruct (at_end r''); [|discriminate].
    intros H. apply String.eqb_eq in H.
    exists b, (String "#" text).
    split; [symmetry; exact H|]. split; [exact Hb|]. right. now exists text.
  - intros H. apply Hother.
    + destruct (at_end (String x r')); [discriminate|].
      exfalso. revert H.
      destruct x as [[|] [|] [|] [|] [|] [|] [|] [|]]; try discriminate;
        now elim Hx.
    + revert H.
      destruct x as [[|] [|] [|] [|] [|] [|] [|] [|]]; try (intros H; exact H);
        now elim Hx.
Qed.

Lemma plain_comment_no_newline c :
  is_plain_comment c = true -> str_forallb not_newline c = true.
Proof.
  intros H. apply plain_comment_shape in H as (b & body & -> & Hb & Hbody).
  rewrite str_forallb_app. apply andb_true_iff. split.
  - eapply str_forallb_impl; [|exact Hb]. intros c Hc. now apply blank_facts.
  - destruct Hbody as [->|(text & -> & Ht)]; [reflexivity|]. cbn. exact Ht.
Qed.

Lemma after_key_none i j k r : after_key i k r = None -> after_key j k r = None.
Proof.
  unfold after_key. destruct (span Chars.is_space r) as [a r3].
  destruct r3 as [|x r4]; [reflexivity|].
  destruct x as [[|] [|] [|] [|] [|] [|] [|] [|]]; try reflexivity.
  - destruct (span Chars.is_space r4) as [a' r5].
    destruct r5; [reflexivity|discriminate].
  - destruct (span Chars.is_space r4) as [a' r5].
    destruct r5 as [|c' r6]; [discriminate|].
    destruct (Chars.is_name_start c'); discriminate.
Qed.

Lemma match_data_line_space s :
  match_data_line s = None -> match_data_line (String " " s) = None.
Proof.
  rewrite !match_data_line_eq. cbn [span]. change (is_space_char " ") with true.
  cbv iota. destruct (span is_space_char s) as [a r1].
  destruct r1 as [|c r]; [reflexivity|].
  destruct (Chars.is_name_start c); [|reflexivity].
  destruct (span Chars.is_name_char (String c r)) as [key r2].
  apply after_key_none.
Qed.

Lemma match_data_line_blanks b rest :
  str_forallb Chars.is_blank b = true ->
  match_data_line rest = None ->
  match_data_line (b ++ rest) = None.
Proof.
  intros Hb Hrest. induction b as [|x b IH]; [exact Hrest|].
  cbn in Hb. apply andb_true_iff in Hb as [Hx Hb]. specialize (IH Hb).
  cbn [String.append]. destruct (is_space_char x) eqn:Hs.
  - apply space_char_eq in Hs. subst x. now apply match_data_line_space.
  - rewrite match_data_line_eq. cbn [span]. rewrite Hs.
    destruct (blank_facts x Hx) as (-> & _). reflexivity.
Qed.

Lemma match_comment_line c :
  is_plain_comment c = true ->
  match_all_lines (c ++ line_break) = Some (CommentLine c).
Proof.
  intros H. apply plain_comment_shape in H as (b & body & -> & Hb & Hbody).
  unfold match_all_lines. rewrite str_app_assoc.
  rewrite (match_data_line_blanks _ _ Hb).
  2:{ destruct Hbody as [->|(text & -> & Ht)]; reflexivity. }
  unfold option_map, match_comment.
  rewrite (span_app Chars.is_blank b);
    [|exact Hb|destruct Hbody as [->|(text & -> & Ht)]; reflexivity].
  destruct Hbody as [->|(text & -> & Ht)].
  - cbn. now rewrite str_app_nil_r.
  - change (String "#" text ++ line_break)%string
      with (String "#" (text ++ line_break))%string.
    cbv iota beta.
    rewrite (span_app not_newline text); [|exact Ht|reflexivity].
    reflexivity.
Qed.

Lemma split_newline_plain s :
  str_forallb not_newline s = true -> split_newline s = [s].
Proof.
  induction s as [|c s IH]; cbn [split_newline str_forallb]; [reflexivity|].
  intros H. apply andb_true_iff in H as [Hc Hs].
  unfold not_newline in Hc. apply negb_true_iff in Hc. rewrite Hc.
  now rewrite (IH Hs).
Qed.

Lemma write_comment_plain w c :
  is_plain_comment c = true -> write_comment w c = write_line w c.
Proof.
  intros H. unfold write_comment.
  rewrite (split_newline_plain _ (plain_comment_no_newline _ H)). cbn.
  unfold is_plain_comment in H. now destruct (match_comment c).
Qed.

(* ------------------------------------------------------------------ *)
(** ** Values that are read back *)

Lemma scalar_eqb_eq a b : scalar_eqb a b = true -> a = b.
Proof.
  destruct a, b; try discriminate; cbn; intros H;
    try reflexivity; f_equal;
    try (now apply Z.eqb_eq); now apply String.eqb_eq.
Qed.

Lemma has_text_shape v :
  has_text v = true ->
  py_str v = Some (leaf_text v) /\ is_value_text (leaf_text v) = true
  /\ is_container v = false.
Proof.
  unfold has_text, leaf_text. destruct v; cbn; try discriminate; auto.
Qed.

(** Every integer is written as a text that is read back as the
    integer. *)
Lemma integers_read_back py_float literal_eval z :
  has_text (PInt z) = true
  /\ reads_back py_float literal_eval (PInt z) = true.
Proof.
  split.
  - unfold has_text. cbn [py_str]. destruct (str_of_int_chars z) as [Hz Hne].
    destruct (str_of_int z) as [|x xs] eqn:E; [congruence|].
    cbn [is_value_text]. pose proof Hz as Hx. cbn [str_forallb] in Hx.
    apply andb_true_iff in Hx as [Hx _]. rewrite Hx. cbn [andb].
    eapply str_forallb_impl; [|exact Hz]. apply nonspace_not_newline.
  - unfold reads_back, leaf_text, convert_from_string. cbn [py_str].
    rewrite py_int_str_of_int. cbn. apply Z.eqb_refl.
Qed.

(** So is every string whose text the data line gives back whole and that
    [int], [float] and [literal_eval] reject. *)
Lemma strings_read_back py_float literal_eval s :
  is_value_text s = true -> py_int s = None ->
  py_float s = None -> literal_eval s = None ->
  has_text (PStr s) = true
  /\ reads_back py_float literal_eval (PStr s) = true.
Proof.
  intros Hs Hint Hfloat Heval. split; [exact Hs|].
  unfold reads_back, leaf_text, convert_from_string. cbn [py_str].
  rewrite Hint, Hfloat, Heval. cbn. apply String.eqb_refl.
Qed.

(* ------------------------------------------------------------------ *)
(** ** Writing a tree *)

Section TreeInduction.

Variable P : tree -> Prop.
Hypothesis HTree :
  forall head es,
    Forall (fun e : string * item =>
              match snd e with Sub t' => P t' | Leaf _ _ => True end) es ->
    P (Tree head es).

Fixpoint tree_nested_ind (t : tree) : P t :=
  match t with
  | Tree head es =>
      HTree head es
        ((fix go (es : list (string * item)) :=
            match es return Forall (fun e : string * item =>
                                      match snd e with
                                      | Sub t' => P t'
                                      | Leaf _ _ => True
                                      end) es with
            | [] => Forall_nil _
            | e :: r =>
                Forall_cons e
                  (match snd e as i return match i with
                                           | Sub t' => P t'
                                           | Leaf _ _ => True
                                           end with
                   | Sub t' => tree_nested_ind t'
                   | Leaf _ _ => I
                   end) (go r)
            end) es)
  end.

End TreeInduction.

Lemma dump_node_eq f st n w :
  dump_node (S f) st n w =
    match nth_error st n with
    | None => Stuck Dangling
    | Some nd => dump_items (dump_node f st) st nd (order nd) w
    end.
Proof. reflexivity. Qed.

Lemma join_app a b : join (a ++ b) = (join a ++ join b)%string.
Proof.
  unfold join. induction a as [|x a IH]; cbn [app fold_right]; [reflexivity|].
  now rewrite IH, str_app_assoc.
Qed.

Lemma dump_items_live dump st nd o w :
  dump_items dump st nd o w =
  dump_items dump st nd
    (filter (fun o => match o with
                      | OKey k => dict_has (data nd) k
                      | OComment _ => true
                      end) o) w.
Proof.
  revert w. induction o as [|[k|c] o IH]; intros w; cbn [filter dump_items].
  - reflexivity.
  - unfold dict_has. destruct (dict_get (data nd) k) as [v|] eqn:Hk.
    + cbn [dump_items]. rewrite Hk.
      destruct (has_section nd k).
      * destruct v; try reflexivity. destruct (nth_error st n); [|reflexivity].
        destruct (dump n _); try reflexivity. apply IH.
      * destruct (write_key_value w k v); try reflexivity. apply IH.
    + apply IH.
  - apply IH.
Qed.

Lemma dump_items_app dump st nd o1 o2 w :
  dump_items dump st nd (o1 ++ o2) w =
    match dump_items dump st nd o1 w with
    | Val w' => dump_items dump st nd o2 w'
    | e => e
    end.
Proof.
  revert w. induction o1 as [|[k|c] o1 IH]; intros w; cbn [app dump_items].
  - reflexivity.
  - destruct (dict_get (data nd) k) as [v|]; [|apply IH].
    destruct (has_section nd k).
    + destruct v; try reflexivity. destruct (nth_error st n); [|reflexivity].
      destruct (dump n _); try reflexivity. apply IH.
    + destruct (write_key_value w k v); try reflexivity. apply IH.
  - apply IH.
Qed.

Lemma dump_items_comments dump st nd cs out d :
  forallb is_plain_comment cs = true ->
  dump_items dump st nd (map OComment cs) (mkWriter out d) =
    Val (mkWriter (out ++ join (comment_lines cs)) d).
Proof.
  revert out. induction cs as [|c cs IH]; intros out H; cbn [map dump_items].
  - cbn. now rewrite str_app_nil_r.
  - cbn in H. apply andb_true_iff in H as [Hc Hcs].
    rewrite (write_comment_plain _ _ Hc). unfold write_line, write. cbn [fp current_indent].
    rewrite (IH _ Hcs). cbn [comment_lines map join fold_right].
    now rewrite !str_app_assoc.
Qed.

Lemma set_mem_false_neq l k k' : set_mem (k' :: l) k = false -> k' <> k.
Proof.
  unfold set_mem. cbn. intros H Heq. subst.
  now rewrite String.eqb_refl in H.
Qed.

(** With distinct keys, [__data__[k]] is the entry of [k]. *)
Lemma rep_entries_lookup rs is_sec es d k it :
  rep_entries rs is_sec es d -> distinct (map fst es) = true ->
  In (k, it) es ->
  exists v, dict_get d k = Some v
            /\ match it with
               | Leaf v0 _ => v = v0 /\ is_sec k = false
               | Sub t' => is_sec k = true /\ exists c', v = PConf c' /\ rs t' c'
               end.
Proof.
  revert d. induction es as [|[k0 it0] es IH]; intros [|[k' v'] d] Hrep Hd Hin;
    cbn in Hrep; try contradiction.
  destruct Hrep as (-> & Hit & Hrest). cbn in Hd.
  apply andb_true_iff in Hd as [Hk0 Hd]. apply negb_true_iff in Hk0.
  destruct Hin as [Heq|Hin].
  - inversion Heq; subst. exists v'. cbn. now rewrite String.eqb_refl.
  - destruct (IH d Hrest Hd Hin) as (v & Hv & Hprop). exists v. split; [|exact Hprop].
    cbn. destruct (String.eqb_spec k0 k) as [->|_]; [|exact Hv].
    exfalso. unfold set_mem in Hk0.
    assert (Hex : existsb (String.eqb k) (map fst es) = true).
    { apply existsb_exists. exists k. split; [|apply String.eqb_refl].
      change k with (fst (k, it)). now apply in_map. }
    congruence.
Qed.

Lemma lines_of_eq d head es :
  lines_of d (Tree head es) = comment_lines head ++ flat_map (entry_lines d) es.
Proof. reflexivity. Qed.

Lemma dump_items_entries dump P st nd d es :
  rep_entries (rep P st) (has_section nd) es (data nd) ->
  distinct (map fst es) = true ->
  forall es',
    incl es' es ->
    Forall (fun e : string * item =>
              match snd e with
              | Leaf v after =>
                  has_text v = true /\ forallb is_plain_comment after = true
              | Sub t' =>
                  forall c' out,
                    rep P st t' c' ->
                    dump c' (mkWriter out (S d)) =
                      Val (mkWriter (out ++ join (lines_of (S d) t')) (S d))
              end) es' ->
    forall out,
      dump_items dump st nd (flat_map entry_order es') (mkWriter out d) =
        Val (mkWriter (out ++ join (flat_map (entry_lines d) es')) d).
Proof.
  intros Hrep Hd es'. induction es' as [|[k it] es' IH]; intros Hincl Hall out.
  - cbn. now rewrite str_app_nil_r.
  - inversion Hall as [|? ? He Hall']; subst.
    assert (Hin : In (k, it) es) by (apply Hincl; now left).
    assert (Hincl' : incl es' es) by (intros x Hx; apply Hincl; now right).
    destruct (rep_entries_lookup _ _ _ _ _ _ Hrep Hd Hin) as (v & Hv & Hit).
    cbn [flat_map]. rewrite dump_items_app, join_app.
    unfold entry_order at 1, entry_lines at 1. cbn [fst snd] in *.
    cbn [dump_items]. rewrite Hv.
    destruct it as [v0 after|t'].
    + destruct Hit as [-> Hsec]. rewrite Hsec. destruct He as [Htext He].
      unfold has_text in Htext. unfold leaf_text, write_key_value.
      destruct (py_str v0) as [text|]; [|discriminate].
      unfold write_line, write_indent, write.
      cbn [fp current_indent].
      rewrite (dump_items_comments _ _ _ _ _ _ He).
      rewrite (IH Hincl' Hall'). f_equal. f_equal.
      unfold join at 3. cbn [fold_right]. fold (join (comment_lines after)).
      unfold value_line. now rewrite !str_app_assoc.
    + destruct Hit as (Hsec & c' & -> & Hc'). rewrite Hsec.
      assert (Hnd : exists cnd, nth_error st c' = Some cnd /\ modifier cnd = None).
      { destruct t'. cbn in Hc'. destruct Hc' as (_ & cnd & H1 & H2 & _). eauto. }
      destruct Hnd as (cnd & Hcnd & Hmod). rewrite Hcnd.
      unfold get_modifier_name. rewrite Hmod.
      unfold start_section, write_line, write_indent, write.
      cbn [fp current_indent]. rewrite Nat.add_1_r.
      rewrite (He _ _ Hc'). cbn [dump_items].
      unfold end_section. cbn [fp current_indent].
      replace (S d - 1) with d by lia.
      rewrite (IH Hincl' Hall'). f_equal. f_equal.
      unfold join at 3. cbn [fold_right]. fold (join (lines_of (S d) t')).
      unfold section_line. now rewrite !str_app_assoc.
Qed.

Lemma fold_max_le (l : list nat) x : In x l -> x <= fold_right Nat.max 0 l.
Proof.
  induction l as [|y l IH]; intros Hin; [contradiction|].
  cbn. destruct Hin as [->|Hin]; [lia|]. specialize (IH Hin). lia.
Qed.

(** [__dump__] of a node that holds a tree appends the lines of the tree. *)
Lemma dump_node_tree P st t :
  tree_ok t = true ->
  forall fuel c out d,
    rep P st t c -> tree_depth t <= fuel ->
    dump_node fuel st c (mkWriter out d) =
      Val (mkWriter (out ++ join (lines_of d t)) d).
Proof.
  induction t as [head es IH] using tree_nested_ind.
  intros Hok fuel c out d Hrep Hfuel.
  destruct fuel as [|f]; [cbn in Hfuel; lia|].
  cbn [rep] in Hrep. destruct Hrep as (_ & nd & Hnd & Hmod & Hlive & Hes).
  cbn [tree_ok] in Hok. apply andb_true_iff in Hok as [Hok Hall].
  apply andb_true_iff in Hok as [Hhead Hdist].
  rewrite dump_node_eq, Hnd, dump_items_live.
  fold (live_order nd). rewrite Hlive. unfold flat_order.
  rewrite dump_items_app, (dump_items_comments _ _ _ _ _ _ Hhead).
  rewrite (dump_items_entries _ P st nd d es Hes Hdist es (incl_refl _)).
  - rewrite lines_of_eq, join_app. now rewrite str_app_assoc.
  - rewrite forallb_forall in Hall. rewrite Forall_forall in IH.
    apply Forall_forall. intros [k it] Hin. specialize (Hall _ Hin).
    specialize (IH _ Hin). cbn [fst snd] in *.
    apply andb_true_iff in Hall as [_ Hit].
    destruct it as [v0 after|t']; [now apply andb_true_iff in Hit|].
    intros c' out' Hc'. apply IH; [exact Hit|exact Hc'|].
    cbn [tree_depth] in Hfuel.
    assert (tree_depth t' <=
            fold_right Nat.max 0
              (map (fun e : string * item =>
                      match snd e with
                      | Leaf _ _ => 0
                      | Sub t'0 => tree_depth t'0
                      end) es)).
    { apply fold_max_le.
      change (tree_depth t') with
        ((fun e : string * item =>
            match snd e with Leaf _ _ => 0 | Sub t'0 => tree_depth t'0 end)
           (k, Sub t')).
      now apply in_map. }
    lia.
Qed.

Lemma dumps_tree st t c fuel :
  tree_ok t = true -> holds_tree st c t -> tree_depth t <= fuel ->
  dumps fuel st c = Val (text_of t).
Proof.
  intros Hok Hrep Hfuel. unfold dumps.
  now rewrite (dump_node_tree _ st t Hok fuel c "" 0 Hrep Hfuel).
Qed.

(* ------------------------------------------------------------------ *)
(** ** Nodes that hold a tree *)

Lemma rep_entries_impl (R R' : tree -> node_id -> Prop) (s s' : string -> bool)
      es :
  forall d,
    Forall (fun e : string * item =>
              s' (fst e) = s (fst e)
              /\ match snd e with
                 | Sub t' => forall c', R t' c' -> R' t' c'
                 | Leaf _ _ => True
                 end) es ->
    rep_entries R s es d -> rep_entries R' s' es d.
Proof.
  induction es as [|[k it] es IH]; intros [|[k' v] d] Hall Hrep;
    cbn in *; try contradiction; [exact I|].
  inversion Hall as [|? ? [Hs Hit] Hall']; subst. cbn [fst snd] in *.
  destruct Hrep as (-> & Hv & Hrest). split; [reflexivity|].
  split; [|now apply IH].
  destruct it as [z after|t'].
  - now rewrite Hs.
  - destruct Hv as (Hsec & c' & -> & Hc'). rewrite Hs. eauto.
Qed.

Lemma rep_entries_keys R s es :
  forall d, rep_entries R s es d -> map fst d = map fst es.
Proof.
  induction es as [|[k it] es IH]; intros [|[k' v] d] Hrep;
    cbn in *; try contradiction; [reflexivity|].
  destruct Hrep as (-> & _ & Hrest). f_equal. now apply IH.
Qed.

Lemma rep_entries_snoc R s es :
  forall d k it v,
    rep_entries R s es d ->
    match it with
    | Leaf v0 _ => v = v0 /\ s k = false
    | Sub t' => s k = true /\ exists c', v = PConf c' /\ R t' c'
    end ->
    rep_entries R s (es ++ [(k, it)]) (d ++ [(k, v)]).
Proof.
  induction es as [|[k0 it0] es IH]; intros [|[k' v'] d] k it v Hrep Hit;
    cbn in *; try contradiction.
  - auto.
  - destruct Hrep as (-> & Hv & Hrest). auto.
Qed.

(** A node holds its tree in every store that has the nodes of the tree as
    they are. *)
Lemma rep_frame (P : node_id -> Prop) st st' t :
  (forall i, P i -> i < List.length st -> nth_error st' i = nth_error st i) ->
  forall c, rep P st t c -> rep P st' t c.
Proof.
  intros Hsame. induction t as [head es IH] using tree_nested_ind.
  intros c (HP & nd & Hnd & Hmod & Hlive & Hes). cbn [rep].
  split; [exact HP|]. exists nd.
  split. { rewrite Hsame; [exact Hnd|exact HP|].
           apply nth_error_Some. congruence. }
  split; [exact Hmod|]. split; [exact Hlive|].
  eapply rep_entries_impl; [|exact Hes].
  eapply Forall_impl; [|exact IH]. intros [k it] H. cbn [fst snd] in *.
  split; [reflexivity|]. destruct it; [exact I|exact H].
Qed.

Lemma rep_weaken (P Q : node_id -> Prop) st t :
  (forall i, P i -> Q i) -> forall c, rep P st t c -> rep Q st t c.
Proof.
  intros HPQ. induction t as [head es IH] using tree_nested_ind.
  intros c (HP & nd & Hnd & Hmod & Hlive & Hes). cbn [rep].
  split; [now apply HPQ|]. exists nd. repeat (split; [assumption|]).
  eapply rep_entries_impl; [|exact Hes].
  eapply Forall_impl; [|exact IH]. intros [k it] H. cbn [fst snd] in *.
  split; [reflexivity|]. destruct it; [exact I|exact H].
Qed.

Lemma dict_has_keys d k : dict_has d k = set_mem (map fst d) k.
Proof.
  unfold dict_has, set_mem. induction d as [|[k' v] d IH]; cbn; [reflexivity|].
  rewrite (String.eqb_sym k k'). destruct (String.eqb k' k); [reflexivity|exact IH].
Qed.

Lemma set_mem_in l k : set_mem l k = true <-> In k l.
Proof.
  unfold set_mem. rewrite existsb_exists. split.
  - intros (x & Hin & Heq). apply String.eqb_eq in Heq. now subst.
  - intros Hin. exists k. split; [exact Hin|apply String.eqb_refl].
Qed.

Lemma set_mem_add s k k0 :
  set_mem (set_add s k) k0 = String.eqb k0 k || set_mem s k0.
Proof.
  unfold set_add. destruct (set_mem s k) eqn:Hk.
  - destruct (String.eqb_spec k0 k); [subst; now rewrite Hk|reflexivity].
  - unfold set_mem. rewrite existsb_app. cbn. rewrite orb_false_r. apply orb_comm.
Qed.

Lemma distinct_app_inv l k r :
  distinct (l ++ k :: r) = true -> ~ In k l /\ distinct (l ++ [k] ++ r) = true.
Proof.
  intros H. split; [|exact H].
  induction l as [|x l IH]; [intros []|].
  cbn in H. apply andb_true_iff in H as [Hx H]. apply negb_true_iff in Hx.
  intros [->|Hin]; [|now apply IH].
  assert (set_mem (l ++ k :: r) k = true)
    by (apply set_mem_in, in_or_app; right; now left).
  congruence.
Qed.

(** With distinct keys, nothing of [__order__] is skipped. *)
Lemma filled_rep L st c head es :
  c < L -> distinct (map fst es) = true -> filled L st c head es ->
  rep (fun i => i = c \/ L <= i) st (Tree head es) c.
Proof.
  intros HcL Hd (nd & Hnd & Hf & Hmod & Hord & Hes & Hsec). cbn [rep].
  split; [now left|]. exists nd. split; [exact Hnd|]. split; [exact Hmod|].
  split.
  - unfold live_order. rewrite Hord. apply forallb_filter_id.
    unfold flat_order. rewrite forallb_app. apply andb_true_iff. split.
    + apply forallb_forall. intros x Hx. apply in_map_iff in Hx as (y & <- & _).
      reflexivity.
    + apply forallb_forall. intros x Hx.
      apply in_flat_map in Hx as ([k it] & Hin & Hx).
      unfold entry_order in Hx. cbn [fst snd] in Hx.
      destruct Hx as [<-|Hx].
      * rewrite dict_has_keys, (rep_entries_keys _ _ _ _ Hes).
        apply set_mem_in. change k with (fst (k, it)). now apply in_map.
      * destruct it; [|contradiction].
        apply in_map_iff in Hx as (y & <- & _). reflexivity.
  - eapply rep_entries_impl; [|exact Hes].
    apply Forall_forall. intros [k it] _. split; [reflexivity|].
    destruct it; [exact I|]. intros c'. apply rep_weaken. intros i Hi. now right.
Qed.

(* ------------------------------------------------------------------ *)
(** ** Reading a tree *)

Section ParseTree.

Variable py_float : string -> option string.
Variable literal_eval : string -> option pyval.

Lemma parse_cons n l r p st st1 p1 :
  parse_line py_float literal_eval l p st = (st1, Val p1) ->
  parse py_float literal_eval n (l :: r) p st =
    parse py_float literal_eval (n + 1) r p1 st1.
Proof.
  intros H. cbn [parse]. unfold bind, try_except. now rewrite H.
Qed.

Lemma parse_app l1 :
  forall n l2 p st st1 p1,
    parse py_float literal_eval n l1 p st = (st1, Val p1) ->
    parse py_float literal_eval n (l1 ++ l2) p st =
      parse py_float literal_eval (n + List.length l1) l2 p1 st1.
Proof.
  induction l1 as [|l l1 IH]; intros n l2 p st st1 p1 H.
  - cbn in H. inversion H; subst. cbn. now rewrite Nat.add_0_r.
  - cbn [app parse] in *. unfold bind, try_except in *.
    destruct (parse_line py_float literal_eval l p st) as [st0 [p0|e|w]];
      try discriminate.
    rewrite (IH _ l2 _ _ _ _ H). cbn [List.length]. f_equal. lia.
Qed.

Lemma update_indent_ready d c base p :
  ready d c base p ->
  update_indent (d * indent_spaces) p =
    Val (mkParser None ((d * indent_spaces, c) :: base)).
Proof.
  intros [(Hnew & Hstack & top & c0 & rest & Hbase & Hlt)|(above & Hstack & Habove)].
  - rewrite (update_indent_deeper _ _ top c0 rest); [|congruence|exact Hlt].
    now rewrite Hnew, Hstack.
  - assert (Hpop : pop_to (d * indent_spaces) (conf_stack p) =
                     Val ((d * indent_spaces, c) :: base)).
    { rewrite Hstack. apply pop_to_found.
      eapply Forall_impl; [|exact Habove]. cbn. intros; lia. }
    destruct above as [|[top c0] above].
    + rewrite (update_indent_not_deeper _ _ (d * indent_spaces) c base);
        [now rewrite Hpop|exact Hstack|lia].
    + inversion Habove; subst. cbn in *.
      rewrite (update_indent_not_deeper _ _ top c0
                 (above ++ (d * indent_spaces, c) :: base));
        [now rewrite Hpop|exact Hstack|lia].
Qed.

Lemma ready_below d c c' base p :
  ready (S d) c' ((d * indent_spaces, c) :: base) p -> inside d c base p.
Proof.
  intros [(Hnew & Hstack & _)|(above & Hstack & Habove)].
  - exists []. split; [exact Hstack|constructor].
  - exists (above ++ [(S d * indent_spaces, c')]). split.
    + now rewrite <- app_assoc.
    + apply Forall_app. split.
      * eapply Forall_impl; [|exact Habove]. cbn. unfold indent_spaces. intros; lia.
      * constructor; [cbn; unfold indent_spaces; lia|constructor].
Qed.

Lemma add_comment_eq c comment st nd :
  nth_error st c = Some nd -> frozen nd = false ->
  add_comment c comment st =
    (list_set st c (with_order nd (order nd ++ [OComment comment])), Val tt).
Proof.
  intros Hn Hf. unfold add_comment.
  erewrite bind_val by (apply (guard_ok _ _ _ _ Hn Hf)).
  erewrite bind_val by (apply (get_node_ok _ _ _ Hn)). reflexivity.
Qed.

(** Comment lines go to the current node and leave the parser as it is. *)
Lemma parse_comments cs :
  forall n p st c nd,
    forallb is_plain_comment cs = true ->
    get_cur_conf p = Val c ->
    nth_error st c = Some nd -> frozen nd = false ->
    exists st' nd',
      parse py_float literal_eval n (comment_lines cs) p st = (st', Val p)
      /\ List.length st' = List.length st
      /\ (forall i, i <> c -> nth_error st' i = nth_error st i)
      /\ nth_error st' c = Some nd'
      /\ frozen nd' = false /\ modifier nd' = modifier nd
      /\ data nd' = data nd /\ sections nd' = sections nd
      /\ order nd' = order nd ++ map OComment cs.
Proof.
  induction cs as [|x cs IH]; intros n p st c nd Hcs Hcur Hn Hf.
  - exists st, nd. cbn. rewrite app_nil_r. repeat split; auto.
  - cbn in Hcs. apply andb_true_iff in Hcs as [Hx Hcs].
    set (nd1 := with_order nd (order nd ++ [OComment x])).
    set (st1 := list_set st c nd1).
    assert (Hline : parse_line py_float literal_eval (x ++ line_break) p st
                    = (st1, Val p)).
    { unfold parse_line. rewrite (match_comment_line _ Hx).
      erewrite bind_val by (rewrite Hcur; reflexivity).
      erewrite bind_val by (apply (add_comment_eq _ _ _ _ Hn Hf)).
      reflexivity. }
    assert (Hn1 : nth_error st1 c = Some nd1)
      by (apply (nth_error_set_same _ _ _ _ Hn)).
    destruct (IH (n + 1) p st1 c nd1 Hcs Hcur Hn1 Hf)
      as (st' & nd' & Hp & Hlen & Hother & Hn' & Hf' & Hm' & Hd' & Hs' & Ho').
    exists st', nd'. cbn [comment_lines map].
    rewrite (parse_cons _ _ _ _ _ _ _ Hline).
    split; [exact Hp|]. split; [unfold st1 in Hlen; now rewrite length_list_set in Hlen|].
    split. { intros i Hi. rewrite (Hother i Hi). unfold st1.
             now apply nth_error_set_other. }
    split; [exact Hn'|]. split; [exact Hf'|].
    repeat split; try assumption.
    rewrite Ho'. cbn. now rewrite <- app_assoc.
Qed.

End ParseTree.

Section ParseEntries.

Variable py_float : string -> option string.
Variable literal_eval : string -> option pyval.

Lemma meta_has_ident nd k : is_ident k = true -> meta_has nd k = false.
Proof.
  intros Hk. apply ident_shape in Hk as (_ & _ & _ & _ & _ & _ & Hm).
  now rewrite (meta_has_indep nd empty_root).
Qed.

Lemma key_transform_ident k : is_ident k = true -> key_transform (KStr k) = Val k.
Proof.
  intros Hk. apply ident_shape in Hk as (_ & _ & _ & _ & _ & Hn & _).
  now apply key_transform_normal_key.
Qed.

Lemma parse_line_value d c base p st nd k v :
  ready d c base p -> nth_error st c = Some nd ->
  frozen nd = false -> modifier nd = None ->
  is_ident k = true -> dict_has (data nd) k = false ->
  has_text v = true -> reads_back py_float literal_eval v = true ->
  parse_line py_float literal_eval (value_line d k (leaf_text v)) p st =
    (list_set st c (bind_key nd k v),
     Val (mkParser None ((d * indent_spaces, c) :: base))).
Proof.
  intros Hready Hn Hf Hmod Hk Hfree Htext Hback. unfold parse_line.
  destruct (has_text_shape v Htext) as (_ & Hline & _).
  rewrite (match_value_line _ _ _ Hk Hline).
  erewrite bind_val
    by (unfold lift; rewrite (update_indent_ready _ _ _ _ Hready); reflexivity).
  cbv beta iota.
  erewrite bind_val by reflexivity.
  rewrite (scalar_eqb_eq _ _ Hback).
  erewrite bind_val; [reflexivity|].
  unfold setitem. rewrite (set_value_eq _ _ _ _ _ Hn), Hf.
  rewrite (key_transform_ident _ Hk).
  unfold get_modifier, get_modifier_name. rewrite Hmod. cbn [get_modifier_by_name].
  rewrite (meta_has_ident _ _ Hk), Hfree.
  destruct v; try discriminate Htext;
    now rewrite (update_data_eq _ _ _ _ _ Hn), Hf.
Qed.

Lemma parse_line_section d c base p st nd k :
  ready d c base p -> nth_error st c = Some nd ->
  frozen nd = false ->
  is_ident k = true -> dict_has (data nd) k = false ->
  has_section nd k = false ->
  parse_line py_float literal_eval (section_line d k) p st =
    (list_set (st ++ [child_node c nd k None]) c
              (with_section (bind_key nd k (PConf (List.length st))) k),
     Val (mkParser (Some (List.length st)) ((d * indent_spaces, c) :: base))).
Proof.
  intros Hready Hn Hf Hk Hfree Hsec. unfold parse_line.
  rewrite (match_section_line _ _ Hk).
  erewrite bind_val
    by (unfold lift; rewrite (update_indent_ready _ _ _ _ Hready); reflexivity).
  cbv beta iota.
  erewrite bind_val by reflexivity.
  erewrite bind_val; [reflexivity|].
  rewrite (add_section_eq _ _ _ _ _ Hn), Hf, (key_transform_ident _ Hk).
  now rewrite (meta_has_ident _ _ Hk), Hsec, Hfree.
Qed.

Lemma nth_error_snoc_new {A} (l : list A) x :
  nth_error (l ++ [x]) (List.length l) = Some x.
Proof. rewrite nth_error_app2 by lia. now rewrite Nat.sub_diag. Qed.

Lemma flat_order_snoc head es e :
  flat_order head (es ++ [e]) = flat_order head es ++ entry_order e.
Proof.
  unfold flat_order. rewrite flat_map_app. cbn [flat_map].
  now rewrite app_nil_r, app_assoc.
Qed.

Lemma not_in_set_mem l k : ~ In k l -> set_mem l k = false.
Proof.
  intros H. destruct (set_mem l k) eqn:E; [|reflexivity].
  now apply set_mem_in in E.
Qed.

(** The entries of a node, one after the other. *)
Lemma parse_entries d c base L head es_todo :
  Forall (fun e : string * item =>
            match snd e with
            | Sub t' =>
                tree_ok t' = true ->
                values_ok py_float literal_eval t' = true ->
                reads_tree py_float literal_eval t'
            | Leaf _ _ => True
            end) es_todo ->
  forall es_done n p st,
    c < L -> L <= List.length st ->
    ready d c base p -> filled L st c head es_done ->
    distinct (map fst (es_done ++ es_todo)) = true ->
    forallb entry_ok es_todo = true ->
    forallb (entry_reads py_float literal_eval) es_todo = true ->
    exists st' p',
      parse py_float literal_eval n (flat_map (entry_lines d) es_todo) p st
        = (st', Val p')
      /\ ready d c base p' /\ frame c st st'
      /\ filled L st' c head (es_done ++ es_todo).
Proof.
  induction es_todo as [|[k it] es_todo IH];
    intros Hsub es_done n p st HcL HL Hready Hfilled Hdist Hok Hreads.
  { exists st, p. rewrite app_nil_r. repeat split; auto. }
  inversion Hsub as [|? ? Hit Hsub']; subst. cbn [snd] in Hit.
  cbn [forallb] in Hok. apply andb_true_iff in Hok as [Hentry Hok].
  cbn [forallb] in Hreads. apply andb_true_iff in Hreads as [Hread Hreads].
  unfold entry_reads in Hread. cbn [snd] in Hread.
  unfold entry_ok in Hentry. cbn [fst snd] in Hentry.
  apply andb_true_iff in Hentry as [Hk Hentry].
  destruct Hfilled as (nd & Hnd & Hf & Hmod & Hord & Hes & Hsec).
  assert (Hnew : ~ In k (map fst es_done)).
  { rewrite map_app in Hdist. cbn [map fst] in Hdist.
    now apply distinct_app_inv in Hdist. }
  assert (Hfree : dict_has (data nd) k = false).
  { rewrite dict_has_keys, (rep_entries_keys _ _ _ _ Hes).
    now apply not_in_set_mem. }
  assert (Hnosec : has_section nd k = false).
  { destruct (has_section nd k) eqn:E; [|reflexivity]. now apply Hsec in E. }
  assert (Hdist' : distinct (map fst ((es_done ++ [(k, it)]) ++ es_todo)) = true)
    by now rewrite <- app_assoc.
  assert (Hlen : c < List.length st) by (apply nth_error_Some; congruence).
  cbn [flat_map]. unfold entry_lines at 1. cbn [fst snd].
  destruct it as [v0 after|t'].
  - (* a value and the comments after it *)
    apply andb_true_iff in Hentry as [Htext Hentry].
    set (nd1 := bind_key nd k v0).
    set (st1 := list_set st c nd1).
    set (p1 := mkParser None ((d * indent_spaces, c) :: base)).
    rewrite <- app_comm_cons.
    rewrite (parse_cons _ _ _ _ _ _ _ _ _
               (parse_line_value d c base p st nd k v0 Hready Hnd Hf Hmod Hk Hfree
                                 Htext Hread)).
    fold nd1 st1 p1.
    assert (Hn1 : nth_error st1 c = Some nd1)
      by apply (nth_error_set_same _ _ _ _ Hnd).
    destruct (parse_comments py_float literal_eval after (n + 1) p1 st1 c nd1
                Hentry eq_refl Hn1 Hf)
      as (st2 & nd2 & Hp2 & Hlen2 & Hother & Hn2 & Hf2 & Hm2 & Hd2 & Hs2 & Ho2).
    rewrite (parse_app _ _ _ _ _ _ _ _ _ Hp2).
    assert (Hsame : forall i, i <> c -> nth_error st2 i = nth_error st i).
    { intros i Hi. rewrite (Hother i Hi). now apply nth_error_set_other. }
    assert (Hlen' : List.length st2 = List.length st)
      by (rewrite Hlen2; apply length_list_set).
    destruct (IH Hsub' (es_done ++ [(k, Leaf v0 after)])
                (n + 1 + List.length (comment_lines after)) p1 st2)
      as (st' & p' & Hp' & Hready' & Hframe' & Hfilled'); try assumption.
    + lia.
    + right. exists []. split; [reflexivity|constructor].
    + exists nd2. split; [exact Hn2|]. split; [exact Hf2|].
      split; [now rewrite Hm2|].
      split. { rewrite Ho2, flat_order_snoc. unfold nd1. cbn.
               rewrite Hord. now rewrite <- app_assoc. }
      split.
      * rewrite Hd2. unfold nd1. cbn. rewrite (dict_set_new _ _ _ Hfree).
        apply rep_entries_snoc.
        -- eapply rep_entries_impl; [|exact Hes].
           apply Forall_forall. intros [k0 it0] _. cbn [fst snd].
           split. { unfold has_section. now rewrite Hs2. }
           destruct it0; [exact I|]. intros c'. apply rep_frame.
           intros i Hi _. apply Hsame. lia.
        -- split; [reflexivity|]. unfold has_section. rewrite Hs2. exact Hnosec.
      * intros k0 Hk0. unfold has_section in Hk0. rewrite Hs2 in Hk0.
        rewrite map_app. apply in_or_app. left. now apply Hsec.
    + exists st', p'. rewrite <- app_assoc in Hfilled'.
      split; [exact Hp'|]. split; [exact Hready'|]. split; [|exact Hfilled'].
      apply (frame_trans _ _ st2); [|exact Hframe'].
      split; [lia|]. intros i Hi _. now apply Hsame.
  - (* a section and what it holds *)
    set (c' := List.length st).
    set (nd1 := with_section (bind_key nd k (PConf c')) k).
    set (child := child_node c nd k None).
    set (st1 := list_set (st ++ [child]) c nd1).
    set (p1 := mkParser (Some c') ((d * indent_spaces, c) :: base)).
    rewrite <- app_comm_cons.
    rewrite (parse_cons _ _ _ _ _ _ _ _ _
               (parse_line_section d c base p st nd k Hready Hnd Hf Hk Hfree Hnosec)).
    fold c' nd1 child st1 p1.
    assert (Hlen1 : List.length st1 = S (List.length st)).
    { unfold st1. rewrite length_list_set, length_app. cbn. lia. }
    assert (Hn1 : nth_error st1 c = Some nd1).
    { apply (nth_error_set_same _ _ nd). now apply nth_error_snoc_old. }
    assert (Hchild : nth_error st1 c' = Some child).
    { unfold st1. rewrite nth_error_set_other by (unfold c'; lia).
      apply nth_error_snoc_new. }
    assert (Hframe1 : frame c st st1).
    { split; [lia|]. intros i Hi Hlt. unfold st1.
      rewrite nth_error_set_other by auto. now apply nth_error_app1. }
    destruct (Hit Hentry Hread (S d) c' ((d * indent_spaces, c) :: base) p1 st1
                (n + 1) child)
      as (st2 & p2 & Hp2 & Hready2 & Hframe2 & Hrep2).
    { left. split; [reflexivity|]. split; [reflexivity|].
      exists (d * indent_spaces), c, base. split; [reflexivity|].
      unfold indent_spaces. lia. }
    { reflexivity. }
    { exact Hchild. }
    { repeat split. }
    rewrite (parse_app _ _ _ _ _ _ _ _ _ Hp2).
    assert (Hframe : frame c st st2).
    { apply (frame_child _ _ st1); [exact Hframe1|lia|exact Hframe2]. }
    assert (Hn2 : nth_error st2 c = Some nd1).
    { destruct Hframe2 as [_ H]. rewrite H; [exact Hn1|unfold c'; lia|lia]. }
    destruct (IH Hsub' (es_done ++ [(k, Sub t')])
                (n + 1 + List.length (lines_of (S d) t')) p2 st2)
      as (st' & p' & Hp' & Hready' & Hframe' & Hfilled'); try assumption.
    + destruct Hframe as [H _]. lia.
    + right. now apply (ready_below _ _ c').
    + exists nd1. split; [exact Hn2|]. split; [exact Hf|].
      split; [exact Hmod|].
      split. { rewrite flat_order_snoc. unfold nd1. cbn. now rewrite Hord. }
      split.
      * change (data nd1) with (dict_set (data nd) k (PConf c')).
        rewrite (dict_set_new _ _ _ Hfree).
        apply rep_entries_snoc.
        -- eapply rep_entries_impl; [|exact Hes].
           apply Forall_forall. intros [k0 it0] Hin. cbn [fst snd].
           split.
           { unfold has_section.
             change (sections nd1) with (set_add (sections nd) k).
             rewrite set_mem_add.
             destruct (String.eqb_spec k0 k) as [->|_]; [|reflexivity].
             exfalso. apply Hnew. change k with (fst (k, it0)). now apply in_map. }
           destruct it0; [exact I|]. intros c0. apply rep_frame.
           intros i Hi Hlt. destruct Hframe as [_ H]. apply H; lia.
        -- split. { unfold has_section.
                    change (sections nd1) with (set_add (sections nd) k).
                    rewrite set_mem_add. now rewrite String.eqb_refl. }
           exists c'. split; [reflexivity|].
           eapply rep_weaken; [|exact Hrep2]. cbn. intros i [->|Hi]; unfold c'; lia.
      * intros k0 Hk0. unfold has_section in Hk0.
        change (sections nd1) with (set_add (sections nd) k) in Hk0.
        rewrite set_mem_add in Hk0. rewrite map_app. apply in_or_app.
        destruct (String.eqb_spec k0 k) as [Heq|_].
        -- right. left. now rewrite Heq.
        -- left. now apply Hsec.
    + exists st', p'. rewrite <- app_assoc in Hfilled'.
      split; [exact Hp'|]. split; [exact Hready'|]. split; [|exact Hfilled'].
      now apply (frame_trans _ _ st2).
Qed.

(** The parser reads back the lines of every well-formed tree. *)
Lemma parse_tree t :
  tree_ok t = true -> values_ok py_float literal_eval t = true ->
  reads_tree py_float literal_eval t.
Proof.
  induction t as [head es IH] using tree_nested_ind.
  intros Hok Hvalues d c base p st n nd Hready Hcur Hnd
         (Hf & Hmod & Hdata & Hord & Hsec).
  cbn [values_ok] in Hvalues.
  cbn [tree_ok] in Hok. apply andb_true_iff in Hok as [Hok Hall].
  apply andb_true_iff in Hok as [Hhead Hdist].
  assert (Hlen : c < List.length st) by (apply nth_error_Some; congruence).
  rewrite lines_of_eq.
  destruct (parse_comments py_float literal_eval head n p st c nd
              Hhead Hcur Hnd Hf)
    as (st1 & nd1 & Hp1 & Hlen1 & Hother & Hn1 & Hf1 & Hm1 & Hd1 & Hs1 & Ho1).
  rewrite (parse_app _ _ _ _ _ _ _ _ _ Hp1).
  destruct (parse_entries d c base (List.length st) head es IH []
              (n + List.length (comment_lines head)) p st1)
    as (st' & p' & Hp' & Hready' & Hframe' & Hfilled'); try assumption.
  - lia.
  - exists nd1. split; [exact Hn1|]. split; [exact Hf1|].
    split; [now rewrite Hm1|].
    split. { rewrite Ho1, Hord. unfold flat_order. cbn. now rewrite app_nil_r. }
    split. { rewrite Hd1, Hdata. exact I. }
    intros k Hk. unfold has_section in Hk. rewrite Hs1, Hsec in Hk. discriminate.
  - exists st', p'. split; [exact Hp'|]. split; [exact Hready'|].
    split.
    + apply (frame_trans _ _ st1); [|exact Hframe'].
      split; [lia|]. intros i Hi _. now apply Hother.
    + now apply filled_rep.
Qed.

End ParseEntries.

(* ------------------------------------------------------------------ *)
(** ** The lines of a text *)

Lemma split_lines_line body rest :
  str_forallb not_newline body = true ->
  split_lines ((body ++ line_break) ++ rest) =
    (body ++ line_break)%string :: split_lines rest.
Proof.
  induction body as [|c body IH]; intros H.
  - reflexivity.
  - cbn [str_forallb] in H. apply andb_true_iff in H as [Hc Hb].
    unfold not_newline in Hc. apply negb_true_iff in Hc.
    cbn [String.append split_lines]. rewrite Hc.
    change (String.append (String.append body line_break) rest)
      with ((body ++ line_break) ++ rest)%string.
    now rewrite (IH Hb).
Qed.

Lemma split_lines_join ls : Forall is_line ls -> split_lines (join ls) = ls.
Proof.
  induction ls as [|l ls IH]; intros H; [reflexivity|].
  inversion H as [|? ? (body & -> & Hbody) Hls]; subst.
  unfold join. cbn [fold_right]. fold (join ls).
  now rewrite (split_lines_line _ _ Hbody), (IH Hls).
Qed.

Lemma comment_lines_are_lines cs :
  forallb is_plain_comment cs = true -> Forall is_line (comment_lines cs).
Proof.
  induction cs as [|c cs IH]; intros H; cbn; [constructor|].
  cbn in H. apply andb_true_iff in H as [Hc Hcs].
  constructor; [|now apply IH].
  exists c. split; [reflexivity|now apply plain_comment_no_newline].
Qed.

Lemma spaces_no_newline n : str_forallb not_newline (spaces n) = true.
Proof. induction n as [|n IH]; cbn; [reflexivity|exact IH]. Qed.

Lemma ident_no_newline k :
  is_ident k = true -> str_forallb not_newline k = true.
Proof.
  intros Hk. apply ident_shape in Hk as (_ & _ & _ & _ & Hchars & _).
  eapply str_forallb_impl; [|exact Hchars].
  intros c Hc. apply nonspace_not_newline.
  apply name_char_facts in Hc as (_ & Hs & _). now rewrite Hs.
Qed.

Lemma value_line_is_line d k s :
  is_ident k = true -> str_forallb not_newline s = true ->
  is_line (value_line d k s).
Proof.
  intros Hk Hs. exists (spaces (d * indent_spaces) ++ k ++ " = " ++ s)%string.
  split. { unfold value_line. now rewrite !str_app_assoc. }
  rewrite !str_forallb_app, spaces_no_newline, (ident_no_newline _ Hk).
  cbn. exact Hs.
Qed.

Lemma section_line_is_line d k :
  is_ident k = true -> is_line (section_line d k).
Proof.
  intros Hk. exists (spaces (d * indent_spaces) ++ k ++ ":")%string.
  split. { unfold section_line. now rewrite !str_app_assoc. }
  now rewrite !str_forallb_app, spaces_no_newline, (ident_no_newline _ Hk).
Qed.

Lemma lines_of_are_lines t :
  tree_ok t = true -> forall d, Forall is_line (lines_of d t).
Proof.
  induction t as [head es IH] using tree_nested_ind. intros Hok d.
  cbn [tree_ok] in Hok. apply andb_true_iff in Hok as [Hok Hall].
  apply andb_true_iff in Hok as [Hhead _].
  rewrite lines_of_eq. apply Forall_app. split.
  - now apply comment_lines_are_lines.
  - rewrite forallb_forall in Hall. rewrite Forall_forall in IH.
    apply Forall_forall. intros l Hl.
    apply in_flat_map in Hl as ([k it] & Hin & Hl).
    specialize (Hall _ Hin). specialize (IH _ Hin). cbn [fst snd] in *.
    apply andb_true_iff in Hall as [Hk Hit].
    unfold entry_lines in Hl. cbn [fst snd] in Hl.
    destruct it as [v0 after|t'].
    + apply andb_true_iff in Hit as [Htext Hit].
      destruct (has_text_shape v0 Htext) as (_ & Hline & _).
      destruct (value_text_shape _ Hline) as (x & xs & _ & _ & Hnl).
      destruct Hl as [<-|Hl]; [now apply value_line_is_line|].
      pose proof (comment_lines_are_lines _ Hit) as Hc.
      rewrite Forall_forall in Hc. now apply Hc.
    + destruct Hl as [<-|Hl]; [now apply section_line_is_line|].
      specialize (IH Hit (S d)). rewrite Forall_forall in IH. now apply IH.
Qed.

Lemma split_lines_text t :
  tree_ok t = true -> split_lines (text_of t) = lines_of 0 t.
Proof.
  intros Hok. apply split_lines_join. now apply lines_of_are_lines.
Qed.

(* ------------------------------------------------------------------ *)
(** ** Trees held twice *)

Lemma same_tree_rep (P Q : node_id -> Prop) st st' t :
  tree_ok t = true ->
  forall fuel c c',
    tree_depth t <= fuel -> rep P st t c -> rep Q st' t c' ->
    same_tree fuel st c st' c'.
Proof.
  induction t as [head es IH] using tree_nested_ind.
  intros Hok fuel c c' Hfuel (_ & nd & Hnd & _ & Hlive & Hes)
         (_ & nd' & Hnd' & _ & Hlive' & Hes').
  destruct fuel as [|f]; [cbn in Hfuel; lia|].
  cbn [tree_ok] in Hok. apply andb_true_iff in Hok as [Hok Hall].
  apply andb_true_iff in Hok as [_ Hdist].
  cbn [same_tree]. rewrite Hnd, Hnd'.
  assert (Hentry : forall k, dict_has (data nd) k = true ->
                             exists it, In (k, it) es).
  { intros k Hk. rewrite dict_has_keys, (rep_entries_keys _ _ _ _ Hes) in Hk.
    apply set_mem_in, in_map_iff in Hk as ([k0 it] & Heq & Hin).
    cbn in Heq. subst. eauto. }
  split.
  { intros k. now rewrite !dict_has_keys, (rep_entries_keys _ _ _ _ Hes),
                (rep_entries_keys _ _ _ _ Hes'). }
  split.
  { intros k Hk. destruct (Hentry k Hk) as (it & Hin).
    destruct (rep_entries_lookup _ _ _ _ _ _ Hes Hdist Hin) as (v & _ & Hv).
    destruct (rep_entries_lookup _ _ _ _ _ _ Hes' Hdist Hin) as (v' & _ & Hv').
    destruct it; [destruct Hv as [_ ->], Hv' as [_ ->]; reflexivity|].
    destruct Hv as [-> _], Hv' as [-> _]. reflexivity. }
  split; [|now rewrite Hlive, Hlive'].
  intros k v v' Hv Hv'.
  assert (Hk : dict_has (data nd) k = true) by (unfold dict_has; now rewrite Hv).
  destruct (Hentry k Hk) as (it & Hin).
  destruct (rep_entries_lookup _ _ _ _ _ _ Hes Hdist Hin) as (v0 & Hv0 & Hit).
  destruct (rep_entries_lookup _ _ _ _ _ _ Hes' Hdist Hin) as (v0' & Hv0' & Hit').
  rewrite Hv in Hv0. rewrite Hv' in Hv0'. inversion Hv0; inversion Hv0'; subst.
  rewrite forallb_forall in Hall. specialize (Hall _ Hin). cbn [fst snd] in Hall.
  apply andb_true_iff in Hall as [_ Hok'].
  destruct it as [v1 after|t'].
  - destruct Hit as [-> _], Hit' as [-> _].
    apply andb_true_iff in Hok' as [Htext _].
    destruct v1; try discriminate Htext; reflexivity.
  - destruct Hit as (_ & c0 & -> & Hc0), Hit' as (_ & c0' & -> & Hc0').
    rewrite Forall_forall in IH.
    specialize (IH _ Hin). cbn [fst snd] in *.
    apply IH; try assumption.
    cbn [tree_depth] in Hfuel.
    assert (tree_depth t' <=
            fold_right Nat.max 0
              (map (fun e : string * item =>
                      match snd e with
                      | Leaf _ _ => 0
                      | Sub t'0 => tree_depth t'0
                      end) es)).
    { apply fold_max_le.
      change (tree_depth t') with
        ((fun e : string * item =>
            match snd e with Leaf _ _ => 0 | Sub t'0 => tree_depth t'0 end)
           (k, Sub t')).
      now apply in_map. }
    lia.
Qed.

(** [loads] of the text of a tree into a fresh root leaves the tree there. *)
Lemma loads_tree py_float literal_eval t :
  tree_ok t = true -> values_ok py_float literal_eval t = true ->
  exists st',
    loads py_float literal_eval 0 (text_of t) init_store = (st', Val tt)
    /\ holds_tree st' 0 t.
Proof.
  intros Hok Hvalues.
  destruct (parse_tree py_float literal_eval t Hok Hvalues 0 0 []
              (mkParser None [(0, 0)]) init_store 0 empty_root)
    as (st' & p' & Hp & _ & _ & Hrep).
  - right. exists []. split; [reflexivity|constructor].
  - reflexivity.
  - reflexivity.
  - repeat split.
  - exists st'. split.
    + unfold loads, load. rewrite (split_lines_text _ Hok).
      erewrite bind_val by reflexivity. erewrite bind_val by reflexivity.
      erewrite bind_val by exact Hp. reflexivity.
    + eapply rep_weaken; [|exact Hrep]. auto.
Qed.

(* ------------------------------------------------------------------ *)
(** ** The round trip through the text *)

(** C1 as the specification words it does not hold: [cfg.a = "5"] is
    dumped as the line [a = 5], which [_convert_from_string] reads back as
    the integer [5], so the stored values differ. *)
Lemma round_trip_counterexample : ~ round_trip.
Proof.
  intros H.
  set (st := fst (set_value (PStr "5") 0 (KStr "a") init_store)).
  set (text := ("a = 5" ++ line_break)%string).
  set (st' := fst (loads (fun _ => None) (fun _ => None) 0 text init_store)).
  destruct (H (fun _ => None) (fun _ => None) st 1 text st') as [f Hf].
  - apply (@built_set init_store (PStr "5") 0 (KStr "a") st (Val tt) built_init).
    vm_compute. reflexivity.
  - vm_compute. reflexivity.
  - vm_compute. reflexivity.
  - destruct f as [|f]; [exact Hf|].
    vm_compute in Hf. destruct Hf as (_ & _ & Hv & _).
    specialize (Hv "a" (PStr "5") (PInt 5) eq_refl eq_refl).
    discriminate Hv.
Qed.

(** C1, amended.  A node that holds a well-formed tree makes the round
    trip: bound keys that are identifiers of the text format, each bound
    once in [__order__], values that are read back from their text as
    themselves (the text has no newline and no white space at its start;
    every integer is such a value, and so is a string that [int], [float]
    and [literal_eval] reject), sections without modifier, and comments of
    one line that start with [#] or are blank, none of them recorded
    between the opening of a section and the next key of its owner.
    [dumps] returns the text of the tree, and [loads] of this text into a
    fresh root returns and leaves an equivalent tree there: the same keys,
    values, sections and comment placement at every level. *)
Theorem round_trip_of_readable_trees py_float literal_eval st n t fuel :
  holds_tree st n t -> tree_ok t = true ->
  values_ok py_float literal_eval t = true -> tree_depth t <= fuel ->
  dumps fuel st n = Val (text_of t)
  /\ exists st',
      loads py_float literal_eval 0 (text_of t) init_store = (st', Val tt)
      /\ holds_tree st' 0 t
      /\ same_tree fuel st n st' 0.
Proof.
  intros Hrep Hok Hvalues Hfuel. split; [now apply dumps_tree|].
  destruct (loads_tree py_float literal_eval t Hok Hvalues)
    as (st' & Hloads & Hrep').
  exists st'. split; [exact Hloads|]. split; [exact Hrep'|].
  now apply (same_tree_rep _ _ _ _ t Hok fuel n 0 Hfuel Hrep Hrep').
Qed.

Lemma round_trip_of_readable_trees_witness :
  built sample_store
  /\ dumps 2 sample_store 0 = Val (text_of sample_tree)
  /\ exists st',
      loads (fun _ => None) (fun _ => None) 0 (text_of sample_tree) init_store
        = (st', Val tt)
      /\ holds_tree st' 0 sample_tree
      /\ same_tree 2 sample_store 0 st' 0.
Proof.
  split.
  - eapply (@built_set _ (PStr "new val") 1 (KStr "c") _ (Val tt)).
    + eapply (@built_set _ (PInt (-7)) 1 (KStr "b") _ (Val tt)).
      * eapply (@built_section _ 0 (KStr "s") None _ (Val 1)).
        -- eapply (@built_comment _ 0 "# after a" _ (Val tt)).
           ++ eapply (@built_set _ (PInt 5) 0 (KStr "a") _ (Val tt)).
              ** eapply (@built_comment _ 0 "# top" _ (Val tt)).
                 --- exact built_init.
                 --- reflexivity.
              ** reflexivity.
           ++ reflexivity.
        -- reflexivity.
      * reflexivity.
    + reflexivity.
  - apply (round_trip_of_readable_trees (fun _ => None) (fun _ => None)
             sample_store 0 sample_tree 2).
    + unfold holds_tree. vm_compute.
      repeat first [exact I | reflexivity | split | eexists].
    + vm_compute. reflexivity.
    + vm_compute. reflexivity.
    + cbn. lia.
Defined.

(* ------------------------------------------------------------------ *)
(** ** What a call can do to the store *)

Lemma moves_trans st st1 st2 : moves st st1 -> moves st1 st2 -> moves st st2.
Proof.
  induction 1 as [|st st0 st1 Hs Hm IH]; intros H2; [exact H2|].
  eapply moves_step; [exact Hs|]. now apply IH.
Qed.

Lemma moves_node st n nd nd' :
  nth_error st n = Some nd -> node_step nd nd' -> moves st (list_set st n nd').
Proof.
  intros Hn Hs. eapply moves_step; [|apply moves_refl]. now apply (@step_node st n nd).
Qed.

Lemma pres_ret {A} (a : A) : pres (ret a).
Proof. intros st st' r H. inversion H; subst. apply moves_refl. Qed.

Lemma pres_raise {A} e : pres (@raise A e).
Proof. intros st st' r H. inversion H; subst. apply moves_refl. Qed.

Lemma pres_stuck {A} w : pres (@stuck A w).
Proof. intros st st' r H. inversion H; subst. apply moves_refl. Qed.

Lemma pres_lift {A} (x : res A) : pres (lift x).
Proof. intros st st' r H. inversion H; subst. apply moves_refl. Qed.

Lemma pres_bind {A B} (m : M A) (k : A -> M B) :
  pres m -> (forall a, pres (k a)) -> pres (bind m k).
Proof.
  intros Hm Hk st st' r H. bind_cases H.
  - eapply moves_trans; [eapply Hm|eapply Hk]; eassumption.
  - eapply Hm; eassumption.
  - eapply Hm; eassumption.
Qed.

Lemma pres_try {A} (m : M A) h :
  pres m -> (forall e, pres (h e)) -> pres (try_except m h).
Proof.
  intros Hm Hh st st' r H. unfold try_except in H.
  destruct (m st) as [st1 [a|e|w]] eqn:E.
  - inversion H; subst. eapply Hm; eassumption.
  - eapply moves_trans; [eapply Hm|eapply Hh]; eassumption.
  - inversion H; subst. eapply Hm; eassumption.
Qed.

(** The continuation of [get_node] runs in a store that has the node. *)
Lemma pres_get_node {A} n (k : node -> M A) :
  (forall nd st st' r,
      nth_error st n = Some nd -> k nd st = (st', r) -> moves st st') ->
  pres (bind (get_node n) k).
Proof.
  intros Hk st st' r H. unfold bind, get_node in H.
  destruct (nth_error st n) as [nd|] eqn:Hn.
  - eapply Hk; eassumption.
  - inversion H; subst. apply moves_refl.
Qed.

Lemma pres_key {A} key (body : string -> M A) :
  (forall k, key_transform key = Val k -> pres (body k)) ->
  pres (bind (lift (key_transform key)) body).
Proof.
  intros Hk st st' r H. unfold bind, lift in H.
  destruct (key_transform key) as [k|e|w] eqn:E.
  - eapply Hk; eauto.
  - inversion H; subst. apply moves_refl.
  - inversion H; subst. apply moves_refl.
Qed.

(** What follows the guard of a mutator runs on a node open to writes. *)
Lemma pres_guard {A} n f (k : M A) :
  (forall nd st st' r,
      nth_error st n = Some nd -> frozen nd = false ->
      k st = (st', r) -> moves st st') ->
  pres (bind (guard n f) (fun _ => k)).
Proof.
  intros Hk st st' r H. bind_cases H.
  - apply guard_inv in Hm as [-> Hm].
    destruct (nth_error st n) as [nd|] eqn:Hn; [|discriminate].
    destruct (frozen nd) eqn:Hf; [discriminate|]. eapply Hk; eassumption.
  - apply guard_inv in Hm as [-> _]. apply moves_refl.
  - apply guard_inv in Hm as [-> _]. apply moves_refl.
Qed.

Lemma pres_add_comment n text : pres (add_comment n text).
Proof.
  unfold add_comment. apply pres_guard. intros nd st st' r Hn Hf H.
  rewrite (bind_val _ _ _ _ _ (get_node_ok _ _ _ Hn)) in H.
  inversion H; subst. apply (moves_node _ _ _ _ Hn). now constructor.
Qed.

Lemma pres_set_modifier n name : pres (set_modifier n name).
Proof.
  unfold set_modifier. apply pres_guard. intros nd st st' r Hn Hf H.
  rewrite (bind_val _ _ _ _ _ (get_node_ok _ _ _ Hn)) in H.
  inversion H; subst. apply (moves_node _ _ _ _ Hn). now constructor.
Qed.

Lemma pres_clear n : pres (clear n).
Proof.
  intros st st' r H. destruct (nth_error st n) as [nd|] eqn:Hn.
  - rewrite (clear_eq _ _ _ Hn) in H. destruct (frozen nd) eqn:Hf;
      inversion H; subst; [apply moves_refl|].
    apply (moves_node _ _ _ _ Hn). now constructor.
  - unfold clear in H. rewrite (bind_stuck _ _ _ _ _ (guard_dangling _ _ _ Hn)) in H.
    inversion H; subst. apply moves_refl.
Qed.

Lemma pres_delitem n key : pres (delitem n key).
Proof.
  unfold delitem, delitem_body. apply pres_key. intros k Hk.
  apply pres_get_node. intros nd st st' r Hn H.
  destruct (dict_has (data nd) k) eqn:Hd.
  - inversion H; subst. apply (moves_node _ _ _ _ Hn).
    now apply (@step_delete nd k).
  - inversion H; subst. apply moves_refl.
Qed.

Lemma pres_call_delitem n key : pres (call_delitem n key).
Proof.
  unfold call_delitem. apply pres_bind; [|intros _; apply pres_delitem].
  intros st st' r H. apply guard_inv in H as [-> _]. apply moves_refl.
Qed.

Lemma pres_add_section n key ty : pres (add_section n key ty).
Proof.
  intros st st' r H. destruct (nth_error st n) as [nd|] eqn:Hn.
  - rewrite (add_section_eq _ _ _ _ _ Hn) in H.
    destruct (frozen nd) eqn:Hf; [inversion H; subst; apply moves_refl|].
    destruct (key_transform key) as [k|e|w] eqn:Hk;
      [|inversion H; subst; apply moves_refl..].
    destruct (meta_has nd k) eqn:Hmeta; [inversion H; subst; apply moves_refl|].
    destruct (has_section nd k); [inversion H; subst; apply moves_refl|].
    destruct (dict_has (data nd) k) eqn:Hd; inversion H; subst;
      [apply moves_refl|].
    pose proof (nth_error_snoc_old _ (child_node n nd k ty) _ _ Hn) as Hn1.
    apply (@moves_step _ (st ++ [child_node n nd k ty])).
    { apply step_new. repeat split; cbn. exists nd. now split. }
    set (st1 := st ++ [child_node n nd k ty]) in *.
    set (nd1 := bind_key nd k (PConf (List.length st))).
    apply (@moves_step _ (list_set st1 n nd1)).
    { apply (@step_node _ n nd nd1 Hn1).
      constructor; [exact Hf| |exact Hd].
      eapply key_ok_of_transform; eassumption. }
    replace (list_set st1 n (with_section nd1 k))
      with (list_set (list_set st1 n nd1) n (with_section nd1 k))
      by apply list_set_twice.
    apply (moves_node _ n nd1).
    + now apply (nth_error_set_same _ _ nd).
    + constructor; [exact Hf|]. eapply key_ok_of_transform; eassumption.
  - unfold add_section in H.
    rewrite (bind_stuck _ _ _ _ _ (guard_dangling _ _ _ Hn)) in H.
    inversion H; subst. apply moves_refl.
Qed.

Lemma pres_set_value value : forall m key, pres (set_value value m key).
Proof.
  induction value using pyval_nested_ind; intros m key;
    (intros st st' r E;
     destruct (nth_error st m) as [nd|] eqn:Hn;
     [ rewrite (set_value_eq _ _ _ _ _ Hn) in E
     | rewrite (set_value_dangling _ _ _ _ Hn) in E;
       inversion E; subst; apply moves_refl ];
     destruct (frozen nd) eqn:Hf; [inversion E; subst; apply moves_refl|];
     destruct (key_transform key) as [k|e|w] eqn:Hk;
     [|inversion E; subst; apply moves_refl..];
     destruct (get_modifier nd); [inversion E; subst; apply moves_refl|];
     destruct (meta_has nd k) eqn:Hmeta; [inversion E; subst; apply moves_refl|];
     destruct (dict_has (data nd) k) eqn:Hd;
     [inversion E; subst; apply moves_refl|]);
    try (rewrite (update_data_eq _ _ _ _ _ Hn), Hf in E; inversion E; subst;
         apply (moves_node _ _ _ _ Hn);
         constructor; [exact Hf| |exact Hd];
         eapply key_ok_of_transform; eassumption).
  - revert E. apply pres_bind; [apply pres_add_section|]. intros sec.
    generalize 0%Z. induction H as [|v l Hv Hl IH]; intros z; cbn [set_elems].
    + apply pres_ret.
    + apply pres_bind; [apply Hv|]. intros _. apply IH.
  - revert E. apply pres_bind; [apply pres_add_section|]. intros sec.
    generalize 0%Z. induction H as [|v l Hv Hl IH]; intros z; cbn [set_elems].
    + apply pres_ret.
    + apply pres_bind; [apply Hv|]. intros _. apply IH.
  - revert E. apply pres_bind; [apply pres_add_section|]. intros sec.
    induction H as [|[k' v] l Hv Hl IH]; cbn [set_items].
    + apply pres_ret.
    + apply pres_bind; [apply Hv|]. intros _. apply IH.
Qed.

Lemma pres_same {A} (m : M A) :
  (forall st st' r, m st = (st', r) -> st' = st) -> pres m.
Proof. intros Hm st st' r H. apply Hm in H as ->. apply moves_refl. Qed.

Lemma pres_guard_only n f : pres (guard n f).
Proof. apply pres_same. intros st st' r H. now apply guard_inv in H. Qed.

Lemma pres_get_value n key : pres (get_value n key).
Proof. apply pres_same. intros st st' r. apply get_value_store. Qed.

Lemma pres_contains n key : pres (contains n key).
Proof.
  unfold contains. apply pres_bind; [apply pres_lift|]. intros k.
  apply pres_bind; [|intros nd; apply pres_ret].
  apply pres_same. intros st st' r H. now apply get_node_inv in H.
Qed.

Lemma pres_get_section n key : pres (get_section n key).
Proof.
  unfold get_section. apply pres_key. intros k Hk.
  apply pres_get_node. intros nd st st' r _.
  destruct (set_mem (sections nd) k).
  { destruct (dict_get (data nd) k); [apply pres_ret|apply pres_raise]. }
  destruct (meta_has nd k); [apply pres_raise|].
  destruct (dict_has (data nd) k); [apply pres_raise|].
  apply pres_bind; [apply pres_add_section|]. intros c. apply pres_ret.
Qed.

Lemma pres_py_contains v key : pres (py_contains v key).
Proof.
  destruct v; cbn [py_contains]; try apply pres_raise.
  - destruct key; [apply pres_ret|apply pres_raise].
  - apply pres_contains.
Qed.

Lemma pres_globals_walk get n key :
  (forall c k, pres (get c k)) ->
  forall g conf, pres (globals_walk get n key g conf).
Proof.
  intros Hget. induction g as [|g IH]; intros [c|]; cbn [globals_walk];
    try apply pres_get_section; [apply pres_stuck|].
  apply pres_get_node. intros cnd st st' r _.
  destruct (has_section cnd "globals"); [|apply IH].
  apply pres_bind; [apply Hget|]. intros gl.
  apply pres_bind; [apply pres_py_contains|]. intros [|]; [|apply IH].
  apply pres_bind; [apply Hget|]. intros gl'.
  destruct gl'; try apply pres_raise. apply Hget.
Qed.

Lemma pres_getitem fuel : forall n key, pres (getitem fuel n key).
Proof.
  induction fuel as [|f IH]; intros n key; [apply pres_stuck|].
  rewrite getitem_eq. apply pres_bind; [apply pres_get_value|].
  intros [v|]; [apply pres_ret|]. now apply pres_globals_walk.
Qed.

Lemma pres_freeze_sections get n freeze ss :
  (forall c k, pres (get c k)) -> (forall c, pres (freeze c)) ->
  pres (freeze_sections get n freeze ss).
Proof.
  intros Hget Hfreeze. induction ss as [|s ss IH]; cbn [freeze_sections];
    [apply pres_ret|].
  apply pres_bind; [apply Hget|]. intros v.
  apply pres_bind; [|intros _; exact IH].
  destruct v; try apply pres_raise. apply Hfreeze.
Qed.

Lemma pres_set_immutable fuel gfuel :
  forall n recursive from_root,
    pres (set_immutable fuel gfuel n recursive from_root).
Proof.
  induction fuel as [|f IH]; intros n recursive from_root; [apply pres_stuck|].
  rewrite set_immutable_eq. apply pres_bind; [apply pres_guard_only|]. intros _.
  apply pres_get_node. intros nd st st' r Hn.
  destruct (from_root && negb (Nat.eqb n (root nd))); [apply IH|].
  intros H.
  assert (Hput : put_node n (with_frozen nd true) st =
                   (list_set st n (with_frozen nd true), Val tt)) by reflexivity.
  rewrite (bind_val _ _ _ _ _ Hput) in H.
  apply (moves_trans _ (list_set st n (with_frozen nd true))).
  { apply (moves_node _ _ _ _ Hn). constructor. }
  revert H. destruct recursive; [|apply pres_ret].
  apply pres_freeze_sections; [intros c k; apply pres_getitem|intros c; apply IH].
Qed.

Lemma pres_setdefault n key default : pres (setdefault n key default).
Proof. apply pres_same. intros st st' r. apply setdefault_store. Qed.

Lemma pres_parse_line pf le line p : pres (parse_line pf le line p).
Proof.
  unfold parse_line. destruct (match_all_lines line) as [[indent k kind|c]|];
    [| |apply pres_raise].
  - apply pres_bind; [apply pres_lift|]. intros p'. destruct kind.
    + apply pres_bind; [apply pres_lift|]. intros conf.
      apply pres_bind; [apply pres_add_section|]. intros c. apply pres_ret.
    + apply pres_bind; [apply pres_lift|]. intros conf.
      apply pres_bind; [apply pres_set_value|]. intros _. apply pres_ret.
  - apply pres_bind; [apply pres_lift|]. intros conf.
    apply pres_bind; [apply pres_add_comment|]. intros _. apply pres_ret.
Qed.

Lemma pres_parse pf le lines : forall n p, pres (parse pf le n lines p).
Proof.
  induction lines as [|l lines IH]; intros n p; cbn [parse]; [apply pres_ret|].
  apply pres_bind; [|intros p'; apply IH].
  apply pres_try; [apply pres_parse_line|]. intros e. apply pres_raise.
Qed.

Lemma pres_load pf le n lines : pres (load pf le n lines).
Proof.
  unfold load. apply pres_bind; [apply pres_guard_only|]. intros _.
  apply pres_bind; [apply pres_parse|]. intros _. apply pres_ret.
Qed.

Lemma pres_loads pf le n text : pres (loads pf le n text).
Proof.
  unfold loads. apply pres_bind; [apply pres_guard_only|]. intros _.
  apply pres_load.
Qed.

Lemma pres_run_op pf le fuel o : pres (run_op pf le fuel o).
Proof.
  destruct o; cbn [run_op];
    try (apply pres_bind; [|intros ?; apply pres_ret]).
  - intros st st' r H. inversion H; subst.
    eapply moves_step; [|apply moves_refl]. apply step_new. repeat split.
  - apply pres_set_value.
  - apply pres_add_section.
  - apply pres_add_comment.
  - apply pres_delitem.
  - apply pres_call_delitem.
  - apply pres_getitem.
  - apply pres_clear.
  - apply pres_set_modifier.
  - apply pres_set_immutable.
  - apply pres_setdefault.
  - apply pres_loads.
Qed.

(** Calls change a store by the steps of [store_step] only. *)
Lemma run_from_moves pf le st st' : run_from pf le st st' -> moves st st'.
Proof.
  induction 1 as [|st o fuel st1 r st2 Hop _ IH]; [apply moves_refl|].
  eapply moves_trans; [|exact IH]. eapply pres_run_op; eassumption.
Qed.

Lemma reachable_moves pf le st : reachable pf le st -> moves init_store st.
Proof.
  induction 1 as [|st o fuel st' r _ IH Hop]; [apply moves_refl|].
  eapply moves_trans; [exact IH|]. eapply pres_run_op; eassumption.
Qed.

(* ------------------------------------------------------------------ *)
(** ** Invariants of the stores a program builds *)

Lemma moves_invariant (I : store -> Prop) :
  (forall st st', store_step st st' -> I st -> I st') ->
  forall st st', moves st st' -> I st -> I st'.
Proof.
  intros Hstep st st' H. induction H as [|st st1 st2 Hs _ IH]; [auto|].
  intros HI. apply IH. now apply (Hstep st).
Qed.

Lemma node_step_meta nd nd' :
  node_step nd nd' ->
  owner nd' = owner nd /\ root nd' = root nd /\ sub_path nd' = sub_path nd
  /\ key nd' = key nd.
Proof.
  intros H. destruct H; cbn; auto.
  unfold without_key. destruct (set_mem _ _); cbn; auto.
Qed.

Lemma store_step_nth st st' i nd :
  store_step st st' -> nth_error st i = Some nd ->
  exists nd', nth_error st' i = Some nd' /\ (nd' = nd \/ node_step nd nd').
Proof.
  intros H Hi. destruct H as [st n nd0 nd1 Hn Hs|st nd0 Hnew].
  - destruct (Nat.eq_dec n i) as [->|Hne].
    + exists nd1. split; [now apply (nth_error_set_same _ _ nd0)|].
      right. congruence.
    + exists nd. split; [now rewrite nth_error_set_other|now left].
  - exists nd. split; [now apply nth_error_snoc_old|now left].
Qed.

Lemma run_from_trans pf le st st1 st2 :
  run_from pf le st st1 -> run_from pf le st1 st2 -> run_from pf le st st2.
Proof.
  induction 1 as [|st o fuel st0 r st1 Hop _ IH]; intros H2; [exact H2|].
  eapply run_call; [exact Hop|]. now apply IH.
Qed.

Lemma run_from_then pf le fuel o st st1 :
  run_from pf le st st1 ->
  run_from pf le st (fst (run_op pf le fuel o st1)).
Proof.
  intros H. apply (run_from_trans _ _ _ st1); [exact H|].
  destruct (run_op pf le fuel o st1) as [st2 r] eqn:E.
  eapply run_call; [exact E|]. apply run_none.
Qed.

(** X1.  Calls never remove a node from the store and never change what
    the constructor recorded in its [__meta__]: the [owner], the [root],
    the [sub_path] and the [key] of a node stay as they were. *)
Theorem metadata_never_changes pf le st st' i nd :
  run_from pf le st st' -> nth_error st i = Some nd ->
  exists nd',
    nth_error st' i = Some nd'
    /\ owner nd' = owner nd /\ root nd' = root nd
    /\ sub_path nd' = sub_path nd /\ key nd' = key nd.
Proof.
  intros Hrun Hi. apply run_from_moves in Hrun. revert nd Hi.
  induction Hrun as [|st st1 st2 Hs _ IH]; intros nd Hi.
  - exists nd. auto.
  - destruct (store_step_nth _ _ _ _ Hs Hi) as (nd1 & Hi1 & Hnd1).
    destruct (IH _ Hi1) as (nd2 & Hi2 & Ho & Hr & Hp & Hk).
    exists nd2. split; [exact Hi2|].
    destruct Hnd1 as [->|Hstep]; [auto|].
    apply node_step_meta in Hstep as (Ho1 & Hr1 & Hp1 & Hk1).
    repeat split; congruence.
Qed.

Lemma metadata_never_changes_witness :
  let st' := fst ((add_section 0 (KStr "s") None;;;
                   set_value (PInt 1) 1 (KStr "a");;;
                   clear 1) init_store) in
  exists nd',
    nth_error st' 0 = Some nd'
    /\ owner nd' = None /\ root nd' = 0 /\ sub_path nd' = [] /\ key nd' = None.
Proof.
  apply (metadata_never_changes (fun _ => None) (fun _ => None)
           init_store _ 0 empty_root); [|reflexivity].
  change (fst ((add_section 0 (KStr "s") None;;;
                set_value (PInt 1) 1 (KStr "a");;; clear 1) init_store))
    with (fst (run_op (fun _ => None) (fun _ => None) 0 (Clear 1)
          (fst (run_op (fun _ => None) (fun _ => None) 0
                  (SetValue 1 (KStr "a") (PInt 1))
          (fst (run_op (fun _ => None) (fun _ => None) 0
                  (AddSection 0 (KStr "s") None) init_store)))))).
  repeat apply run_from_then. apply run_none.
Defined.

Lemma dict_keys_del d k :
  distinct (dict_keys d) = true ->
  distinct (dict_keys (dict_del d k)) = true
  /\ forall k', set_mem (dict_keys (dict_del d k)) k' = true ->
                set_mem (dict_keys d) k' = true.
Proof.
  unfold dict_keys.
  induction d as [|[k0 v0] d IH]; cbn; intros Hd; [auto|].
  apply andb_true_iff in Hd as [Hk0 Hd]. destruct (IH Hd) as [IH1 IH2].
  destruct (String.eqb k0 k).
  - split; [exact Hd|]. intros k' H. unfold set_mem in *. cbn. rewrite H.
    apply orb_true_r.
  - cbn. split.
    + rewrite IH1, andb_true_r. apply negb_true_iff.
      destruct (set_mem (map fst (dict_del d k)) k0) eqn:E; [|reflexivity].
      apply IH2 in E. apply negb_true_iff in Hk0. congruence.
    + intros k' H. unfold set_mem in *. cbn in *.
      apply orb_true_iff in H as [H|H]; [now rewrite H|].
      rewrite (IH2 _ H). apply orb_true_r.
Qed.

Lemma dict_get_del d k k' v :
  distinct (dict_keys d) = true ->
  dict_get (dict_del d k) k' = Some v -> dict_get d k' = Some v.
Proof.
  induction d as [|[k0 v0] d IH]; cbn; intros Hd H; [discriminate|].
  apply andb_true_iff in Hd as [Hk0 Hd].
  destruct (String.eqb_spec k0 k) as [->|Hne].
  - destruct (String.eqb_spec k k') as [->|_]; [|exact H].
    exfalso. apply negb_true_iff in Hk0.
    assert (dict_has d k' = true) by (unfold dict_has; now rewrite H).
    rewrite dict_has_keys in H0. unfold dict_keys in Hk0. congruence.
  - cbn in H. destruct (String.eqb k0 k'); [exact H|now apply IH].
Qed.

Lemma dict_get_del_same d k :
  distinct (dict_keys d) = true -> dict_get (dict_del d k) k = None.
Proof.
  induction d as [|[k0 v0] d IH]; cbn; intros Hd; [reflexivity|].
  apply andb_true_iff in Hd as [Hk0 Hd].
  destruct (String.eqb_spec k0 k) as [->|Hne].
  - apply negb_true_iff in Hk0.
    destruct (dict_get d k) eqn:E; [|reflexivity].
    assert (dict_has d k = true) by (unfold dict_has; now rewrite E).
    rewrite dict_has_keys in H. unfold dict_keys in Hk0. congruence.
  - cbn. destruct (String.eqb_spec k0 k); [contradiction|now apply IH].
Qed.

Lemma distinct_snoc l k :
  distinct l = true -> set_mem l k = false -> distinct (l ++ [k]) = true.
Proof.
  induction l as [|x l IH]; cbn; intros Hd Hk; [reflexivity|].
  apply andb_true_iff in Hd as [Hx Hd]. unfold set_mem in *. cbn in Hk.
  apply orb_false_iff in Hk as [Hkx Hk].
  rewrite (IH Hd Hk), andb_true_r. rewrite existsb_app. cbn.
  apply negb_true_iff in Hx. rewrite Hx. cbn.
  rewrite String.eqb_sym, Hkx. reflexivity.
Qed.

Lemma node_step_distinct nd nd' :
  node_step nd nd' ->
  distinct (dict_keys (data nd)) = true ->
  distinct (dict_keys (data nd')) = true.
Proof.
  intros H Hd. destruct H; cbn; auto.
  - rewrite (dict_set_new _ _ _ H1). unfold dict_keys. rewrite map_app. cbn.
    apply distinct_snoc; [exact Hd|]. now rewrite <- dict_has_keys.
  - unfold without_key. destruct (set_mem _ _); cbn; now apply dict_keys_del.
Qed.

(** The keys of every [__data__] are distinct, as in a dict. *)
Lemma moves_distinct st st' :
  moves st st' ->
  (forall i nd, nth_error st i = Some nd ->
                distinct (dict_keys (data nd)) = true) ->
  forall i nd, nth_error st' i = Some nd ->
               distinct (dict_keys (data nd)) = true.
Proof.
  apply (moves_invariant
           (fun st => forall i nd, nth_error st i = Some nd ->
                                   distinct (dict_keys (data nd)) = true)).
  clear st st'. intros st st' Hs Hst i nd Hi.
  destruct Hs as [st n nd0 nd1 Hn Hstep|st nd0 Hnew].
  - destruct (Nat.eq_dec n i) as [->|Hne].
    + rewrite (nth_error_set_same _ _ nd0 _ Hn) in Hi. inversion Hi; subst.
      eapply node_step_distinct; [exact Hstep|]. eapply Hst; eassumption.
    + rewrite nth_error_set_other in Hi by exact Hne. eapply Hst; eassumption.
  - destruct (Nat.lt_ge_cases i (List.length st)) as [Hlt|Hge].
    + rewrite nth_error_app1 in Hi by exact Hlt. eapply Hst; eassumption.
    + rewrite nth_error_app2 in Hi by exact Hge.
      destruct (i - List.length st) as [|j]; cbn in Hi.
      * inversion Hi; subst. destruct Hnew as (_ & -> & _). reflexivity.
      * destruct j; discriminate.
Qed.

Lemma reachable_distinct pf le st i nd :
  reachable pf le st -> nth_error st i = Some nd ->
  distinct (dict_keys (data nd)) = true.
Proof.
  intros Hreach. apply (moves_distinct init_store st).
  - eapply reachable_moves; eassumption.
  - intros [|[|j]] nd0 H; cbn in H; inversion H; reflexivity.
Qed.


Lemma set_mem_remove s k k' :
  set_mem (set_remove s k) k' = true -> set_mem s k' = true.
Proof.
  unfold set_mem, set_remove. rewrite !existsb_exists.
  intros (x & Hin & Hx). apply filter_In in Hin as [Hin _]. eauto.
Qed.

Lemma remains_of_refl nd : remains_of nd nd.
Proof. repeat split; auto. Qed.

Lemma remains_of_trans nd nd1 nd2 :
  remains_of nd nd1 -> remains_of nd1 nd2 -> remains_of nd nd2.
Proof.
  intros (Ho & Hm & Hs & Hd) (Ho' & Hm' & Hs' & Hd').
  repeat split; try congruence; auto.
Qed.

Lemma node_step_frozen nd nd' :
  node_step nd nd' -> frozen nd = true ->
  distinct (dict_keys (data nd)) = true ->
  frozen nd' = true /\ remains_of nd nd'.
Proof.
  intros H Hf Hd. destruct H; try congruence.
  - unfold without_key. destruct (set_mem _ _) eqn:Hs; cbn.
    + split; [exact Hf|]. repeat split; cbn.
      * intros k0. unfold has_section. cbn. apply set_mem_remove.
      * intros k0 v. now apply dict_get_del.
    + split; [exact Hf|]. repeat split; cbn; auto.
      intros k0 v. now apply dict_get_del.
  - split; [reflexivity|]. repeat split; auto.
Qed.

Lemma moves_frozen st st' i :
  moves st st' ->
  forall nd,
    nth_error st i = Some nd -> frozen nd = true ->
    distinct (dict_keys (data nd)) = true ->
    exists nd', nth_error st' i = Some nd' /\ frozen nd' = true
                /\ remains_of nd nd'.
Proof.
  induction 1 as [|st st1 st2 Hs _ IH]; intros nd Hi Hf Hd.
  - exists nd. split; [exact Hi|]. split; [exact Hf|apply remains_of_refl].
  - destruct (store_step_nth _ _ _ _ Hs Hi) as (nd1 & Hi1 & [->|Hstep]).
    + now apply IH.
    + destruct (node_step_frozen _ _ Hstep Hf Hd) as [Hf1 Hrem].
      pose proof (node_step_distinct _ _ Hstep Hd) as Hd1.
      destruct (IH _ Hi1 Hf1 Hd1) as (nd2 & Hi2 & Hf2 & Hrem2).
      exists nd2. split; [exact Hi2|]. split; [exact Hf2|].
      now apply (remains_of_trans _ nd1).
Qed.

(** X2.  [set_immutable] is not reversible, and a frozen node only loses
    what it has: whatever is called afterwards on any node, the node stays
    frozen, its [__order__] and its modifier stay as they are, and every
    key and section it has later it had before, with the same value.  (Keys
    can go: [del node[key]] runs on a frozen node.) *)
Theorem frozen_nodes_only_lose_keys pf le st st' i nd :
  reachable pf le st -> run_from pf le st st' ->
  nth_error st i = Some nd -> frozen nd = true ->
  exists nd',
    nth_error st' i = Some nd' /\ frozen nd' = true
    /\ order nd' = order nd /\ modifier nd' = modifier nd
    /\ (forall k, has_section nd' k = true -> has_section nd k = true)
    /\ (forall k v, dict_get (data nd') k = Some v ->
                    dict_get (data nd) k = Some v).
Proof.
  intros Hreach Hrun Hi Hf.
  destruct (moves_frozen st st' i (run_from_moves _ _ _ _ Hrun) nd Hi Hf
              (reachable_distinct _ _ _ _ _ Hreach Hi))
    as (nd' & Hi' & Hf' & Ho & Hm & Hs & Hd).
  exists nd'. auto 10.
Qed.

Lemma frozen_nodes_only_lose_keys_witness :
  let st := fst ((set_value (PInt 1) 0 (KStr "a");;;
                  set_value (PInt 2) 0 (KStr "b");;;
                  set_immutable 2 2 0 true true) init_store) in
  let st' := fst ((delitem 0 (KStr "a");;;
                   set_value (PInt 3) 0 (KStr "c")) st) in
  exists nd',
    nth_error st' 0 = Some nd' /\ frozen nd' = true
    /\ order nd' = [OKey "a"; OKey "b"] /\ modifier nd' = None
    /\ (forall k, has_section nd' k = true -> false = true)
    /\ (forall k v, dict_get (data nd') k = Some v ->
                    dict_get [("a", PInt 1); ("b", PInt 2)] k = Some v).
Proof.
  intros st st'.
  apply (frozen_nodes_only_lose_keys (fun _ => None) (fun _ => None)
           st st' 0
           (mkNode [("a", PInt 1); ("b", PInt 2)] [OKey "a"; OKey "b"] []
                   None 0 [] None None true)).
  - change st with
      (fst (run_op (fun _ => None) (fun _ => None) 2 (SetImmutable 0 true true)
        (fst (run_op (fun _ => None) (fun _ => None) 0
                (SetValue 0 (KStr "b") (PInt 2))
        (fst (run_op (fun _ => None) (fun _ => None) 0
                (SetValue 0 (KStr "a") (PInt 1)) init_store)))))).
    repeat apply reach_run. apply reach_init.
  - change st' with
      (fst (run_op (fun _ => None) (fun _ => None) 0
              (SetValue 0 (KStr "c") (PInt 3))
        (fst (run_op (fun _ => None) (fun _ => None) 0
                (DelItem 0 (KStr "a")) st)))).
    repeat apply run_from_then. apply run_none.
  - reflexivity.
  - reflexivity.
Defined.

Lemma dict_has_del d k k' :
  dict_has (dict_del d k) k' = true -> dict_has d k' = true.
Proof.
  unfold dict_has. induction d as [|[k0 v0] d IH]; cbn; [discriminate|].
  destruct (String.eqb k0 k).
  - intros H. destruct (String.eqb k0 k'); [reflexivity|exact H].
  - cbn. destruct (String.eqb k0 k'); [reflexivity|exact IH].
Qed.

Lemma node_step_listed nd nd' :
  node_step nd nd' ->
  (forall k, dict_has (data nd) k = true -> In (OKey k) (order nd)) ->
  forall k, dict_has (data nd') k = true -> In (OKey k) (order nd').
Proof.
  intros H Hnd k0. destruct H; cbn; auto.
  - rewrite (dict_set_new _ _ _ H1), dict_has_keys. unfold dict_keys.
    rewrite map_app. unfold set_mem. rewrite existsb_app. cbn.
    intros Hk. apply in_or_app. apply orb_true_iff in Hk as [Hk|Hk].
    + left. apply Hnd. now rewrite dict_has_keys.
    + right. left. rewrite orb_false_r in Hk. apply String.eqb_eq in Hk.
      now subst.
  - intros Hk. apply in_or_app. left. now apply Hnd.
  - unfold without_key. destruct (set_mem _ _); cbn;
      intros Hk; apply Hnd; now apply (dict_has_del _ k).
  - discriminate.
Qed.

Lemma store_step_new_nth st st' i nd :
  store_step st st' -> nth_error st' i = Some nd ->
  (exists nd0, nth_error st i = Some nd0 /\ (nd = nd0 \/ node_step nd0 nd))
  \/ (i = List.length st /\ st' = st ++ [nd] /\ is_new st nd).
Proof.
  intros H Hi. destruct H as [st n nd0 nd1 Hn Hs|st nd0 Hnew].
  - left. destruct (Nat.eq_dec n i) as [->|Hne].
    + rewrite (nth_error_set_same _ _ nd0 _ Hn) in Hi. inversion Hi; subst.
      exists nd0. auto.
    + rewrite nth_error_set_other in Hi by exact Hne. exists nd. auto.
  - destruct (Nat.lt_ge_cases i (List.length st)) as [Hlt|Hge].
    + rewrite nth_error_app1 in Hi by exact Hlt. left. exists nd. auto.
    + rewrite nth_error_app2 in Hi by exact Hge.
      destruct (i - List.length st) as [|j] eqn:E; cbn in Hi.
      * inversion Hi; subst. right. split; [lia|auto].
      * destruct j; discriminate.
Qed.

(** X3.  Every key bound in a node has its entry in [__order__], the list
    [__dump__] walks: no binding is left out of the text for want of an
    entry. *)
Theorem bound_keys_are_listed pf le st n nd k :
  reachable pf le st -> nth_error st n = Some nd ->
  dict_has (data nd) k = true -> In (OKey k) (order nd).
Proof.
  intros Hreach. apply reachable_moves in Hreach. revert n nd k.
  apply (moves_invariant
           (fun st => forall n nd k,
                nth_error st n = Some nd -> dict_has (data nd) k = true ->
                In (OKey k) (order nd)) ) with (st := init_store);
    [|exact Hreach|].
  - clear. intros st st' Hs Hst n nd k Hn.
    destruct (store_step_new_nth _ _ _ _ Hs Hn)
      as [(nd0 & Hn0 & [->|Hstep])|(_ & _ & Hnew)].
    + now apply (Hst n).
    + apply (node_step_listed _ _ Hstep). intros k0. now apply (Hst n).
    + destruct Hnew as (_ & -> & _). discriminate.
  - intros [|[|j]] nd k H; cbn in H; inversion H; subst; discriminate.
Qed.

Lemma bound_keys_are_listed_witness :
  let st := fst ((set_value (PInt 1) 0 (KStr "a");;;
                  add_comment 0 "# note";;;
                  delitem 0 (KStr "a");;;
                  set_value (PInt 2) 0 (KStr "B")) init_store) in
  exists nd, nth_error st 0 = Some nd /\ dict_has (data nd) "b" = true
             /\ In (OKey "b") (order nd).
Proof.
  intros st. eexists. split; [reflexivity|]. split; [reflexivity|].
  apply (bound_keys_are_listed (fun _ => None) (fun _ => None) st 0
           (mkNode [("b", PInt 2)] [OKey "a"; OComment "# note"; OKey "b"] []
                   None 0 [] None None false) "b").
  - change st with
      (fst (run_op (fun _ => None) (fun _ => None) 0
              (SetValue 0 (KStr "B") (PInt 2))
        (fst (run_op (fun _ => None) (fun _ => None) 0
                (DelItem 0 (KStr "a"))
        (fst (run_op (fun _ => None) (fun _ => None) 0
                (AddComment 0 "# note")
        (fst (run_op (fun _ => None) (fun _ => None) 0
                (SetValue 0 (KStr "a") (PInt 1)) init_store)))))))).
    repeat apply reach_run. apply reach_init.
  - reflexivity.
  - reflexivity.
Defined.

Lemma store_step_owner_ok st st' :
  store_step st st' ->
  (forall n nd, nth_error st n = Some nd -> owner_ok st n nd) ->
  forall n nd, nth_error st' n = Some nd -> owner_ok st' n nd.
Proof.
  intros Hs Hst n nd Hn.
  assert (Hkeep : forall o ond,
             nth_error st o = Some ond ->
             exists ond', nth_error st' o = Some ond' /\ root ond' = root ond).
  { intros o ond Ho. destruct (store_step_nth _ _ _ _ Hs Ho)
      as (ond' & Ho' & [->|Hstep]); [eauto|].
    apply node_step_meta in Hstep as (_ & Hr & _). eauto. }
  assert (Hold : forall nd0, nth_error st n = Some nd0 ->
                             owner nd = owner nd0 -> root nd = root nd0 ->
                             owner_ok st' n nd).
  { intros nd0 Hn0 Ho Hr. specialize (Hst _ _ Hn0). unfold owner_ok in *.
    rewrite Ho, Hr. destruct (owner nd0) as [o|]; [|exact Hst].
    destruct Hst as (Hlt & ond & Hond & Hroot). split; [exact Hlt|].
    destruct (Hkeep _ _ Hond) as (ond' & Hond' & Hr'). exists ond'.
    split; [exact Hond'|congruence]. }
  destruct (store_step_new_nth _ _ _ _ Hs Hn)
    as [(nd0 & Hn0 & [->|Hstep])|(-> & -> & Hnew)].
  - now apply (Hold nd0).
  - apply node_step_meta in Hstep as (Ho & Hr & _). now apply (Hold nd0).
  - destruct Hnew as (_ & _ & _ & _ & Hown). unfold owner_ok.
    destruct (owner nd) as [o|]; [|exact Hown].
    destruct Hown as (ond & Hond & Hroot).
    split; [apply nth_error_Some; congruence|].
    exists ond. split; [now apply nth_error_snoc_old|exact Hroot].
Qed.

Lemma reachable_owner_ok pf le st n nd :
  reachable pf le st -> nth_error st n = Some nd -> owner_ok st n nd.
Proof.
  intros Hreach. apply reachable_moves in Hreach. revert n nd.
  apply (moves_invariant
           (fun st => forall n nd, nth_error st n = Some nd -> owner_ok st n nd))
    with (st := init_store); [|exact Hreach|].
  - intros st0 st1. apply store_step_owner_ok.
  - intros [|[|j]] nd H; cbn in H; inversion H; subst; reflexivity.
Qed.

(** X4.  The [owner] of a node was made before the node and has the same
    [root]; a node without owner is its own root.  So [node.root], where
    [set_immutable] sends a call with [from_root], is always a node of the
    store that has no owner and is its own root. *)
Theorem root_is_a_root pf le st n nd :
  reachable pf le st -> nth_error st n = Some nd ->
  owner_ok st n nd
  /\ exists rnd,
      nth_error st (root nd) = Some rnd /\ owner rnd = None
      /\ root rnd = root nd /\ root nd <= n.
Proof.
  intros Hreach Hn. split; [now apply (reachable_owner_ok pf le)|].
  revert nd Hn. induction n as [n IH] using lt_wf_ind. intros nd Hn.
  pose proof (reachable_owner_ok _ _ _ _ _ Hreach Hn) as Hok.
  unfold owner_ok in Hok. destruct (owner nd) as [o|] eqn:Ho.
  - destruct Hok as (Hlt & ond & Hond & Hroot).
    destruct (IH o Hlt ond Hond) as (rnd & Hr & Hro & Hrr & Hle).
    exists rnd. rewrite Hroot. repeat split; auto. lia.
  - exists nd. rewrite Hok. repeat split; auto.
Qed.

Lemma root_is_a_root_witness :
  let st := fst ((a <- add_section 0 (KStr "a") None;;
                  add_section a (KStr "b") None) init_store) in
  exists nd, nth_error st 2 = Some nd /\ owner nd = Some 1 /\ root nd = 0
             /\ owner_ok st 2 nd
             /\ exists rnd, nth_error st (root nd) = Some rnd
                            /\ owner rnd = None /\ root rnd = root nd
                            /\ root nd <= 2.
Proof.
  intros st. eexists. split; [reflexivity|]. split; [reflexivity|].
  split; [reflexivity|].
  apply (root_is_a_root (fun _ => None) (fun _ => None) st 2).
  - change st with
      (fst (run_op (fun _ => None) (fun _ => None) 0
              (AddSection 1 (KStr "b") None)
        (fst (run_op (fun _ => None) (fun _ => None) 0
                (AddSection 0 (KStr "a") None) init_store)))).
    repeat apply reach_run. apply reach_init.
  - reflexivity.
Defined.

(* ------------------------------------------------------------------ *)
(** ** Keys *)

(** X5.  [__key_transform__] is canonical: the key it returns is the
    normalised text of the argument, has no upper-case letter, ['-'],
    [' '] or ['.'], is not empty and starts with no digit; transforming it
    again returns it unchanged; and every key with the same normalised text
    is transformed to it. *)
Theorem key_transform_canonical key k :
  key_transform key = Val k ->
  k = normalize (key_text key)
  /\ is_normal_key k = true
  /\ key_transform (KStr k) = Val k
  /\ (forall key', normalize (key_text key') = normalize (key_text key) ->
                   key_transform key' = Val k).
Proof.
  intros Hk. destruct (key_transform_val _ _ Hk) as [Heq Hn].
  split; [exact Heq|]. split; [exact Hn|].
  split; [now apply (key_transform_idem key)|].
  intros key' Hsame. rewrite key_transform_eq, Hsame.
  rewrite key_transform_eq in Hk. exact Hk.
Qed.

Lemma key_transform_canonical_witness :
  "my_key" = normalize "My-Key"
  /\ is_normal_key "my_key" = true
  /\ key_transform (KStr "my_key") = Val "my_key"
  /\ (forall key', normalize (key_text key') = normalize "My-Key" ->
                   key_transform key' = Val "my_key").
Proof.
  apply (key_transform_canonical (KStr "My-Key") "my_key"). reflexivity.
Defined.

Lemma nil_uint_digits d :
  str_forallb Chars.is_digit (NilZero.string_of_uint d) = true
  /\ NilZero.string_of_uint d <> EmptyString.
Proof.
  assert (Hu : forall d, str_forallb Chars.is_digit (NilEmpty.string_of_uint d)
                         = true).
  { intros d0. induction d0 as [|d0 IH|d0 IH|d0 IH|d0 IH|d0 IH|d0 IH|d0 IH
                                |d0 IH|d0 IH|d0 IH];
      cbn [NilEmpty.string_of_uint str_forallb];
      try reflexivity; rewrite IH; reflexivity. }
  unfold NilZero.string_of_uint.
  destruct d; try (split; [apply Hu|discriminate]).
  split; [reflexivity|discriminate].
Qed.

Lemma digit_is_normal c : Chars.is_digit c = true -> is_normal_char c = true.
Proof.
  assert (H : negb (Chars.is_digit c) || is_normal_char c = true).
  { revert c. apply ascii_all.
    intros [|] [|] [|] [|] [|] [|] [|] [|]; vm_compute; reflexivity. }
  intros Hc. now rewrite Hc in H.
Qed.

Lemma str_of_int_nonneg z :
  (0 <= z)%Z -> str_forallb Chars.is_digit (str_of_int z) = true.
Proof.
  intros Hz. unfold str_of_int. destruct z as [|p|p]; [reflexivity| |lia].
  cbn [Z.to_int NilZero.string_of_int]. apply nil_uint_digits.
Qed.

Lemma str_of_int_neg z :
  (z < 0)%Z -> str_of_int z = String "-" (str_of_int (- z)).
Proof.
  intros Hz. unfold str_of_int. destruct z as [|p|p]; [lia|lia|]. reflexivity.
Qed.

Lemma str_forallb_list p s :
  str_forallb p s = true ->
  Forall (fun c => p c = true) (list_ascii_of_string s).
Proof.
  induction s as [|c s IH]; cbn; intros H; [constructor|].
  apply andb_true_iff in H as [Hc Hs]. constructor; auto.
Qed.

Lemma py_int_underscore s :
  str_forallb Chars.is_digit s = true -> py_int (String "_" s) = None.
Proof.
  intros Hs. unfold py_int.
  assert (Hns : Forall (fun c => Chars.is_space c = false)
                       (list_ascii_of_string (String "_" s))).
  { cbn. constructor; [reflexivity|].
    eapply Forall_impl; [|apply (str_forallb_list _ _ Hs)].
    intros c Hc. now apply digit_facts. }
  rewrite (strip_nonspace _ Hns). reflexivity.
Qed.

(** X6.  An integer key [i] is stored under ["list" + str(i)], normalised:
    [list<i>] for [i >= 0], and [list_<n>] for [i = -n < 0].  Different
    indices from [0] on have different keys, and [iter_as_list] reads the
    index back from such a key with [int(k[4:])]; from the key of a
    negative index it reads nothing, [int] raises [ValueError]. *)
Theorem integer_keys z :
  key_transform (KInt z) =
    Val ("list" ++ (if (z <? 0)%Z then "_" ++ str_of_int (- z)
                    else str_of_int z))%string
  /\ (forall z', (0 <= z)%Z -> (0 <= z')%Z ->
                 key_transform (KInt z) = key_transform (KInt z') -> z = z')
  /\ (forall k st, key_transform (KInt z) = Val k ->
        int_of_key k st =
          if (z <? 0)%Z
          then (st, Exn (ValueError "invalid literal for int() with base 10"))
          else (st, Val z)).
Proof.
  assert (Hpos : forall z, (0 <= z)%Z ->
            key_transform (KInt z) = Val ("list" ++ str_of_int z)%string).
  { intros z0 Hz. rewrite key_transform_eq. cbn [key_text].
    rewrite normalize_fix; [reflexivity|].
    rewrite str_forallb_app. apply andb_true_iff. split; [reflexivity|].
    eapply str_forallb_impl; [|apply (str_of_int_nonneg _ Hz)].
    apply digit_is_normal. }
  assert (Hform : key_transform (KInt z) =
            Val ("list" ++ (if (z <? 0)%Z then "_" ++ str_of_int (- z)
                            else str_of_int z))%string).
  { destruct (Z.ltb_spec z 0) as [Hlt|Hge]; [|now apply Hpos].
    rewrite key_transform_eq. cbn [key_text].
    rewrite (str_of_int_neg _ Hlt), normalize_map.
    change (str_map normalize_char
              ("list" ++ String "-" (str_of_int (- z)))%string)
      with ("list_" ++ str_map normalize_char (str_of_int (- z)))%string.
    rewrite <- normalize_map, normalize_fix; [reflexivity|].
    eapply str_forallb_impl; [|apply str_of_int_nonneg; lia].
    apply digit_is_normal. }
  split; [exact Hform|]. split.
  - intros z' Hz Hz' Heq. rewrite (Hpos _ Hz), (Hpos _ Hz') in Heq.
    inversion Heq as [Hs].
    pose proof (py_int_str_of_int z) as E. rewrite Hs in E.
    rewrite py_int_str_of_int in E. now inversion E.
  - intros k st Hk. rewrite Hform in Hk. inversion Hk; subst k.
    unfold int_of_key. destruct (Z.ltb_spec z 0) as [Hlt|Hge].
    + cbn [str_drop].
      rewrite py_int_underscore; [reflexivity|]. apply str_of_int_nonneg. lia.
    + cbn [str_drop].
      now rewrite py_int_str_of_int.
Qed.

(* ------------------------------------------------------------------ *)
(** ** Writing and reading a key *)

(** X7.  What [set_value] has stored is what reading returns: after
    [set_value(key, value)] returned, [get_value] under every key with the
    same normal form returns the value (for a mapping or a sequence: the
    section made for it), [in] answers [True], and the node has one key
    more. *)
Theorem set_value_then_get value n key key' k st st' :
  key_transform key = Val k -> key_transform key' = Val k ->
  set_value value n key st = (st', Val tt) ->
  get_value n key' st' = (st', Val (Some (stored_value value st)))
  /\ contains n key' st' = (st', Val true)
  /\ exists l, len n st = (st, Val l) /\ len n st' = (st', Val (S l)).
Proof.
  intros Hk Hk' E.
  destruct (set_value_success _ _ _ _ _ _ Hk E)
    as (nd & nd1 & Hn & Hn1 & Hf & Hmod & Hmeta & Hd & Hf1 & Hmod1 & Hdata1).
  assert (Hget : dict_get (data nd1) k = Some (stored_value value st)).
  { rewrite Hdata1, <- (dict_set_new _ _ _ Hd). now apply dict_get_set_new. }
  split; [|split].
  - rewrite (get_value_eq _ _ _ _ Hn1), Hk'.
    assert (Hm : meta_get nd1 k = None).
    { rewrite (meta_has_indep nd nd1) in Hmeta. unfold meta_has in Hmeta.
      now destruct (meta_get nd1 k). }
    rewrite Hm. unfold get_modifier, get_modifier_name in *.
    rewrite Hmod1, Hmod. now rewrite Hget.
  - rewrite (contains_eq _ _ _ _ Hn1), Hk'. unfold dict_has. now rewrite Hget.
  - exists (List.length (data nd)). unfold len.
    rewrite (bind_val _ _ _ _ _ (get_node_ok _ _ _ Hn)).
    rewrite (bind_val _ _ _ _ _ (get_node_ok _ _ _ Hn1)).
    split; [reflexivity|]. rewrite Hdata1, length_app. cbn.
    now rewrite Nat.add_1_r.
Qed.

Lemma set_value_then_get_witness :
  let st' := fst (set_value (PInt 7) 0 (KStr "My Key") init_store) in
  get_value 0 (KStr "my-key") st' = (st', Val (Some (PInt 7)))
  /\ contains 0 (KStr "my-key") st' = (st', Val true)
  /\ exists l, len 0 init_store = (init_store, Val l)
               /\ len 0 st' = (st', Val (S l)).
Proof.
  apply (set_value_then_get (PInt 7) 0 (KStr "My Key") (KStr "my-key") "my_key"
           init_store); reflexivity.
Defined.

Lemma without_key_facts nd k :
  data (without_key nd k) = dict_del (data nd) k
  /\ frozen (without_key nd k) = frozen nd
  /\ modifier (without_key nd k) = modifier nd.
Proof. unfold without_key. destruct (set_mem _ _); cbn; auto. Qed.

Lemma meta_get_none nd nd' k : meta_has nd k = false -> meta_get nd' k = None.
Proof.
  intros H. rewrite (meta_has_indep nd nd') in H. unfold meta_has in H.
  now destruct (meta_get nd' k).
Qed.

(** X8.  [del node[key]] of a key that is not bound raises [KeyError] and
    changes nothing.  Of a bound key it removes the binding: [in] answers
    [False], [get_value] returns the default, and on a node open to writes
    the key can be set again, which [set_value] refuses while it is
    bound. *)
Theorem delete_then_set pf le st n nd key k :
  reachable pf le st -> nth_error st n = Some nd -> key_transform key = Val k ->
  (dict_has (data nd) k = false -> delitem n key st = (st, Exn (KeyError k)))
  /\ (dict_has (data nd) k = true ->
      exists st',
        delitem n key st = (st', Val tt)
        /\ contains n key st' = (st', Val false)
        /\ (get_modifier nd = None -> get_value n key st' = (st', Val None))
        /\ (frozen nd = false -> get_modifier nd = None ->
            forall v, is_container v = false ->
              set_value v n key st =
                (st, Exn (KeyError
                   ("Cannot update existing data field or section: " ++ k)))
              /\ exists st'',
                  set_value v n key st' = (st'', Val tt)
                  /\ get_value n key st'' = (st'', Val (Some v)))).
Proof.
  intros Hreach Hn Hk. rewrite (delitem_eq _ _ _ _ Hn), Hk. split.
  { intros Hd. now rewrite Hd. }
  intros Hd. rewrite Hd. exists (list_set st n (without_key nd k)).
  destruct (without_key_facts nd k) as (Hdata & Hfrozen & Hmod).
  set (nd1 := without_key nd k) in *.
  pose proof (nth_error_set_same _ _ _ nd1 Hn) as Hn1.
  pose proof (reachable_distinct _ _ _ _ _ Hreach Hn) as Hdist.
  assert (Hgone : dict_get (data nd1) k = None).
  { rewrite Hdata. now apply dict_get_del_same. }
  assert (Hmeta : meta_has nd k = false).
  { assert (Hok : key_ok k = true).
    { eapply node_ok_key; [|exact Hd].
      eapply store_ok_nth; [eapply reachable_store_ok; exact Hreach|exact Hn]. }
    unfold key_ok, is_meta_key in Hok. apply andb_true_iff in Hok as [_ Hok].
    apply negb_true_iff in Hok. now rewrite (meta_has_indep nd empty_root). }
  split; [reflexivity|]. split.
  { rewrite (contains_eq _ _ _ _ Hn1), Hk. unfold dict_has. now rewrite Hgone. }
  split.
  { intros Hnomod. rewrite (get_value_eq _ _ _ _ Hn1), Hk.
    rewrite (meta_get_none nd nd1 k Hmeta).
    unfold get_modifier, get_modifier_name in *. rewrite Hmod, Hnomod.
    now rewrite Hgone. }
  intros Hf Hnomod v Hv. split.
  { rewrite (set_value_eq _ _ _ _ _ Hn), Hf, Hk, Hnomod, Hmeta, Hd.
    reflexivity. }
  exists (list_set st n (bind_key nd1 k v)). split.
  - rewrite (set_value_eq _ _ _ _ _ Hn1), Hfrozen, Hf, Hk.
    unfold get_modifier, get_modifier_name in *. rewrite Hmod, Hnomod.
    rewrite (meta_has_indep nd1 nd), Hmeta.
    unfold dict_has. rewrite Hgone.
    destruct v; try discriminate Hv;
      now rewrite (update_data_eq _ _ _ _ _ Hn1), Hfrozen, Hf, list_set_twice.
  - assert (Hn2 : nth_error (list_set st n (bind_key nd1 k v)) n =
                    Some (bind_key nd1 k v))
      by apply (nth_error_set_same _ _ _ _ Hn).
    rewrite (get_value_eq _ _ _ _ Hn2), Hk.
    rewrite (meta_get_none nd _ k Hmeta).
    unfold get_modifier, get_modifier_name in *.
    change (modifier (bind_key nd1 k v)) with (modifier nd1).
    rewrite Hmod, Hnomod.
    change (data (bind_key nd1 k v)) with (dict_set (data nd1) k v).
    rewrite dict_get_set_new; [reflexivity|]. unfold dict_has. now rewrite Hgone.
Qed.

Lemma delete_then_set_witness :
  let st := fst (set_value (PInt 1) 0 (KStr "a") init_store) in
  let nd := mkNode [("a", PInt 1)] [OKey "a"] [] None 0 [] None None false in
  (dict_has (data nd) "a" = false ->
   delitem 0 (KStr "A") st = (st, Exn (KeyError "a")))
  /\ (dict_has (data nd) "a" = true ->
      exists st',
        delitem 0 (KStr "A") st = (st', Val tt)
        /\ contains 0 (KStr "A") st' = (st', Val false)
        /\ (get_modifier nd = None ->
            get_value 0 (KStr "A") st' = (st', Val None))
        /\ (frozen nd = false -> get_modifier nd = None ->
            forall v, is_container v = false ->
              set_value v 0 (KStr "A") st =
                (st, Exn (KeyError
                   ("Cannot update existing data field or section: " ++ "a")))
              /\ exists st'',
                  set_value v 0 (KStr "A") st' = (st'', Val tt)
                  /\ get_value 0 (KStr "A") st'' = (st'', Val (Some v)))).
Proof.
  intros st nd.
  apply (delete_then_set (fun _ => None) (fun _ => None) st 0 nd
           (KStr "A") "a").
  - change st with
      (fst (run_op (fun _ => None) (fun _ => None) 0
              (SetValue 0 (KStr "a") (PInt 1)) init_store)).
    apply reach_run. apply reach_init.
  - reflexivity.
  - reflexivity.
Defined.

Lemma get_section_eq n key st nd :
  nth_error st n = Some nd ->
  get_section n key st =
    match key_transform key with
    | Val k =>
        if has_section nd k then
          match dict_get (data nd) k with
          | Some v => (st, Val v)
          | None => (st, Exn (KeyError k))
          end
        else if meta_has nd k then
          (st, Exn (KeyError ("Meta-data field " ++ k ++ " is not a section")))
        else if dict_has (data nd) k then
          (st, Exn (KeyError (k ++ " is a value field, not a section")))
        else if frozen nd then
          (st, Exn (ImmutableConfiguration "add_section"))
        else
          (list_set (st ++ [child_node n nd k None]) n
                    (with_section (bind_key nd k (PConf (List.length st))) k),
           Val (PConf (List.length st)))
    | Exn e => (st, Exn e)
    | Stuck w => (st, Stuck w)
    end.
Proof.
  intros Hn. unfold get_section, has_section.
  destruct (key_transform key) as [k|e|w] eqn:Hk; [|now mexn|now mstuck].
  mval. mval. destruct (set_mem (sections nd) k) eqn:Hs.
  { now destruct (dict_get (data nd) k). }
  destruct (meta_has nd k) eqn:Hm; [reflexivity|].
  destruct (dict_has (data nd) k) eqn:Hd; [reflexivity|].
  unfold bind. rewrite (add_section_eq _ _ _ _ _ Hn).
  rewrite (key_transform_idem _ _ Hk), Hm. unfold has_section. rewrite Hs, Hd.
  now destruct (frozen nd).
Qed.

(** X9.  [get_section] gets or creates, and asking again gives the same:
    when it returns, the key is a section of the node bound to the value
    returned, and a second call returns this value and changes nothing.
    The first call changes nothing either when the section was there;
    otherwise the node was open to writes and the value is the new, empty
    node that [add_section] put at the end of the store. *)
Theorem get_section_gets_or_creates n key st st1 v :
  get_section n key st = (st1, Val v) ->
  get_section n key st1 = (st1, Val v)
  /\ exists nd nd1 k,
      nth_error st n = Some nd /\ nth_error st1 n = Some nd1
      /\ key_transform key = Val k
      /\ has_section nd1 k = true /\ dict_get (data nd1) k = Some v
      /\ (has_section nd k = true -> st1 = st)
      /\ (has_section nd k = false ->
          frozen nd = false /\ v = PConf (List.length st)
          /\ nth_error st1 (List.length st) = Some (child_node n nd k None)).
Proof.
  intros H. destruct (nth_error st n) as [nd|] eqn:Hn.
  2:{ unfold get_section in H.
      destruct (key_transform key) as [k|e|w] eqn:Hk.
      - rewrite (bind_val _ _ _ _ _ (run_lift _ _)) in H.
        rewrite (bind_stuck _ _ _ _ _ (get_node_dangling _ _ Hn)) in H.
        discriminate.
      - rewrite (bind_exn _ _ _ _ _ (run_lift _ _)) in H. discriminate.
      - rewrite (bind_stuck _ _ _ _ _ (run_lift _ _)) in H. discriminate. }
  rewrite (get_section_eq _ _ _ _ Hn) in H.
  destruct (key_transform key) as [k|e|w] eqn:Hk; try discriminate.
  destruct (has_section nd k) eqn:Hs.
  - destruct (dict_get (data nd) k) as [v0|] eqn:Hv; inversion H; subst.
    split. { now rewrite (get_section_eq _ _ _ _ Hn), Hk, Hs, Hv. }
    exists nd, nd, k. repeat split; auto; intros; congruence.
  - destruct (meta_has nd k) eqn:Hm; [discriminate|].
    destruct (dict_has (data nd) k) eqn:Hd; [discriminate|].
    destruct (frozen nd) eqn:Hf; [discriminate|].
    inversion H; subst. clear H.
    set (c := List.length st).
    set (nd1 := with_section (bind_key nd k (PConf c)) k).
    set (st1 := list_set (st ++ [child_node n nd k None]) n nd1).
    assert (Hn1 : nth_error st1 n = Some nd1).
    { apply (nth_error_set_same _ _ nd). now apply nth_error_snoc_old. }
    assert (Hs1 : has_section nd1 k = true).
    { unfold has_section.
      change (sections nd1) with (set_add (sections nd) k).
      rewrite set_mem_add. now rewrite String.eqb_refl. }
    assert (Hv1 : dict_get (data nd1) k = Some (PConf c)).
    { change (data nd1) with (dict_set (data nd) k (PConf c)).
      now apply dict_get_set_new. }
    split. { now rewrite (get_section_eq _ _ _ _ Hn1), Hk, Hs1, Hv1. }
    exists nd, nd1, k. repeat split; auto; try (intros; congruence).
    unfold st1. rewrite nth_error_set_other.
    + apply nth_error_snoc_new.
    + assert (n < List.length st) by (apply nth_error_Some; congruence).
      unfold c. lia.
Qed.

Lemma get_section_gets_or_creates_witness :
  let st1 := fst (get_section 0 (KStr "Sub") init_store) in
  get_section 0 (KStr "Sub") st1 = (st1, Val (PConf 1))
  /\ exists nd nd1 k,
      nth_error init_store 0 = Some nd /\ nth_error st1 0 = Some nd1
      /\ key_transform (KStr "Sub") = Val k
      /\ has_section nd1 k = true /\ dict_get (data nd1) k = Some (PConf 1)
      /\ (has_section nd k = true -> st1 = init_store)
      /\ (has_section nd k = false ->
          frozen nd = false /\ PConf 1 = PConf (List.length init_store)
          /\ nth_error st1 (List.length init_store) =
               Some (child_node 0 nd k None)).
Proof.
  apply (get_section_gets_or_creates 0 (KStr "Sub") init_store). reflexivity.
Defined.

(* ------------------------------------------------------------------ *)
(** ** Errors of the parser *)

(** X10.  [parse] stops at the first line that fails and reports it by its
    number, counted from 1: what the lines before it did to the store
    stays, and no line after it is read. *)
Theorem parse_stops_at_first_error pf le c nd lines line rest st st1 p1 st2 e :
  nth_error st c = Some nd -> frozen nd = false ->
  parse pf le 0 lines (mkParser None [(0, c)]) st = (st1, Val p1) ->
  parse_line pf le line p1 st1 = (st2, Exn e) ->
  load pf le c (lines ++ line :: rest) st =
    (st2, Exn (LineException (List.length lines + 1) e)).
Proof.
  intros Hn Hf Hlines Hline. unfold load.
  rewrite (bind_val _ _ _ _ _ (guard_ok _ _ _ _ Hn Hf)).
  erewrite bind_exn; [reflexivity|].
  rewrite (parse_app _ _ _ _ _ _ _ _ _ Hlines). cbn [parse].
  erewrite bind_exn; [reflexivity|].
  unfold try_except. now rewrite Hline.
Qed.

Lemma parse_stops_at_first_error_witness :
  let line1 := ("a = 1" ++ line_break)%string in
  let line2 := ("a = 2" ++ line_break)%string in
  let line3 := ("b = 3" ++ line_break)%string in
  load (fun _ => None) (fun _ => None) 0 ([line1] ++ line2 :: [line3]) init_store =
    (fst (set_value (PInt 1) 0 (KStr "a") init_store),
     Exn (LineException (List.length [line1] + 1)
            (KeyError "Cannot update existing data field or section: a"))).
Proof.
  intros line1 line2 line3.
  apply (parse_stops_at_first_error (fun _ => None) (fun _ => None) 0 empty_root
           [line1] line2 [line3] init_store
           (fst (set_value (PInt 1) 0 (KStr "a") init_store))
           (mkParser None [(0, 0)])).
  - reflexivity.
  - reflexivity.
  - vm_compute. reflexivity.
  - vm_compute. reflexivity.
Defined.

(* ------------------------------------------------------------------ *)
(** ** Comments in the text *)

Lemma split_newline_lines s :
  Forall (fun l => str_forallb not_newline l = true) (split_newline s).
Proof.
  induction s as [|c s IH]; cbn [split_newline]; [now constructor|].
  destruct (Ascii.eqb c Chars.newline) eqn:Hc; [now constructor|].
  destruct (split_newline s) as [|h t].
  - constructor; [|constructor]. cbn. unfold not_newline. now rewrite Hc.
  - inversion IH; subst. constructor; [|assumption].
    cbn. unfold not_newline at 1. now rewrite Hc.
Qed.

Lemma span_all p s : str_forallb p s = true -> span p s = (s, EmptyString).
Proof.
  intros H. rewrite <- (str_app_nil_r s) at 1. now apply span_app.
Qed.

(** A line without newline that RE_COMMENT matches is matched as a
    whole. *)
Lemma match_comment_whole l x :
  str_forallb not_newline l = true -> match_comment l = Some x ->
  is_plain_comment l = true.
Proof.
  intros Hl Hm. unfold is_plain_comment. rewrite Hm.
  apply String.eqb_eq. unfold match_comment in Hm.
  destruct (span Chars.is_blank l) as [blanks r] eqn:Es.
  apply span_spec in Es as (-> & _ & _).
  rewrite str_forallb_app in Hl. apply andb_true_iff in Hl as [_ Hr].
  assert (Hend : at_end r = true -> r = EmptyString).
  { destruct r as [|c [|c' r']]; cbn [at_end]; try discriminate; [reflexivity|].
    intros E. cbn [str_forallb] in Hr. unfold not_newline in Hr.
    rewrite E in Hr. discriminate. }
  destruct r as [|c r'].
  - cbn in Hm. inversion Hm. now rewrite str_app_nil_r.
  - destruct (Ascii.eqb_spec c "#") as [->|Hne].
    + cbn in Hr. rewrite (span_all _ _ Hr) in Hm. cbn in Hm.
      now inversion Hm.
    + assert (Hm' : (if at_end (String c r') then Some blanks else None)
                    = Some x).
      { destruct c as [[|] [|] [|] [|] [|] [|] [|] [|]];
          try exact Hm; now elim Hne. }
      destruct (at_end (String c r')); [|discriminate].
      specialize (Hend eq_refl). discriminate.
Qed.

Lemma hash_comment_plain l :
  str_forallb not_newline l = true -> is_plain_comment ("# " ++ l) = true.
Proof.
  intros Hl. unfold is_plain_comment, match_comment. cbn [String.append span].
  change (Chars.is_blank "#") with false. cbv iota.
  assert (Hs : str_forallb not_newline (String " " l) = true) by exact Hl.
  rewrite (span_all _ _ Hs). cbn. apply String.eqb_refl.
Qed.

Lemma comment_text_plain c :
  forallb is_plain_comment (comment_text c) = true.
Proof.
  unfold comment_text. pose proof (split_newline_lines c) as H.
  induction H as [|l ls Hl _ IH]; [reflexivity|].
  cbn [map forallb]. rewrite IH, andb_true_r.
  destruct (match_comment l) eqn:E.
  - now apply (match_comment_whole l s).
  - now apply hash_comment_plain.
Qed.

Lemma write_comment_text w c :
  write_comment w c =
    mkWriter (fp w ++ join (comment_lines (comment_text c))) (current_indent w).
Proof.
  unfold write_comment, comment_text. revert w.
  induction (split_newline c) as [|l ls IH]; intros w.
  - cbn. rewrite str_app_nil_r. now destruct w.
  - cbn [fold_left map comment_lines]. rewrite IH.
    unfold join. cbn [map fold_right].
    destruct (match_comment l); unfold write_line, write; cbn [fp current_indent];
      now rewrite !str_app_assoc.
Qed.

(** X11.  What [write_comment] writes, the parser reads as comments: the
    text is written line by line, a line that RE_COMMENT does not match
    with ["# "] before it, and every line written is matched by
    RE_ALL_LINES as a comment, never as a key, with the written line as the
    comment; [parse_line] hands it to [add_comment] of the current node.
    A comment of one line that RE_COMMENT matches is written as it is. *)
Theorem comments_are_read_as_comments w c :
  write_comment w c =
    mkWriter (fp w ++ join (comment_lines (comment_text c))) (current_indent w)
  /\ Forall (fun l => match_all_lines (l ++ line_break) = Some (CommentLine l))
            (comment_text c)
  /\ (forall pf le l p st conf,
         In l (comment_text c) -> get_cur_conf p = Val conf ->
         parse_line pf le (l ++ line_break) p st =
           (_ <- add_comment conf l;; ret p) st)
  /\ (is_plain_comment c = true -> comment_text c = [c]).
Proof.
  pose proof (comment_text_plain c) as Hplain. rewrite forallb_forall in Hplain.
  split; [apply write_comment_text|]. split; [|split].
  - apply Forall_forall. intros l Hl. apply match_comment_line. now apply Hplain.
  - intros pf le l p st conf Hl Hcur. unfold parse_line.
    rewrite (match_comment_line _ (Hplain _ Hl)).
    erewrite bind_val by (unfold lift; rewrite Hcur; reflexivity).
    reflexivity.
  - intros Hc. unfold comment_text.
    rewrite (split_newline_plain _ (plain_comment_no_newline _ Hc)). cbn.
    unfold is_plain_comment in Hc. now destruct (match_comment c).
Qed.

(* ------------------------------------------------------------------ *)
(** ** The writer *)

Lemma dump_items_appends dump st nd :
  (forall c w w', dump c w = Val w' ->
                  current_indent w' = current_indent w
                  /\ exists s, fp w' = (fp w ++ s)%string) ->
  forall o w w',
    dump_items dump st nd o w = Val w' ->
    current_indent w' = current_indent w
    /\ exists s, fp w' = (fp w ++ s)%string.
Proof.
  intros Hdump. induction o as [|[k|c] o IH]; intros w w' H; cbn [dump_items] in H.
  - inversion H; subst. split; [reflexivity|]. exists EmptyString.
    now rewrite str_app_nil_r.
  - destruct (dict_get (data nd) k) as [v|]; [|now apply IH].
    destruct (has_section nd k).
    + destruct v; try discriminate.
      destruct (nth_error st n) as [cnd|]; [|discriminate].
      destruct (dump n _) as [w1| |] eqn:E; try discriminate.
      apply Hdump in E as (Hi1 & s1 & Hs1).
      apply IH in H as (Hi & s & Hs). split.
      * rewrite Hi. unfold end_section. cbn [current_indent]. rewrite Hi1.
        unfold start_section, write_line, write_indent, write.
        destruct (get_modifier_name cnd); cbn [current_indent]; lia.
      * rewrite Hs. unfold end_section. cbn [fp]. rewrite Hs1.
        unfold start_section, write_line, write_indent, write.
        destruct (get_modifier_name cnd); cbn [fp current_indent];
          rewrite !str_app_assoc; eexists; reflexivity.
    + unfold write_key_value in H. destruct (py_str v) as [txt|]; [|discriminate].
      apply IH in H as (Hi & s & Hs). split; [exact Hi|].
      rewrite Hs. unfold write_line, write_indent, write. cbn [fp current_indent].
      rewrite !str_app_assoc. eexists; reflexivity.
  - apply IH in H as (Hi & s & Hs). rewrite write_comment_text in Hi, Hs.
    split; [exact Hi|]. rewrite Hs. cbn [fp]. rewrite str_app_assoc.
    eexists; reflexivity.
Qed.

(** X12.  [__dump__] only appends to the stream, and it returns the writer
    at the indentation it was given: every [start_section] is paired with
    its [end_section]. *)
Theorem dump_appends fuel st n w w' :
  dump_node fuel st n w = Val w' ->
  current_indent w' = current_indent w
  /\ exists s, fp w' = (fp w ++ s)%string.
Proof.
  revert n w w'. induction fuel as [|f IH]; intros n w w' H; [discriminate|].
  rewrite dump_node_eq in H. destruct (nth_error st n) as [nd|]; [|discriminate].
  eapply dump_items_appends; [|exact H]. intros c w0 w1. apply IH.
Qed.

Lemma dump_appends_witness :
  let w' := mkWriter ("x" ++ join (lines_of 3 sample_tree)) 3 in
  current_indent w' = 3 /\ exists s, fp w' = ("x" ++ s)%string.
Proof.
  intros w'.
  apply (dump_appends 2 sample_store 0 (mkWriter "x" 3) w').
  vm_compute. reflexivity.
Defined.

(* ------------------------------------------------------------------ *)
(** ** Construction from a text and copies *)

Lemma construct_new own st :
  (forall o, own = Some o -> o < List.length st) ->
  exists nd,
    construct own st = (st ++ [nd], Val (List.length st)) /\ is_fresh nd.
Proof.
  intros Hown.
  assert (Halloc : exists nd,
            match own with
            | None => new_root
            | Some o =>
                ond <- get_node o;;
                alloc (fun _ => mkNode [] [] [] (Some o) (root ond) [] None None
                                       false)
            end st = (st ++ [nd], Val (List.length st)) /\ is_fresh nd).
  { destruct own as [o|].
    - destruct (nth_error st o) as [ond|] eqn:Ho.
      + eexists. rewrite (bind_val _ _ _ _ _ (get_node_ok _ _ _ Ho)).
        split; [reflexivity|]. repeat split.
      + apply nth_error_None in Ho. specialize (Hown o eq_refl). lia.
    - eexists. split; [reflexivity|]. repeat split. }
  destruct Halloc as (nd & Halloc & Hfresh). exists nd. split; [|exact Hfresh].
  unfold construct. rewrite (bind_val _ _ _ _ _ Halloc). cbv beta.
  unfold update. destruct Hfresh as (Hf & _).
  rewrite (bind_val _ _ _ _ _
             (bind_val _ _ _ _ _
                (guard_ok _ "update" _ _ (nth_error_snoc_new st nd) Hf))).
  reflexivity.
Qed.

(** [load] of the lines of a tree into a fresh node leaves the tree there
    and the other nodes as they were. *)
Lemma load_tree pf le t st c nd :
  tree_ok t = true -> values_ok pf le t = true ->
  nth_error st c = Some nd -> is_fresh nd ->
  exists st',
    load pf le c (lines_of 0 t) st = (st', Val tt)
    /\ frame c st st'
    /\ rep (fun i => i = c \/ List.length st <= i) st' t c.
Proof.
  intros Hok Hvalues Hn Hfresh.
  destruct (parse_tree pf le t Hok Hvalues 0 c [] (mkParser None [(0, c)]) st 0
                       nd)
    as (st' & p' & Hp & _ & Hframe & Hrep); try assumption.
  - right. exists []. split; [reflexivity|constructor].
  - reflexivity.
  - exists st'. split; [|split; assumption].
    unfold load. destruct Hfresh as (Hf & _).
    rewrite (bind_val _ _ _ _ _ (guard_ok _ _ _ _ Hn Hf)).
    now rewrite (bind_val _ _ _ _ _ Hp).
Qed.

Lemma frame_new st st' x :
  frame (List.length st) (st ++ [x]) st' ->
  List.length st < List.length st'
  /\ forall i, i < List.length st -> nth_error st' i = nth_error st i.
Proof.
  intros [Hlen Hsame]. rewrite length_app in Hlen. cbn in Hlen.
  split; [lia|]. intros i Hi.
  rewrite Hsame; [now apply nth_error_app1|lia|rewrite length_app; cbn; lia].
Qed.

(** X13.  [from_string] of the text of a well-formed tree, whose values
    are read back from their text as themselves, makes a new node at the
    end of the store that holds the tree, and changes no node that was
    there. *)
Theorem from_string_builds_the_tree pf le t own st :
  tree_ok t = true -> values_ok pf le t = true ->
  (forall o, own = Some o -> o < List.length st) ->
  exists st',
    from_string pf le (text_of t) own st = (st', Val (List.length st))
    /\ holds_tree st' (List.length st) t
    /\ (forall i, i < List.length st -> nth_error st' i = nth_error st i).
Proof.
  intros Hok Hvalues Hown.
  destruct (construct_new own st Hown) as (nd & Hc & Hfresh).
  pose proof (nth_error_snoc_new st nd) as Hn.
  destruct (load_tree pf le t _ _ _ Hok Hvalues Hn Hfresh)
    as (st' & Hload & Hframe & Hrep).
  exists st'. split; [|split].
  - assert (Hloads : loads pf le (List.length st) (text_of t) (st ++ [nd])
                     = (st', Val tt)).
    { unfold loads. destruct Hfresh as (Hf & _).
      rewrite (bind_val _ _ _ _ _ (guard_ok _ "loads" _ _ Hn Hf)).
      now rewrite (split_lines_text _ Hok). }
    unfold from_string. rewrite (bind_val _ _ _ _ _ Hc). cbv beta.
    now rewrite (bind_val _ _ _ _ _ Hloads).
  - eapply rep_weaken; [|exact Hrep]. auto.
  - now apply (frame_new st st' nd).
Qed.

Lemma from_string_builds_the_tree_witness :
  exists st',
    from_string (fun _ => None) (fun _ => None) (text_of sample_tree) (Some 0)
                sample_store = (st', Val (List.length sample_store))
    /\ holds_tree st' (List.length sample_store) sample_tree
    /\ (forall i, i < List.length sample_store ->
                  nth_error st' i = nth_error sample_store i).
Proof.
  apply (from_string_builds_the_tree (fun _ => None) (fun _ => None)
           sample_tree (Some 0) sample_store).
  - vm_compute. reflexivity.
  - vm_compute. reflexivity.
  - intros o H. inversion H; subst. vm_compute. lia.
Defined.

(** X14.  [copy] is a deep copy: for a node that holds a well-formed
    tree, whose values are read back from their text as themselves, it
    returns a new node at the end of the store that holds the same tree in
    nodes that are all new, the nodes that were there stay as they are, the
    original among them, and the two are equivalent trees. *)
Theorem copy_is_deep pf le st n t fuel own :
  holds_tree st n t -> tree_ok t = true -> values_ok pf le t = true ->
  tree_depth t <= fuel ->
  (forall o, own = Some o -> o < List.length st) ->
  exists st',
    copy pf le fuel n own st = (st', Val (List.length st))
    /\ (forall i, i < List.length st -> nth_error st' i = nth_error st i)
    /\ rep (fun i => List.length st <= i) st' t (List.length st)
    /\ holds_tree st' n t
    /\ same_tree fuel st' n st' (List.length st).
Proof.
  intros Hrep Hok Hvalues Hfuel Hown.
  destruct (construct_new own st Hown) as (nd & Hc & Hfresh).
  pose proof (nth_error_snoc_new st nd) as Hn.
  destruct (load_tree pf le t _ _ _ Hok Hvalues Hn Hfresh)
    as (st' & Hload & Hframe & Hrep').
  destruct (frame_new _ _ _ Hframe) as [Hlen Hsame].
  assert (Hnew : rep (fun i => List.length st <= i) st' t (List.length st)).
  { eapply rep_weaken; [|exact Hrep']. cbn. intros i [->|Hi]; [lia|].
    rewrite length_app in Hi. cbn in Hi. lia. }
  assert (Hold : holds_tree st' n t).
  { apply (rep_frame _ st); [|exact Hrep]. intros i _ Hi. now apply Hsame. }
  exists st'. split; [|split; [exact Hsame|split; [exact Hnew|split; [exact Hold|]]]].
  - unfold copy.
    rewrite (dump_node_tree _ st t Hok fuel n EmptyString 0 Hrep Hfuel).
    cbn [fp String.append]. fold (text_of t).
    change (join (lines_of 0 t)) with (text_of t).
    rewrite (split_lines_text _ Hok), (bind_val _ _ _ _ _ Hc). cbv beta.
    now rewrite (bind_val _ _ _ _ _ Hload).
  - now apply (same_tree_rep _ _ st' st' t Hok fuel n (List.length st) Hfuel
                 Hold Hnew).
Qed.

Lemma copy_is_deep_witness :
  exists st',
    copy (fun _ => None) (fun _ => None) 2 0 None sample_store
      = (st', Val (List.length sample_store))
    /\ (forall i, i < List.length sample_store ->
                  nth_error st' i = nth_error sample_store i)
    /\ rep (fun i => List.length sample_store <= i) st' sample_tree
           (List.length sample_store)
    /\ holds_tree st' 0 sample_tree
    /\ same_tree 2 st' 0 st' (List.length sample_store).
Proof.
  apply (copy_is_deep (fun _ => None) (fun _ => None) sample_store 0
           sample_tree 2 None).
  - unfold holds_tree. vm_compute.
    repeat first [exact I | reflexivity | split | eexists].
  - vm_compute. reflexivity.
  - vm_compute. reflexivity.
  - cbn. lia.
  - intros o H. discriminate H.
Defined.

(* ------------------------------------------------------------------ *)
(** ** Bound keys *)

(** X15.  A key bound in a node of a reachable store is its own normal
    form and no metadata name, so the key as it is stored finds its
    binding: [in], [has_key] and [get_value] under this key all reach it. *)
Theorem bound_keys_are_found pf le st n nd k :
  reachable pf le st -> nth_error st n = Some nd ->
  dict_has (data nd) k = true ->
  is_normal_key k = true /\ is_meta_key k = false
  /\ key_transform (KStr k) = Val k
  /\ contains n (KStr k) st = (st, Val true)
  /\ has_key n (KStr k) st = (st, Val true)
  /\ (get_modifier nd = None ->
      exists v, dict_get (data nd) k = Some v
                /\ get_value n (KStr k) st = (st, Val (Some v))).
Proof.
  intros Hreach Hn Hk.
  assert (Hok : key_ok k = true).
  { eapply node_ok_key; [|exact Hk].
    eapply store_ok_nth; [eapply reachable_store_ok; exact Hreach|exact Hn]. }
  unfold key_ok in Hok. apply andb_true_iff in Hok as [Hnorm Hmeta].
  apply negb_true_iff in Hmeta.
  pose proof (key_transform_normal_key _ Hnorm) as Hkt.
  assert (Hm : meta_has nd k = false)
    by now rewrite (meta_has_indep nd empty_root).
  split; [exact Hnorm|]. split; [exact Hmeta|]. split; [exact Hkt|].
  split. { now rewrite (contains_eq _ _ _ _ Hn), Hkt, Hk. }
  split. { now rewrite (has_key_eq _ _ _ _ Hn), Hm, Hk. }
  intros Hmod. unfold dict_has in Hk.
  destruct (dict_get (data nd) k) as [v|] eqn:Hv; [|discriminate].
  exists v. split; [reflexivity|].
  rewrite (get_value_eq _ _ _ _ Hn), Hkt, (meta_get_none nd nd k Hm), Hmod.
  now rewrite Hv.
Qed.

Lemma bound_keys_are_found_witness :
  let st := fst (set_value (PInt 1) 0 (KStr "My.Key") init_store) in
  let nd := mkNode [("my_key", PInt 1)] [OKey "my_key"] [] None 0 [] None None
                   false in
  is_normal_key "my_key" = true /\ is_meta_key "my_key" = false
  /\ key_transform (KStr "my_key") = Val "my_key"
  /\ contains 0 (KStr "my_key") st = (st, Val true)
  /\ has_key 0 (KStr "my_key") st = (st, Val true)
  /\ (get_modifier nd = None ->
      exists v, dict_get (data nd) "my_key" = Some v
                /\ get_value 0 (KStr "my_key") st = (st, Val (Some v))).
Proof.
  intros st nd.
  apply (bound_keys_are_found (fun _ => None) (fun _ => None) st 0 nd "my_key").
  - change st with
      (fst (run_op (fun _ => None) (fun _ => None) 0
              (SetValue 0 (KStr "My.Key") (PInt 1)) init_store)).
    apply reach_run. apply reach_init.
  - reflexivity.
  - reflexivity.
Defined.

(* ------------------------------------------------------------------ *)
(** ** Sequences *)

Lemma key_transform_index z :
  (0 <= z)%Z -> key_transform (KInt z) = Val ("list" ++ str_of_int z)%string.
Proof.
  intros Hz. rewrite key_transform_eq. cbn [key_text].
  rewrite normalize_fix; [reflexivity|].
  rewrite str_forallb_app. apply andb_true_iff. split; [reflexivity|].
  eapply str_forallb_impl; [|apply (str_of_int_nonneg _ Hz)].
  apply digit_is_normal.
Qed.

Lemma str_of_int_inj a b : str_of_int a = str_of_int b -> a = b.
Proof.
  intros H. pose proof (py_int_str_of_int a) as E. rewrite H in E.
  rewrite py_int_str_of_int in E. now inversion E.
Qed.

Lemma index_key_not_meta nd s : meta_get nd ("list" ++ s) = None.
Proof. reflexivity. Qed.

Lemma stored_scalar v st : is_container v = false -> stored_value v st = v.
Proof. unfold stored_value. now intros ->. Qed.

(** The loop of [set_value] over a sequence of values that are no
    containers appends their bindings. *)
Lemma set_elems_data l :
  forall i c st st' nd,
    (0 <= i)%Z -> Forall (fun v => is_container v = false) l ->
    nth_error st c = Some nd ->
    set_elems c i l st = (st', Val tt) ->
    exists nd',
      nth_error st' c = Some nd' /\ modifier nd' = modifier nd
      /\ data nd' = data nd ++ list_entries i l.
Proof.
  induction l as [|v l IH]; intros i c st st' nd Hi Hl Hn H.
  - cbn in H. inversion H; subst. exists nd. rewrite app_nil_r. auto.
  - inversion Hl as [|? ? Hv Hl']; subst. cbn [set_elems] in H.
    bind_cases H; try discriminate. destruct a.
    destruct (set_value_success _ _ _ _ _ _ (key_transform_index _ Hi) Hm)
      as (nd0 & nd1 & Hn0 & Hn1 & _ & _ & _ & _ & _ & Hmod1 & Hdata1).
    rewrite Hn in Hn0. inversion Hn0; subst nd0.
    destruct (IH (i + 1)%Z c _ _ nd1 ltac:(lia) Hl' Hn1 H)
      as (nd' & Hn' & Hmod' & Hdata').
    exists nd'. split; [exact Hn'|]. split; [congruence|].
    rewrite Hdata', Hdata1, (stored_scalar _ _ Hv), <- app_assoc. reflexivity.
Qed.

Lemma list_entries_keys i l :
  dict_keys (list_entries i l) =
    map (fun z => ("list" ++ str_of_int z)%string) (list_indices i l).
Proof.
  revert i. induction l as [|v l IH]; intros i; cbn; [reflexivity|].
  f_equal. apply IH.
Qed.

Lemma list_entries_get l :
  forall i m,
    dict_get (list_entries i l) ("list" ++ str_of_int (i + Z.of_nat m))
    = nth_error l m.
Proof.
  induction l as [|v l IH]; intros i m; cbn [list_entries dict_get].
  - now destruct m.
  - destruct (String.eqb_spec ("list" ++ str_of_int i)
                              ("list" ++ str_of_int (i + Z.of_nat m))) as [E|E].
    + apply str_app_inv_head in E. apply str_of_int_inj in E.
      destruct m; [reflexivity|lia].
    + destruct m as [|m]; [elim E; now rewrite Z.add_0_r|].
      cbn [nth_error]. rewrite <- (IH (i + 1)%Z m). do 3 f_equal. lia.
Qed.

Lemma list_indices_mem l :
  forall i m, m < List.length l ->
    existsb (Z.eqb (i + Z.of_nat m)) (list_indices i l) = true.
Proof.
  induction l as [|v l IH]; intros i m Hm;
    cbn [list_indices existsb List.length] in *; [lia|].
  destruct m as [|m].
  - change (Z.of_nat 0) with 0%Z. now rewrite Z.add_0_r, Z.eqb_refl.
  - apply orb_true_iff. right.
    replace (i + Z.of_nat (S m))%Z with (i + 1 + Z.of_nat m)%Z by lia.
    apply IH. lia.
Qed.

Lemma list_indices_max_from l :
  forall b i, (b < i)%Z ->
    fold_right Z.max b (list_indices i l)
    = match l with
      | [] => b
      | _ :: _ => (i + Z.of_nat (List.length l) - 1)%Z
      end.
Proof.
  induction l as [|v l IH]; intros b i Hb; [reflexivity|].
  cbn [list_indices fold_right]. rewrite (IH b (i + 1)%Z) by lia.
  destruct l as [|v' l]; cbn [List.length]; lia.
Qed.

Lemma list_indices_max l i :
  fold_right Z.max i (list_indices (i + 1) l)
  = (i + Z.of_nat (List.length l))%Z.
Proof.
  rewrite list_indices_max_from by lia.
  destruct l as [|v l]; cbn [List.length]; lia.
Qed.

Lemma mapM_int_of_key l :
  forall i st,
    mapM int_of_key
         (map (fun z => ("list" ++ str_of_int z)%string) (list_indices i l)) st
    = (st, Val (list_indices i l)).
Proof.
  induction l as [|v l IH]; intros i st; cbn [list_indices map mapM];
    [reflexivity|].
  assert (Hk : int_of_key ("list" ++ str_of_int i) st = (st, Val i)).
  { unfold int_of_key. cbn [String.append str_drop].
    now rewrite py_int_str_of_int. }
  rewrite (bind_val _ _ _ _ _ Hk). cbv beta.
  now rewrite (bind_val _ _ _ _ _ (IH _ _)).
Qed.

Lemma mapM_seq {A} (f : nat -> M A) st (l : list A) :
  forall a,
    (forall m v, nth_error l m = Some v -> f (a + m) st = (st, Val v)) ->
    mapM f (seq a (List.length l)) st = (st, Val l).
Proof.
  induction l as [|v l IH]; intros a Hf; cbn [List.length seq mapM];
    [reflexivity|].
  assert (H0 : f a st = (st, Val v)).
  { rewrite <- (Nat.add_0_r a). now apply Hf. }
  rewrite (bind_val _ _ _ _ _ H0). cbv beta.
  assert (Hrest : mapM f (seq (S a) (List.length l)) st = (st, Val l)).
  { apply IH. intros m v' Hm.
    replace (S a + m) with (a + S m) by lia. now apply Hf. }
  now rewrite (bind_val _ _ _ _ _ Hrest).
Qed.

(** Iterating a node whose bindings are those of a sequence gives the
    sequence. *)
Lemma iterate_list_entries fuel c st nd l :
  nth_error st c = Some nd -> modifier nd = None ->
  data nd = list_entries 0 l ->
  iterate (S fuel) c st = (st, Val l).
Proof.
  intros Hn Hmod Hdata. unfold iterate, iter, iter_as_list, try_except.
  cbn [ret bind drain]. unfold iter_as_list_body.
  rewrite (bind_val _ _ _ _ _ (get_node_ok _ _ _ Hn)). cbv beta zeta.
  rewrite Hdata, list_entries_keys.
  destruct l as [|v l]; [reflexivity|].
  cbn [list_indices map List.length Nat.eqb].
  assert (Hprefix : forall zs,
            forallb (String.prefix "list")
                    (map (fun z => ("list" ++ str_of_int z)%string) zs) = true).
  { induction zs as [|z zs IH]; [reflexivity|]. cbn [map forallb].
    rewrite IH, andb_true_r. apply String.prefix_correct.
    cbn. now destruct (str_of_int z). }
  change (("list" ++ str_of_int 0)%string
          :: map (fun z => ("list" ++ str_of_int z)%string)
                 (list_indices (0 + 1) l))
    with (map (fun z => ("list" ++ str_of_int z)%string)
              (list_indices 0 (v :: l))).
  rewrite Hprefix. cbn [negb].
  rewrite (bind_val _ _ _ _ _ (mapM_int_of_key (v :: l) 0 st)). cbv beta.
  cbn [list_indices]. rewrite list_indices_max.
  replace (Z.to_nat (0 + Z.of_nat (List.length l) + 1))
    with (List.length (v :: l)) by (cbn [List.length]; lia).
  apply mapM_seq. intros m x Hm.
  assert (Hlt : m < List.length (v :: l)) by (apply nth_error_Some; congruence).
  change (0%Z :: list_indices (0 + 1) l) with (list_indices 0 (v :: l)).
  cbn [Nat.add].
  pose proof (list_indices_mem (v :: l) 0 m Hlt) as Hmem.
  rewrite Z.add_0_l in Hmem. rewrite Hmem.
  rewrite getitem_eq.
  assert (Hget : get_value c (KInt (Z.of_nat m)) st = (st, Val (Some x))).
  { rewrite (get_value_eq _ _ _ _ Hn), (key_transform_index _ (Nat2Z.is_nonneg m)).
    rewrite index_key_not_meta. unfold get_modifier, get_modifier_name.
    rewrite Hmod. cbn [get_modifier_by_name]. rewrite Hdata.
    pose proof (list_entries_get (v :: l) 0 m) as E. rewrite Z.add_0_l in E.
    now rewrite E, Hm. }
  now rewrite (bind_val _ _ _ _ _ Hget).
Qed.

(** X16.  A sequence comes back from its section: after [set_value] has
    stored a list or a tuple of values that are no containers, iterating
    the section it made, the node at the end of the old store, yields the
    elements in their order. *)
Theorem sequence_round_trip value l n key st st' fuel :
  value = PList l \/ value = PTuple l ->
  Forall (fun v => is_container v = false) l ->
  set_value value n key st = (st', Val tt) ->
  iterate (S fuel) (List.length st) st' = (st', Val l).
Proof.
  intros Hvalue Hl H.
  destruct (nth_error st n) as [nd|] eqn:Hn;
    [|rewrite (set_value_dangling _ _ _ _ Hn) in H; discriminate].
  rewrite (set_value_eq _ _ _ _ _ Hn) in H.
  destruct (frozen nd) eqn:Hf; [discriminate|].
  destruct (key_transform key) as [k|e|w] eqn:Hk; try discriminate.
  destruct (get_modifier nd); [discriminate|].
  destruct (meta_has nd k) eqn:Hmeta; [discriminate|].
  destruct (dict_has (data nd) k) eqn:Hd; [discriminate|].
  assert (Hloop : (sec <- add_section n (KStr k) None;; set_elems sec 0 l) st
                  = (st', Val tt)).
  { destruct Hvalue as [-> | ->]; exact H. }
  clear H. bind_cases Hloop; try discriminate.
  rewrite (add_section_eq _ _ _ _ _ Hn), Hf, (key_transform_idem _ _ Hk),
    Hmeta, Hd in Hm.
  destruct (has_section nd k); [discriminate|]. inversion Hm; subst. clear Hm.
  set (child := child_node n nd k None) in *.
  assert (Hchild : nth_error
                     (list_set (st ++ [child]) n
                        (with_section (bind_key nd k (PConf (List.length st))) k))
                     (List.length st) = Some child).
  { rewrite nth_error_set_other; [apply nth_error_snoc_new|].
    assert (n < List.length st) by (apply nth_error_Some; congruence). lia. }
  destruct (set_elems_data l 0 _ _ _ child ltac:(lia) Hl Hchild Hloop)
    as (nd' & Hn' & Hmod' & Hdata').
  now apply (iterate_list_entries fuel _ _ nd').
Qed.

Lemma sequence_round_trip_witness :
  let l := [PInt 1; PStr "a"; PNone] in
  let st' := fst (set_value (PList l) 0 (KStr "xs") init_store) in
  iterate 1 (List.length init_store) st' = (st', Val l).
Proof.
  intros l st'.
  apply (sequence_round_trip (PList l) l 0 (KStr "xs") init_store st' 0).
  - now left.
  - repeat constructor.
  - reflexivity.
Defined.

(* ------------------------------------------------------------------ *)
(** ** Mappings *)

Lemma set_value_key value n key st st' :
  set_value value n key st = (st', Val tt) -> exists k, key_transform key = Val k.
Proof.
  intros H. destruct (nth_error st n) as [nd|] eqn:Hn;
    [|rewrite (set_value_dangling _ _ _ _ Hn) in H; discriminate].
  rewrite (set_value_eq _ _ _ _ _ Hn) in H.
  destruct (frozen nd); [discriminate|].
  destruct (key_transform key) as [k|e|w]; try discriminate. eauto.
Qed.

Lemma dict_get_app_old d k v k' v' :
  dict_get d k' = Some v' -> dict_get (d ++ [(k, v)]) k' = Some v'.
Proof.
  induction d as [|[k0 v0] d IH]; cbn; [discriminate|].
  destruct (String.eqb k0 k'); auto.
Qed.

(** The loop of [set_value] over the items of a mapping whose values are
    no containers binds every key to its value and keeps what was bound. *)
Lemma set_items_lookup d :
  forall c st st' nd,
    Forall (fun kv : pykey * pyval => is_container (snd kv) = false) d ->
    nth_error st c = Some nd ->
    set_items c d st = (st', Val tt) ->
    exists nd',
      nth_error st' c = Some nd' /\ modifier nd' = modifier nd
      /\ (forall k v, dict_get (data nd) k = Some v ->
                      dict_get (data nd') k = Some v)
      /\ (forall key v, In (key, v) d ->
            exists k, key_transform key = Val k /\ meta_has nd k = false
                      /\ dict_get (data nd') k = Some v).
Proof.
  induction d as [|[key0 v0] d IH]; intros c st st' nd Hd Hn H.
  - cbn in H. inversion H; subst. exists nd. repeat split; auto.
    intros key v [].
  - inversion Hd as [|? ? Hv Hd']; subst. cbn [snd] in Hv.
    cbn [set_items] in H. bind_cases H; try discriminate. destruct a.
    destruct (set_value_key _ _ _ _ _ Hm) as (k0 & Hk0).
    destruct (set_value_success _ _ _ _ _ _ Hk0 Hm)
      as (nd0 & nd1 & Hn0 & Hn1 & _ & _ & Hmeta & Hfree & _ & Hmod1 & Hdata1).
    rewrite Hn in Hn0. inversion Hn0; subst nd0.
    rewrite (stored_scalar _ _ Hv) in Hdata1.
    destruct (IH c _ _ nd1 Hd' Hn1 H) as (nd' & Hn' & Hmod' & Hold & Hnew).
    exists nd'. split; [exact Hn'|]. split; [congruence|]. split.
    + intros k v Hkv. apply Hold. rewrite Hdata1. now apply dict_get_app_old.
    + intros key v [Heq|Hin].
      * inversion Heq; subst. exists k0. split; [exact Hk0|].
        split; [exact Hmeta|]. apply Hold.
        rewrite Hdata1, <- (dict_set_new _ _ _ Hfree).
        now apply dict_get_set_new.
      * destruct (Hnew key v Hin) as (k & Hk & Hm' & Hget).
        exists k. split; [exact Hk|]. split; [|exact Hget].
        now rewrite (meta_has_indep nd nd1).
Qed.

(** X17.  A mapping comes back from its section: after [set_value] has
    stored a dict of values that are no containers, [get_value] on the
    section it made, the node at the end of the old store, returns for
    every key of the dict its value. *)
Theorem mapping_round_trip d n key st st' :
  Forall (fun kv : pykey * pyval => is_container (snd kv) = false) d ->
  set_value (PDict d) n key st = (st', Val tt) ->
  forall key' v, In (key', v) d ->
    get_value (List.length st) key' st' = (st', Val (Some v)).
Proof.
  intros Hd H key' v Hin.
  destruct (nth_error st n) as [nd|] eqn:Hn;
    [|rewrite (set_value_dangling _ _ _ _ Hn) in H; discriminate].
  rewrite (set_value_eq _ _ _ _ _ Hn) in H.
  destruct (frozen nd) eqn:Hf; [discriminate|].
  destruct (key_transform key) as [k|e|w] eqn:Hk; try discriminate.
  destruct (get_modifier nd); [discriminate|].
  destruct (meta_has nd k) eqn:Hmeta; [discriminate|].
  destruct (dict_has (data nd) k) eqn:Hfree; [discriminate|].
  bind_cases H; try discriminate.
  rewrite (add_section_eq _ _ _ _ _ Hn), Hf, (key_transform_idem _ _ Hk),
    Hmeta, Hfree in Hm.
  destruct (has_section nd k); [discriminate|]. inversion Hm; subst. clear Hm.
  set (child := child_node n nd k None) in *.
  assert (Hchild : nth_error
                     (list_set (st ++ [child]) n
                        (with_section (bind_key nd k (PConf (List.length st))) k))
                     (List.length st) = Some child).
  { rewrite nth_error_set_other; [apply nth_error_snoc_new|].
    assert (n < List.length st) by (apply nth_error_Some; congruence). lia. }
  destruct (set_items_lookup d _ _ _ child Hd Hchild H)
    as (nd' & Hn' & Hmod' & _ & Hnew).
  destruct (Hnew key' v Hin) as (k' & Hk' & Hm' & Hget).
  rewrite (get_value_eq _ _ _ _ Hn'), Hk', (meta_get_none child nd' k' Hm').
  unfold get_modifier, get_modifier_name. rewrite Hmod'. cbn.
  now rewrite Hget.
Qed.

Lemma mapping_round_trip_witness :
  let d := [(KStr "Host", PStr "localhost"); (KStr "port", PInt 80)] in
  let st' := fst (set_value (PDict d) 0 (KStr "server") init_store) in
  get_value (List.length init_store) (KStr "Host") st'
    = (st', Val (Some (PStr "localhost"))).
Proof.
  intros d st'.
  apply (mapping_round_trip d 0 (KStr "server") init_store st'
           ltac:(repeat constructor) eq_refl (KStr "Host") (PStr "localhost")).
  now left.
Defined.

(* ------------------------------------------------------------------ *)
(** ** Failed writes, entry by entry *)








(* ------------------------------------------------------------------ *)
(** ** Freezing a tree *)

Lemma node_step_sections_ok nd nd' :
  node_step nd nd' ->
  forallb key_ok (sections nd) = true -> forallb key_ok (sections nd') = true.
Proof.
  intros H Hs. destruct H; cbn; auto.
  - unfold set_add. destruct (set_mem (sections nd) k); [exact Hs|].
    rewrite forallb_app, Hs. cbn. now rewrite H0.
  - unfold without_key. destruct (set_mem _ _); cbn; [|exact Hs].
    unfold set_remove. rewrite forallb_forall in *. intros x Hx.
    apply filter_In in Hx as [Hx _]. now apply Hs.
Qed.

Lemma reachable_sane pf le st : reachable pf le st -> sane st.
Proof.
  intros Hreach i nd Hi. split.
  { eapply store_ok_nth; [eapply reachable_store_ok; exact Hreach|exact Hi]. }
  apply reachable_moves in Hreach. revert i nd Hi.
  apply (moves_invariant
           (fun st => forall i nd, nth_error st i = Some nd ->
                                   forallb key_ok (sections nd) = true))
    with (st := init_store); [|exact Hreach|].
  - clear. intros st st' Hs Hst i nd Hi.
    destruct (store_step_new_nth _ _ _ _ Hs Hi)
      as [(nd0 & Hn0 & [->|Hstep])|(_ & _ & Hnew)].
    + now apply (Hst i).
    + apply (node_step_sections_ok _ _ Hstep). now apply (Hst i).
    + destruct Hnew as (_ & _ & _ & -> & _). reflexivity.
  - intros [|[|j]] nd H; cbn in H; inversion H; subst; reflexivity.
Qed.

Lemma freezes_refl st : freezes st st.
Proof. split; auto. Qed.

Lemma freezes_trans st st1 st2 :
  freezes st st1 -> freezes st1 st2 -> freezes st st2.
Proof.
  intros [Hl1 H1] [Hl2 H2]. split; [congruence|]. intros i nd Hi.
  destruct (H1 i nd Hi) as [Hi1|Hi1]; destruct (H2 _ _ Hi1) as [Hi2|Hi2]; auto.
Qed.

Lemma freezes_set st n nd :
  nth_error st n = Some nd -> freezes st (list_set st n (with_frozen nd true)).
Proof.
  intros Hn. split; [apply length_list_set|]. intros i nd0 Hi.
  destruct (Nat.eq_dec n i) as [->|Hne].
  - right. rewrite Hi in Hn. inversion Hn; subst.
    now apply (nth_error_set_same _ _ nd).
  - left. now rewrite nth_error_set_other.
Qed.

Lemma freezes_nth st st' i nd :
  freezes st st' -> nth_error st i = Some nd ->
  exists nd',
    nth_error st' i = Some nd' /\ data nd' = data nd
    /\ sections nd' = sections nd /\ modifier nd' = modifier nd
    /\ (frozen nd = true -> frozen nd' = true).
Proof.
  intros [_ H] Hi. destruct (H i nd Hi) as [Hi'|Hi']; eexists;
    (split; [exact Hi'|]); repeat split; auto.
Qed.

Lemma freezes_back st st' i nd' :
  freezes st st' -> nth_error st' i = Some nd' ->
  exists nd, nth_error st i = Some nd /\ data nd' = data nd
             /\ sections nd' = sections nd.
Proof.
  intros [Hlen H] Hi'. destruct (nth_error st i) as [nd|] eqn:Hi.
  - exists nd. split; [reflexivity|].
    destruct (H i nd Hi) as [E|E]; rewrite E in Hi'; inversion Hi'; subst; auto.
  - apply nth_error_None in Hi.
    assert (i < List.length st') by (apply nth_error_Some; congruence). lia.
Qed.

Lemma sane_freezes st st' : freezes st st' -> sane st -> sane st'.
Proof.
  intros Hfr Hst i nd' Hi'.
  destruct (freezes_back _ _ _ _ Hfr Hi') as (nd & Hi & Hd & Hs).
  destruct (Hst i nd Hi) as [Hok Hsec]. split.
  - unfold node_ok, data_keys_ok in *. now rewrite Hd.
  - now rewrite Hs.
Qed.

Lemma frozen_at_freezes st st' m :
  freezes st st' -> frozen_at st m -> frozen_at st' m.
Proof.
  intros Hfr (nd & Hm & Hf).
  destruct (freezes_nth _ _ _ _ Hfr Hm) as (nd' & Hm' & _ & _ & _ & Hf').
  exists nd'. auto.
Qed.

Lemma below_freezes st st' n m :
  freezes st st' -> below st n m -> below st' n m.
Proof.
  intros Hfr H. induction H as [n|n nd k c m Hn Hs Hd _ IH]; [constructor|].
  destruct (freezes_nth _ _ _ _ Hfr Hn) as (nd' & Hn' & Hd' & Hs' & _).
  apply (@below_section st' n nd' k c m); auto.
  - unfold has_section in *. now rewrite Hs'.
  - now rewrite Hd'.
Qed.

Lemma still_ret {A} (a : A) st : still (ret a) st.
Proof. intros st' r H. now inversion H. Qed.

Lemma still_raise {A} e st : still (@raise A e) st.
Proof. intros st' r H. now inversion H. Qed.

Lemma still_stuck {A} w st : still (@stuck A w) st.
Proof. intros st' r H. now inversion H. Qed.

Lemma still_bind {A B} (m : M A) (k : A -> M B) st :
  still m st -> (forall a, m st = (st, Val a) -> still (k a) st) ->
  still (bind m k) st.
Proof.
  intros Hm Hk st' r H. bind_cases H.
  - pose proof (Hm _ _ Hm0) as ->. eapply Hk; eassumption.
  - eapply Hm; eassumption.
  - eapply Hm; eassumption.
Qed.

Lemma still_get_value n key st : still (get_value n key) st.
Proof. intros st' r. apply get_value_store. Qed.

Lemma still_get_node n st : still (get_node n) st.
Proof. intros st' r H. now apply get_node_inv in H. Qed.

Lemma still_contains n key st : still (contains n key) st.
Proof.
  unfold contains. apply still_bind.
  - intros st' r H. now apply lift_inv in H.
  - intros k _. apply still_bind; [apply still_get_node|].
    intros nd _. apply still_ret.
Qed.

Lemma still_py_contains v key st : still (py_contains v key) st.
Proof.
  destruct v; cbn [py_contains]; try apply still_raise.
  - destruct key; [apply still_ret|apply still_raise].
  - apply still_contains.
Qed.

(** [node[key]] changes nothing when the key is a section of the node or
    is bound in it: no section is made for it. *)
Lemma getitem_bound_still fuel :
  forall n key st nd k,
    nth_error st n = Some nd -> key_transform key = Val k ->
    has_section nd k = true \/ dict_has (data nd) k = true ->
    still (getitem fuel n key) st.
Proof.
  induction fuel as [|f IH]; intros n key st nd k Hn Hk Hbound;
    [apply still_stuck|].
  rewrite getitem_eq. apply still_bind; [apply still_get_value|].
  intros [v|] Hget; [apply still_ret|].
  assert (Hsec : has_section nd k = true).
  { destruct Hbound as [Hs|Hd]; [exact Hs|]. exfalso.
    rewrite (get_value_eq _ _ _ _ Hn), Hk in Hget.
    destruct (meta_get nd k); [discriminate|].
    destruct (get_modifier nd); [discriminate|].
    unfold dict_has in Hd. destruct (dict_get (data nd) k); discriminate. }
  clear Hget.
  enough (Hwalk : forall g conf,
             still (globals_walk (getitem f) n key g conf) st)
    by apply Hwalk.
  induction g as [|g IHg]; intros [c|]; cbn [globals_walk].
  - apply still_stuck.
  - intros st' r H. rewrite (get_section_eq _ _ _ _ Hn), Hk, Hsec in H.
    destruct (dict_get (data nd) k); now inversion H.
  - apply still_bind; [apply still_get_node|]. intros cnd Hc.
    apply get_node_inv in Hc as [_ Hc].
    destruct (nth_error st c) as [cnd0|] eqn:Hcn; [|discriminate].
    inversion Hc; subst cnd0. clear Hc.
    destruct (has_section cnd "globals") eqn:Hg; [|apply IHg].
    assert (Hglobals : still (getitem f c (KStr "globals")) st).
    { apply (IH c (KStr "globals") st cnd "globals"); auto. }
    apply still_bind; [exact Hglobals|]. intros gl Hgl.
    apply still_bind; [apply still_py_contains|]. intros [|] Hfound; [|apply IHg].
    apply still_bind; [exact Hglobals|]. intros gl' Hgl'.
    rewrite Hgl in Hgl'. inversion Hgl'; subst gl'.
    destruct gl; try apply still_raise.
    cbn [py_contains] in Hfound.
    destruct (nth_error st n0) as [gnd|] eqn:Hgn.
    + rewrite (contains_eq _ _ _ _ Hgn), Hk in Hfound. inversion Hfound.
      apply (IH n0 key st gnd k); auto.
    + unfold contains, bind, lift, get_node in Hfound.
      rewrite Hk, Hgn in Hfound. discriminate.
  - intros st' r H. rewrite (get_section_eq _ _ _ _ Hn), Hk, Hsec in H.
    destruct (dict_get (data nd) k); now inversion H.
Qed.

Lemma set_immutable_node fuel gfuel n recursive from_root st st' :
  set_immutable fuel gfuel n recursive from_root st = (st', Val tt) ->
  exists f nd, fuel = S f /\ nth_error st n = Some nd /\ frozen nd = false.
Proof.
  destruct fuel as [|f]; [discriminate|]. rewrite set_immutable_eq. intros H.
  bind_cases H; try discriminate. apply guard_inv in Hm as [_ Hm].
  destruct (nth_error st n) as [nd|]; [|discriminate].
  destruct (frozen nd) eqn:Hf; [discriminate|]. eauto.
Qed.

(** What reading a section of a node returns, in a store where keys are
    as [__key_transform__] returns them. *)
Lemma getitem_section gfuel n s st nd st' v :
  nth_error st n = Some nd -> key_ok s = true ->
  getitem gfuel n (KStr s) st = (st', Val v) ->
  forall c, dict_get (data nd) s = Some (PConf c) -> v = PConf c.
Proof.
  intros Hn Hs H c Hc. destruct gfuel as [|g]; [discriminate|].
  unfold key_ok in Hs. apply andb_true_iff in Hs as [Hnorm Hmeta].
  apply negb_true_iff in Hmeta.
  rewrite getitem_eq in H. unfold bind in H.
  rewrite (get_value_eq _ _ _ _ Hn), (key_transform_normal_key _ Hnorm) in H.
  rewrite (meta_get_none empty_root nd s Hmeta) in H.
  destruct (get_modifier nd); [discriminate|]. rewrite Hc in H.
  now inversion H.
Qed.

Lemma set_immutable_below gfuel fuel :
  forall n recursive from_root st st' nd,
    sane st -> nth_error st n = Some nd ->
    from_root = false \/ n = root nd ->
    set_immutable fuel gfuel n recursive from_root st = (st', Val tt) ->
    freezes st st' /\ frozen_at st' n
    /\ (recursive = true -> forall m, below st n m -> frozen_at st' m).
Proof.
  induction fuel as [|f IH]; intros n recursive from_root st st' nd Hsane Hn Hfr H;
    [discriminate|].
  destruct (set_immutable_node _ _ _ _ _ _ _ H) as (_ & nd0 & _ & Hn0 & Hf).
  rewrite Hn in Hn0. inversion Hn0; subst nd0. clear Hn0.
  rewrite set_immutable_eq in H.
  rewrite (bind_val _ _ _ _ _ (guard_ok _ _ _ _ Hn Hf)) in H.
  rewrite (bind_val _ _ _ _ _ (get_node_ok _ _ _ Hn)) in H.
  assert (Hcond : from_root && negb (Nat.eqb n (root nd)) = false).
  { destruct Hfr as [->|Hroot]; [reflexivity|].
    rewrite <- Hroot, Nat.eqb_refl. apply andb_false_r. }
  rewrite Hcond in H.
  assert (Hput : put_node n (with_frozen nd true) st =
                   (list_set st n (with_frozen nd true), Val tt)) by reflexivity.
  rewrite (bind_val _ _ _ _ _ Hput) in H.
  set (s1 := list_set st n (with_frozen nd true)) in *.
  assert (Hfr1 : freezes st s1) by now apply freezes_set.
  assert (Hn1 : frozen_at s1 n).
  { exists (with_frozen nd true). split; [|reflexivity].
    now apply (nth_error_set_same _ _ nd). }
  destruct recursive.
  2:{ inversion H; subst. split; [exact Hfr1|]. split; [exact Hn1|discriminate]. }
  assert (Hloop : forall ss s2 st2,
            (forall s, In s ss -> In s (sections nd)) ->
            freezes st s2 ->
            freeze_sections (getitem gfuel) n
              (fun c => set_immutable f gfuel c true false) ss s2
              = (st2, Val tt) ->
            freezes s2 st2
            /\ forall k c, In k ss -> dict_get (data nd) k = Some (PConf c) ->
                 forall m, below st c m -> frozen_at st2 m).
  { induction ss as [|s ss IHss]; intros s2 st2 Hss Hfr2 Hrun;
      cbn [freeze_sections] in Hrun.
    { inversion Hrun; subst. split; [apply freezes_refl|]. intros k c []. }
    destruct (freezes_nth _ _ _ _ Hfr2 Hn) as (nd2 & Hn2 & Hd2 & Hs2 & _).
    assert (Hs : key_ok s = true).
    { destruct (Hsane n nd Hn) as [_ Hsec]. rewrite forallb_forall in Hsec.
      apply Hsec, Hss. now left. }
    assert (Hks : key_transform (KStr s) = Val s).
    { apply key_transform_normal_key. unfold key_ok in Hs.
      now apply andb_true_iff in Hs as [Hs _]. }
    apply bind_inv in Hrun.
    destruct Hrun as [(sa & v & Hget & Hrun)|[(e & _ & Habs)|(w & _ & Habs)]];
      try discriminate.
    assert (Hsa : sa = s2).
    { apply (getitem_bound_still gfuel n (KStr s) s2 nd2 s Hn2 Hks) in Hget;
        [exact Hget|].
      left. unfold has_section. rewrite Hs2. apply set_mem_in, Hss. now left. }
    subst sa.
    apply bind_inv in Hrun.
    destruct Hrun as [(sb & u & Hsub & Hrun)|[(e & _ & Habs)|(w & _ & Habs)]];
      try discriminate.
    destruct v as [| | | | | |c0|]; try discriminate. destruct u.
    destruct (set_immutable_node _ _ _ _ _ _ _ Hsub) as (_ & cnd & _ & Hcn & _).
    destruct (IH c0 true false s2 sb cnd (sane_freezes _ _ Hfr2 Hsane) Hcn
                (or_introl eq_refl) Hsub) as (Hfr3 & _ & Hbelow3).
    destruct (IHss sb st2 (fun x Hx => Hss x (or_intror Hx))
                (freezes_trans _ _ _ Hfr2 Hfr3) Hrun) as (Hfr4 & Hrest).
    split; [now apply (freezes_trans _ sb)|].
    intros k c [<-|Hk] Hc m Hm'.
    - assert (Hc2 : dict_get (data nd2) s = Some (PConf c)) by now rewrite Hd2.
      pose proof (getitem_section _ _ _ _ _ _ _ Hn2 Hs Hget c Hc2) as E.
      inversion E; subst c0.
      apply (frozen_at_freezes _ _ _ Hfr4). apply (Hbelow3 eq_refl).
      now apply (below_freezes st s2).
    - now apply (Hrest k c). }
  destruct (Hloop (sections nd) s1 st' (fun s Hs => Hs) Hfr1 H) as (Hfr2 & Hsub).
  split; [now apply (freezes_trans _ s1)|].
  split; [now apply (frozen_at_freezes _ _ _ Hfr2)|].
  intros _ m Hm. inversion Hm as [|n' nd' k c m' Hn' Hs Hc Hcm]; subst.
  - now apply (frozen_at_freezes _ _ _ Hfr2).
  - rewrite Hn in Hn'. inversion Hn'; subst nd'.
    apply (Hsub k c); auto. now apply set_mem_in.
Qed.

(** X18.  When [set_immutable(recursive=True)] returns, the node and every
    node below it, through sections, is frozen, and nothing else in the
    store has changed; with [from_root] this holds from [node.root],
    whichever node the call was made on. *)
Theorem set_immutable_freezes_the_tree pf le fuel gfuel n from_root st st' nd :
  reachable pf le st -> nth_error st n = Some nd ->
  set_immutable fuel gfuel n true from_root st = (st', Val tt) ->
  freezes st st'
  /\ forall m, below st (if from_root then root nd else n) m -> frozen_at st' m.
Proof.
  intros Hreach Hn H. pose proof (reachable_sane _ _ _ Hreach) as Hsane.
  destruct from_root.
  - destruct (Nat.eq_dec n (root nd)) as [Heq|Hne].
    + destruct (set_immutable_below gfuel fuel n true true st st' nd Hsane Hn
                  (or_intror Heq) H) as (Hfr & _ & Hbelow).
      split; [exact Hfr|]. rewrite <- Heq. now apply Hbelow.
    + destruct (set_immutable_node _ _ _ _ _ _ _ H) as (f & nd0 & -> & Hn0 & Hf).
      rewrite Hn in Hn0. inversion Hn0; subst nd0.
      rewrite set_immutable_eq in H.
      rewrite (bind_val _ _ _ _ _ (guard_ok _ _ _ _ Hn Hf)) in H.
      rewrite (bind_val _ _ _ _ _ (get_node_ok _ _ _ Hn)) in H.
      apply Nat.eqb_neq in Hne. rewrite Hne in H. cbn [andb negb] in H.
      destruct (set_immutable_node _ _ _ _ _ _ _ H) as (_ & rnd & _ & Hr & _).
      destruct (set_immutable_below gfuel f (root nd) true false st st' rnd
                  Hsane Hr (or_introl eq_refl) H) as (Hfr & _ & Hbelow).
      split; [exact Hfr|]. now apply Hbelow.
  - destruct (set_immutable_below gfuel fuel n true false st st' nd Hsane Hn
                (or_introl eq_refl) H) as (Hfr & _ & Hbelow).
    split; [exact Hfr|]. now apply Hbelow.
Qed.

Lemma set_immutable_freezes_the_tree_witness :
  let st := fst ((a <- add_section 0 (KStr "a") None;;
                  add_section a (KStr "b") None) init_store) in
  let st' := fst (set_immutable 4 3 2 true true st) in
  freezes st st' /\ forall m, below st 0 m -> frozen_at st' m.
Proof.
  intros st st'.
  apply (set_immutable_freezes_the_tree (fun _ => None) (fun _ => None)
           4 3 2 true st st'
           (mkNode [] [] [] (Some 1) 0 ["a"; "b"] None (Some "b") false)).
  - change st with
      (fst (run_op (fun _ => None) (fun _ => None) 0
              (AddSection 1 (KStr "b") None)
        (fst (run_op (fun _ => None) (fun _ => None) 0
                (AddSection 0 (KStr "a") None) init_store)))).
    repeat apply reach_run. apply reach_init.
  - reflexivity.
  - vm_compute. reflexivity.
Defined.

(* ------------------------------------------------------------------ *)
(** ** Reading a key that is not there *)

(** The walk along the owners, when no [globals] section on the way binds
    the key, ends where the owners end: in [get_section] on the node the
    walk started for. *)
Lemma globals_walk_misses st n key k f :
  key_transform key = Val k ->
  forall m skipped c,
    owner_path st m skipped c ->
    forall cnd g,
      nth_error st c = Some cnd -> owner cnd = None ->
      Forall (no_global st k) skipped -> no_global st k c ->
      List.length skipped < g ->
      globals_walk (getitem (S f)) n key g (Some m) st = get_section n key st.
Proof.
  intros Hk.
  assert (Hstep : forall m mnd g,
            nth_error st m = Some mnd -> no_global st k m ->
            globals_walk (getitem (S f)) n key (S g) (Some m) st =
              globals_walk (getitem (S f)) n key g (owner mnd) st).
  { intros m mnd g Hm Hno. cbn [globals_walk].
    rewrite (bind_val _ _ _ _ _ (get_node_ok _ _ _ Hm)).
    destruct Hno as [Hno|(gnd & Hhas & Hnone)].
    - apply globals_of_none in Hno as (cnd & Hn & Hsec).
      rewrite Hm in Hn. inversion Hn; subst. now rewrite Hsec.
    - apply globals_of_has in Hhas
        as (cnd & gid & Hn & Hsec & Hmod & Hd & Hg & Hgmod).
      rewrite Hm in Hn. inversion Hn; subst. rewrite Hsec.
      rewrite (bind_val _ _ _ _ _ (getitem_globals f _ _ _ _ Hm Hmod Hd)).
      cbv beta iota.
      erewrite bind_val
        by (cbn [py_contains]; rewrite (contains_eq _ _ _ _ Hg), Hk; reflexivity).
      cbv beta iota. unfold dict_has. now rewrite Hnone. }
  intros m skipped c Hpath.
  induction Hpath as [m|m nd o skipped c Hm Ho Hpath IH];
    intros cnd g Hc Htop Hskip Hno Hlen.
  - destruct g as [|g]; [cbn in Hlen; lia|].
    rewrite (Hstep _ _ _ Hc Hno), Htop. now destruct g.
  - destruct g as [|g]; [cbn in Hlen; lia|].
    inversion Hskip as [|? ? Hm_no Hskip']; subst.
    rewrite (Hstep _ _ _ Hm Hm_no), Ho.
    apply (IH cnd); auto. cbn in Hlen. lia.
Qed.

(** X19.  Reading makes sections: when [get_value] does not resolve the
    key on the node and no [globals] section along the owners binds it,
    [node[key]] is [get_section(key)].  On a node open to writes that has
    no such section this adds an empty section under the key and returns
    it; on a frozen node it raises [ImmutableConfiguration] and changes
    nothing. *)
Theorem missing_key_makes_a_section st n nd key k skipped c cnd fuel :
  nth_error st n = Some nd -> key_transform key = Val k ->
  get_value n key st = (st, Val None) ->
  owner_path st n skipped c ->
  nth_error st c = Some cnd -> owner cnd = None ->
  Forall (no_global st k) skipped -> no_global st k c ->
  List.length skipped + 2 <= fuel ->
  getitem fuel n key st = get_section n key st
  /\ (has_section nd k = false ->
      getitem fuel n key st =
        if frozen nd then (st, Exn (ImmutableConfiguration "add_section"))
        else (list_set (st ++ [child_node n nd k None]) n
                (with_section (bind_key nd k (PConf (List.length st))) k),
              Val (PConf (List.length st)))).
Proof.
  intros Hn Hk Hget Hpath Hc Htop Hskip Hno Hfuel.
  destruct fuel as [|[|f]]; [lia|lia|].
  assert (Hwalk : getitem (S (S f)) n key st = get_section n key st).
  { rewrite getitem_eq, (bind_val _ _ _ _ _ Hget). cbv beta iota.
    apply (globals_walk_misses st n key k f Hk n skipped c Hpath cnd); auto.
    lia. }
  split; [exact Hwalk|]. intros Hsec. rewrite Hwalk.
  rewrite (get_section_eq _ _ _ _ Hn), Hk, Hsec.
  rewrite (get_value_eq _ _ _ _ Hn), Hk in Hget.
  unfold meta_has, dict_has.
  destruct (meta_get nd k); [discriminate|].
  destruct (get_modifier nd); [discriminate|].
  destruct (dict_get (data nd) k); [discriminate|]. reflexivity.
Qed.

Lemma missing_key_makes_a_section_witness :
  let st := fst (add_section 0 (KStr "a") None init_store) in
  let nd := mkNode [] [] [] (Some 0) 0 ["a"] None (Some "a") false in
  getitem 3 1 (KStr "Sub Key") st = get_section 1 (KStr "Sub Key") st
  /\ (has_section nd "sub_key" = false ->
      getitem 3 1 (KStr "Sub Key") st =
        if frozen nd then (st, Exn (ImmutableConfiguration "add_section"))
        else (list_set (st ++ [child_node 1 nd "sub_key" None]) 1
                (with_section (bind_key nd "sub_key" (PConf (List.length st)))
                              "sub_key"),
              Val (PConf (List.length st)))).
Proof.
  intros st nd.
  apply (missing_key_makes_a_section st 1 nd (KStr "Sub Key") "sub_key" [1] 0
           (mkNode [("a", PConf 1)] [OKey "a"] ["a"] None 0 [] None None false)
           3).
  - reflexivity.
  - reflexivity.
  - reflexivity.
  - apply (@path_up st 1 nd 0 [] 0); [reflexivity|reflexivity|apply path_here].
  - reflexivity.
  - reflexivity.
  - constructor; [|constructor]. left. reflexivity.
  - left. reflexivity.
  - cbn. lia.
Defined.

(* ------------------------------------------------------------------ *)
(** ** [update], [as_dict] and [clear] *)

(** X20.  [update] sets the items one after the other: when it returns for
    items whose values are no containers, every item is read back from the
    node with [get_value], and what was bound before still is. *)
Theorem update_binds_every_item n items st st' nd :
  nth_error st n = Some nd ->
  Forall (fun kv : pykey * pyval => is_container (snd kv) = false) items ->
  update n items st = (st', Val tt) ->
  exists nd',
    nth_error st' n = Some nd'
    /\ (forall k v, dict_get (data nd) k = Some v ->
                    dict_get (data nd') k = Some v)
    /\ (get_modifier nd = None ->
        forall key v, In (key, v) items ->
          get_value n key st' = (st', Val (Some v))).
Proof.
  intros Hn Hitems H. unfold update in H.
  bind_cases H; try discriminate. apply guard_inv in Hm as [-> _].
  destruct (set_items_lookup items _ _ _ nd Hitems Hn H)
    as (nd' & Hn' & Hmod' & Hold & Hnew).
  exists nd'. split; [exact Hn'|]. split; [exact Hold|].
  intros Hmod key v Hin. destruct (Hnew key v Hin) as (k & Hk & Hmeta & Hget).
  rewrite (get_value_eq _ _ _ _ Hn'), Hk, (meta_get_none nd nd' k Hmeta).
  unfold get_modifier, get_modifier_name in *. rewrite Hmod', Hmod.
  now rewrite Hget.
Qed.

Lemma update_binds_every_item_witness :
  let items := [(KStr "Host", PStr "localhost"); (KInt 0, PInt 80)] in
  let st := fst (set_value (PInt 1) 0 (KStr "a") init_store) in
  let nd := mkNode [("a", PInt 1)] [OKey "a"] [] None 0 [] None None false in
  let st' := fst (update 0 items st) in
  exists nd',
    nth_error st' 0 = Some nd'
    /\ (forall k v, dict_get (data nd) k = Some v ->
                    dict_get (data nd') k = Some v)
    /\ (get_modifier nd = None ->
        forall key v, In (key, v) items ->
          get_value 0 key st' = (st', Val (Some v))).
Proof.
  intros items st nd st'.
  apply (update_binds_every_item 0 items st st' nd).
  - reflexivity.
  - repeat constructor.
  - reflexivity.
Defined.

(** X21.  [as_dict] is the node's [__data__] as it is, and reading it
    changes nothing: each key of a node without modifier comes with the
    value bound to it, a section with its node and not with a dict of its
    own. *)
Theorem as_dict_is_the_data pf le fuel st n nd :
  reachable pf le st -> nth_error st n = Some nd -> get_modifier nd = None ->
  as_dict (S fuel) n st = (st, Val (data nd)).
Proof.
  intros Hreach Hn Hmod. unfold as_dict.
  assert (Hkeys : keys n st = (st, Val (dict_keys (data nd)))).
  { unfold keys. now rewrite (bind_val _ _ _ _ _ (get_node_ok _ _ _ Hn)). }
  rewrite (bind_val _ _ _ _ _ Hkeys). cbv beta.
  pose proof (reachable_distinct _ _ _ _ _ Hreach Hn) as Hdist.
  assert (Hok : forall k, In k (dict_keys (data nd)) -> key_ok k = true).
  { pose proof (store_ok_nth _ _ _ (reachable_store_ok _ _ _ Hreach) Hn) as H.
    unfold node_ok, data_keys_ok in H. rewrite forallb_forall in H. exact H. }
  assert (Hread : forall k v, dict_get (data nd) k = Some v ->
                    getitem (S fuel) n (KStr k) st = (st, Val v)).
  { intros k v Hv. rewrite getitem_eq.
    assert (Hk : key_ok k = true).
    { apply Hok, dict_has_in. unfold dict_has. now rewrite Hv. }
    unfold key_ok in Hk. apply andb_true_iff in Hk as [Hnorm Hmeta].
    apply negb_true_iff in Hmeta.
    assert (Hget : get_value n (KStr k) st = (st, Val (Some v))).
    { rewrite (get_value_eq _ _ _ _ Hn), (key_transform_normal_key _ Hnorm).
      now rewrite (meta_get_none empty_root nd k Hmeta), Hmod, Hv. }
    now rewrite (bind_val _ _ _ _ _ Hget). }
  assert (Hsub : forall d k v, In (k, v) d -> distinct (dict_keys d) = true ->
                               dict_get d k = Some v).
  { clear. induction d as [|[k0 v0] d IH]; intros k v Hin Hd; [elim Hin|].
    cbn in Hd. apply andb_true_iff in Hd as [Hk0 Hd]. cbn.
    destruct Hin as [Heq|Hin].
    - inversion Heq; subst. now rewrite String.eqb_refl.
    - destruct (String.eqb_spec k0 k) as [->|_]; [|now apply IH].
      exfalso. apply negb_true_iff in Hk0.
      assert (set_mem (map fst d) k = true).
      { apply set_mem_in. change k with (fst (k, v)). now apply in_map. }
      unfold dict_keys in Hk0. congruence. }
  assert (Hgen : forall d,
             (forall k v, In (k, v) d ->
                          getitem (S fuel) n (KStr k) st = (st, Val v)) ->
             mapM (fun k => v <- getitem (S fuel) n (KStr k);; ret (k, v))
                  (dict_keys d) st = (st, Val d)).
  { induction d as [|[k v] d IH]; intros Hall; [reflexivity|].
    cbn [dict_keys map mapM].
    rewrite (bind_val _ _ _ _ _
               (bind_val _ _ _ _ _ (Hall k v (or_introl eq_refl)))).
    cbv beta.
    assert (Hrest : mapM (fun k0 => v0 <- getitem (S fuel) n (KStr k0);;
                                    ret (k0, v0)) (dict_keys d) st
                    = (st, Val d)).
    { apply IH. intros k0 v0 Hin. apply Hall. now right. }
    unfold dict_keys in Hrest. now rewrite (bind_val _ _ _ _ _ Hrest). }
  apply Hgen. intros k v Hin. apply Hread. now apply Hsub.
Qed.

Lemma as_dict_is_the_data_witness :
  let st := fst ((set_value (PInt 1) 0 (KStr "a");;;
                  add_section 0 (KStr "s") None) init_store) in
  as_dict 1 0 st = (st, Val [("a", PInt 1); ("s", PConf 1)]).
Proof.
  intros st.
  apply (as_dict_is_the_data (fun _ => None) (fun _ => None) 0 st 0
           (mkNode [("a", PInt 1); ("s", PConf 1)] [OKey "a"; OKey "s"] ["s"]
                   None 0 [] None None false)).
  - change st with
      (fst (run_op (fun _ => None) (fun _ => None) 0
              (AddSection 0 (KStr "s") None)
        (fst (run_op (fun _ => None) (fun _ => None) 0
                (SetValue 0 (KStr "a") (PInt 1)) init_store)))).
    repeat apply reach_run. apply reach_init.
  - reflexivity.
  - reflexivity.
Defined.
